(** * netmirage: the rtnetlink transport layer (src/netlink.c) and the
      command line (src/main.c)

    A shallow embedding of the message arena, the message builder, the
    session constructor and the send/receive engine of [netlink.c], and
    of the argument parser of [main.c], with the properties of the
    specification stated over it.  Part I holds the program, Part II the
    vocabulary of the properties and the concrete data of the examples,
    Part III facts about the program, Part IV the properties of the
    specification, C1 to C10, Part V further properties of the program,
    X1 to X22.

    Conventions of the embedding.
    - C integers are [Z] with the conversion to their type written out:
      [size_t] (64 bits), [u32], [u16], [int32] (two's complement).
    - The raw storage behind [msgBuffer.data] is a map from byte offsets
      to bytes; a load reads the low eight bits of a cell.  Multi-byte
      fields are in host byte order, taken little-endian (Linux on x86
      and ARM).
    - The operating system is a script of system-call results that the
      code consumes in order; a loop that finds the script empty is
      blocked in its system call.
    - [lprintf] / [lprintln] are recorded as events and leave [errno]
      as it is.
    - A C string is the [string] of the characters before its
      terminator. *)

From Stdlib Require Import String Ascii.
From Stdlib Require Import ZArith List Bool Lia.
From Stdlib Require Decimal DecimalString DecimalPos DecimalN.
Import ListNotations.
Local Open Scope Z_scope.

(** * Part I: the program *)

(** ** Machine integers *)

Module Int.

Definition size_t (x : Z) : Z := x mod 2 ^ 64.
Definition u32 (x : Z) : Z := x mod 2 ^ 32.
Definition u16 (x : Z) : Z := x mod 2 ^ 16.
Definition u8 (x : Z) : Z := x mod 2 ^ 8.

(** Conversion to a 32-bit [int]: the value modulo 2^32 read as two's
    complement. *)
Definition int32 (x : Z) : Z :=
  let r := x mod 2 ^ 32 in
  if r <? 2 ^ 31 then r else r - 2 ^ 32.


End Int.
Import Int.

(** ** Raw storage *)

Module Mem.

(** One cell per byte offset of the allocation. *)
Definition mem := Z -> Z.

Definition byte_at (d : mem) (i : Z) : Z := u8 (d i).

Definition store8 (d : mem) (i v : Z) : mem :=
  fun j => if j =? i then u8 v else d j.

Definition load16 (d : mem) (i : Z) : Z :=
  byte_at d i + 2 ^ 8 * byte_at d (i + 1).

Definition load32 (d : mem) (i : Z) : Z :=
  load16 d i + 2 ^ 16 * load16 d (i + 2).

Definition store16 (d : mem) (i v : Z) : mem :=
  store8 (store8 d i v) (i + 1) (v / 2 ^ 8).

Definition store32 (d : mem) (i v : Z) : mem :=
  store16 (store16 d i v) (i + 2) (v / 2 ^ 16).

(** [memcpy(d + off, src, length src)] *)
Definition memcpy (d : mem) (off : Z) (src : list Z) : mem :=
  fun j =>
    if (off <=? j) && (j <? off + Z.of_nat (length src))
    then u8 (nth (Z.to_nat (j - off)) src 0)
    else d j.

(** [memset(d + off, c, n)] *)
Definition memset (d : mem) (off c n : Z) : mem :=
  fun j => if (off <=? j) && (j <? off + n) then u8 c else d j.

(** The [n] bytes from offset [off]. *)
Definition read_bytes (d : mem) (off : Z) (n : nat) : list Z :=
  map (fun k => byte_at d (off + Z.of_nat k)) (seq 0 n).

End Mem.
Import Mem.

(** ** Kernel interface: constants and macros of the system headers

    [<errno.h>], [<linux/netlink.h>] and [<linux/rtnetlink.h>] as they are
    on Linux.  The alignment macros are written with the unsigned constant
    [4U], so the mask [~(4U-1)] is the 32-bit value [0xFFFFFFFC]. *)

Module Linux.

Definition EINTR : Z := 4.
Definition EAGAIN : Z := 11.
Definition EACCES : Z := 13.
Definition ENOBUFS : Z := 105.

Definition NLM_F_REQUEST : Z := 1.
Definition NLMSG_ERROR : Z := 2.
Definition NLMSG_DONE : Z := 3.

(** [sizeof(struct nlmsghdr)], [sizeof(struct rtattr)],
    [sizeof(struct sockaddr_nl)] *)
Definition sizeof_nlmsghdr : Z := 16.
Definition sizeof_rtattr : Z := 4.
Definition sizeof_sockaddr_nl : Z := 12.

(** Field offsets of [struct nlmsghdr] and [struct rtattr]. *)
Definition off_nlmsg_len : Z := 0.
Definition off_nlmsg_type : Z := 4.
Definition off_nlmsg_flags : Z := 6.
Definition off_nlmsg_seq : Z := 8.
Definition off_nlmsg_pid : Z := 12.
Definition off_rta_len : Z := 0.
Definition off_rta_type : Z := 2.

Definition align_mask : Z := 2 ^ 32 - 4.

(** [NLMSG_ALIGN] applied to a [__u32]. *)
Definition NLMSG_ALIGN (len : Z) : Z := Z.land (u32 (len + 3)) align_mask.
Definition NLMSG_HDRLEN : Z := NLMSG_ALIGN sizeof_nlmsghdr.
Definition NLMSG_LENGTH (len : Z) : Z := len + NLMSG_HDRLEN.
Definition NLMSG_SPACE (len : Z) : Z := NLMSG_ALIGN (NLMSG_LENGTH len).
(** [NLMSG_DATA(nlh)] as an offset. *)
Definition NLMSG_DATA (nlh : Z) : Z := nlh + NLMSG_LENGTH 0.

(** [RTA_ALIGN] applied to a [size_t]. *)
Definition RTA_ALIGN (len : Z) : Z := Z.land (size_t (len + 3)) align_mask.
Definition RTA_LENGTH (len : Z) : Z := size_t (RTA_ALIGN sizeof_rtattr + len).
Definition RTA_SPACE (len : Z) : Z := RTA_ALIGN (RTA_LENGTH len).
(** [RTA_DATA(rta)] as an offset. *)
Definition RTA_DATA (rta : Z) : Z := rta + RTA_LENGTH 0.

(** Rounding up to a multiple of four, the reading of "aligned". *)
Definition align4 (x : Z) : Z := 4 * ((x + 3) / 4).

End Linux.
Import Linux.

(** ** Build configuration

    [DEBUG] is the preprocessor symbol tested in [nlReserveSpace].
    [MAX_ATTR_NEST] is defined in [netlink.inl], which is not part of the
    sources at hand, so it is a parameter of the development. *)

Class Build := {
  DEBUG : bool;
  MAX_ATTR_NEST : Z
}.

(** ** Events: log lines, system calls and handler invocations *)

Inductive LogLevel := LogDebug | LogInfo | LogWarning | LogError.

(** The arguments passed to a response handler: the payload bytes at
    [data], then [len], [type] and [flags]. *)
Record hcall := {
  h_data : list Z;
  h_len : Z;
  h_type : Z;
  h_flags : Z
}.

Inductive event :=
| Log (lvl : LogLevel) (text : string)
| Socket
| Bind (fd : Z)
| GetSockName (fd : Z)
| Close (fd : Z)
| SendMsg (fd : Z) (bytes : list Z)
| RecvMsg (fd : Z)
| Handler (c : hcall).

Definition is_SendMsg (e : event) : bool :=
  match e with SendMsg _ _ => true | _ => false end.

Definition is_Handler (e : event) : bool :=
  match e with Handler _ => true | _ => false end.

Definition is_Warning (e : event) : bool :=
  match e with Log LogWarning _ => true | _ => false end.

(** ** The shared message arena: the file-scope variables of netlink.c

    [msgBuffer] is the storage behind [msgBuffer.data] (and
    [msgBuffer.nlmsg], the same pointer).  [heap] gives the contents of
    the memory the allocator hands out: the [n]-th call of [realloc]
    that grows the block finds [heap n] beyond the bytes it keeps. *)

Record globals := {
  msgBuffer : mem;
  msgBufferCap : Z;
  msgBufferLen : Z;
  heap : nat -> mem;
  reallocs : nat
}.

(** Static storage is zero-initialised: a NULL buffer of capacity 0. *)
Definition globals0 (h : nat -> mem) : globals :=
  {| msgBuffer := fun _ => 0; msgBufferCap := 0; msgBufferLen := 0;
     heap := h; reallocs := 0 |}.

(** [realloc(d, new)] on a block of [old] bytes: the first
    [min old new] bytes are kept, the others are whatever the allocator
    returns. *)
Definition realloc (junk d : mem) (old new : Z) : mem :=
  fun i => if i <? Z.min old new then d i else junk i.

Section Arena.
Context {B : Build}.

(** The arena functions take a context argument that they do not use;
    the embedding leaves it out. *)

Definition nlReserveSpace (g : globals) (amount : Z) : globals :=
  let capacity := size_t (msgBufferLen g + amount) in
  if msgBufferCap g <? capacity then
    let newCapacity := size_t (capacity * 2) in
    let d := realloc (heap g (reallocs g)) (msgBuffer g)
                     (msgBufferCap g) newCapacity in
    let d := if DEBUG
             then memset d (msgBufferCap g) 0xCE
                         (size_t (newCapacity - msgBufferCap g))
             else d in
    {| msgBuffer := d; msgBufferCap := newCapacity;
       msgBufferLen := msgBufferLen g;
       heap := heap g; reallocs := S (reallocs g) |}
  else g.

Definition nlCommitSpace (g : globals) (amount : Z) : globals :=
  {| msgBuffer := msgBuffer g; msgBufferCap := msgBufferCap g;
     msgBufferLen := size_t (msgBufferLen g + amount);
     heap := heap g; reallocs := reallocs g |}.

Definition nlResetSpace (g : globals) (initialCapacity : Z) : globals :=
  nlReserveSpace
    {| msgBuffer := msgBuffer g; msgBufferCap := msgBufferCap g;
       msgBufferLen := 0; heap := heap g; reallocs := reallocs g |}
    initialCapacity.

(** [nlBufferTail] as an offset into the buffer. *)
Definition nlBufferTail (g : globals) : Z := msgBufferLen g.

Definition set_msgBuffer (g : globals) (d : mem) : globals :=
  {| msgBuffer := d; msgBufferCap := msgBufferCap g;
     msgBufferLen := msgBufferLen g;
     heap := heap g; reallocs := reallocs g |}.

(** [buffer] holds the [len] bytes the caller passes. *)
Definition nlBufferAppend (g : globals) (buffer : list Z) : globals :=
  let len := Z.of_nat (length buffer) in
  let g := nlReserveSpace g len in
  let g := set_msgBuffer g (memcpy (msgBuffer g) (nlBufferTail g) buffer) in
  nlCommitSpace g len.

(** The committed region: the bytes in use for the message. *)
Definition committed (g : globals) : list Z :=
  read_bytes (msgBuffer g) 0 (Z.to_nat (msgBufferLen g)).

End Arena.

(** ** The session *)

(** Modelled from the spec: [struct nlContext_s] is declared in
    [netlink.inl], which is not among the sources.  The fields are the
    ones netlink.c reads and writes: the socket, the kernel-assigned
    address ([localAddr.nl_pid]), the unsigned 32-bit sequence counter
    (the width of [nlmsg_seq], the header field it is copied to), the
    nesting depth with the stack of open attribute offsets, and the
    parts of [msg] and [iov] that the system calls use. *)
Record nlContext := {
  sock : Z;
  nl_pid : Z;
  nextSeq : Z;
  attrDepth : Z;
  attrNestPos : Z -> Z;
  msg_namelen : Z;
  iov_len : Z
}.

Definition set_sock (c : nlContext) (v : Z) : nlContext :=
  {| sock := v; nl_pid := nl_pid c; nextSeq := nextSeq c;
     attrDepth := attrDepth c; attrNestPos := attrNestPos c;
     msg_namelen := msg_namelen c; iov_len := iov_len c |}.

Definition set_nl_pid (c : nlContext) (v : Z) : nlContext :=
  {| sock := sock c; nl_pid := v; nextSeq := nextSeq c;
     attrDepth := attrDepth c; attrNestPos := attrNestPos c;
     msg_namelen := msg_namelen c; iov_len := iov_len c |}.

Definition set_nextSeq (c : nlContext) (v : Z) : nlContext :=
  {| sock := sock c; nl_pid := nl_pid c; nextSeq := v;
     attrDepth := attrDepth c; attrNestPos := attrNestPos c;
     msg_namelen := msg_namelen c; iov_len := iov_len c |}.

Definition set_attrDepth (c : nlContext) (v : Z) : nlContext :=
  {| sock := sock c; nl_pid := nl_pid c; nextSeq := nextSeq c;
     attrDepth := v; attrNestPos := attrNestPos c;
     msg_namelen := msg_namelen c; iov_len := iov_len c |}.

(** [ctx->attrNestPos[i] = v] *)
Definition set_attrNestPos (c : nlContext) (i v : Z) : nlContext :=
  {| sock := sock c; nl_pid := nl_pid c; nextSeq := nextSeq c;
     attrDepth := attrDepth c;
     attrNestPos := fun j => if j =? i then v else attrNestPos c j;
     msg_namelen := msg_namelen c; iov_len := iov_len c |}.

Definition set_msg_namelen (c : nlContext) (v : Z) : nlContext :=
  {| sock := sock c; nl_pid := nl_pid c; nextSeq := nextSeq c;
     attrDepth := attrDepth c; attrNestPos := attrNestPos c;
     msg_namelen := v; iov_len := iov_len c |}.

Definition set_iov_len (c : nlContext) (v : Z) : nlContext :=
  {| sock := sock c; nl_pid := nl_pid c; nextSeq := nextSeq c;
     attrDepth := attrDepth c; attrNestPos := attrNestPos c;
     msg_namelen := msg_namelen c; iov_len := v |}.

(** *** Session construction *)

(** The result of a system call: the value returned and the value it
    stores in [errno], if it stores one. *)
Record sysret := {
  ret : Z;
  set_errno : option Z
}.

Definition errno_after (errno : Z) (r : sysret) : Z :=
  match set_errno r with Some e => e | None => errno end.

(** What the system answers during [nlNewContextInPlace]. *)
Record setup_os := {
  os_socket : sysret;
  os_bind : sysret;
  os_getsockname : sysret;
  os_assigned_pid : Z;
  os_close : sysret
}.

(** [abort:] of [nlNewContextInPlace] *)
Definition nlNewContextInPlace_abort (os : setup_os) (ctx : nlContext)
  (errno : Z) (ev : list event) : Z * nlContext * list event :=
  if negb (sock ctx =? -1)
  then (errno_after errno (os_close os), ctx, ev ++ [Close (sock ctx)])
  else (errno, ctx, ev).

Definition nlNewContextInPlace (os : setup_os) (ctx : nlContext)
  : Z * nlContext * list event :=
  let ev := [Log LogDebug "Opening rtnetlink socket"; Socket] in
  let errno := errno_after 0 (os_socket os) in
  let ctx := set_sock ctx (ret (os_socket os)) in
  if sock ctx =? -1 then
    nlNewContextInPlace_abort os ctx errno
      (ev ++ [Log LogError "Failed to open netlink socket: %s"])
  else
    let ctx := set_nl_pid ctx 0 in
    let errno := errno_after 0 (os_bind os) in
    let ev := ev ++ [Bind (sock ctx)] in
    if negb (ret (os_bind os) =? 0) then
      nlNewContextInPlace_abort os ctx errno
        (ev ++ [Log LogError "Failed to bind netlink socket: %s"])
    else
      let errno := errno_after errno (os_getsockname os) in
      let ev := ev ++ [GetSockName (sock ctx)] in
      if negb (ret (os_getsockname os) =? 0) then
        nlNewContextInPlace_abort os ctx errno
          (ev ++ [Log LogError
             "Failed to retrieve kernel-assigned netlink address: %s"])
      else
        let ctx := set_nl_pid ctx (os_assigned_pid os) in
        let ctx := set_nextSeq ctx 0 in
        (0, ctx, ev).

(** A pointer returned to the caller: [NULL] is address 0. *)
Definition NULL : Z := 0.

(** The outcome of [nlNewContext]: the pointer returned, the value at
    [*err] afterwards ([None] when the caller passed no [err]), and the
    object at the allocated address if it has not been freed. *)
Record newContext_result := {
  returned : Z;
  err_out : option Z;
  allocated : option nlContext;
  setup_events : list event
}.

(** [p] is the address [malloc] returns, [uninit] the contents of the
    fresh object, [err] the value at [*err] before the call. *)
Definition nlNewContext (os : setup_os) (p : Z) (uninit : nlContext)
  (err : option Z) : newContext_result :=
  let '(res, ctx, ev) := nlNewContextInPlace os uninit in
  if res =? 0 then
    {| returned := 0; err_out := err; allocated := Some ctx;
       setup_events := ev |}
  else
    {| returned := NULL;
       err_out := match err with Some _ => Some res | None => None end;
       allocated := None; setup_events := ev |}.

(** ** The message builder *)

Section Builder.
Context {B : Build}.

Definition nlInitMessage (ctx : nlContext) (g : globals)
  (msgType msgFlags : Z) : nlContext * globals :=
  let g := nlResetSpace g (NLMSG_SPACE 0) in
  let ctx := set_attrDepth ctx 0 in
  let ctx := set_msg_namelen ctx sizeof_sockaddr_nl in
  let d := msgBuffer g in
  let d := store16 d off_nlmsg_type msgType in
  let d := store16 d off_nlmsg_flags (Z.lor NLM_F_REQUEST msgFlags) in
  let d := store32 d off_nlmsg_seq (nextSeq ctx) in
  let ctx := set_nextSeq ctx (u32 (nextSeq ctx + 1)) in
  let d := store32 d off_nlmsg_pid (nl_pid ctx) in
  let g := set_msgBuffer g d in
  (ctx, nlCommitSpace g (NLMSG_DATA 0 - 0)).

Definition nlPushAttr (ctx : nlContext) (g : globals) (type : Z)
  : Z * nlContext * globals * list event :=
  if MAX_ATTR_NEST <=? attrDepth ctx then
    (-1, ctx, g,
     [Log LogError "BUG: rtnetattr exceeded allowed nesting depth!"])
  else
    let g := nlReserveSpace g (RTA_SPACE 0) in
    let attr := nlBufferTail g in
    let g := set_msgBuffer g
               (store16 (msgBuffer g) (attr + off_rta_type) type) in
    let ctx := set_attrNestPos ctx (attrDepth ctx) (msgBufferLen g) in
    let ctx := set_attrDepth ctx (attrDepth ctx + 1) in
    let g := nlCommitSpace g (RTA_DATA attr - attr) in
    (0, ctx, g, []).

Definition nlPopAttr (ctx : nlContext) (g : globals)
  : Z * nlContext * globals * list event :=
  if attrDepth ctx =? 0 then
    (-1, ctx, g,
     [Log LogError "BUG: rtnetattr was finished when the stack was empty!"])
  else
    let ctx := set_attrDepth ctx (attrDepth ctx - 1) in
    let attr := attrNestPos ctx (attrDepth ctx) in
    let payloadLen := size_t (nlBufferTail g - RTA_DATA attr) in
    let g := set_msgBuffer g
               (store16 (msgBuffer g) (attr + off_rta_len)
                        (u16 (RTA_LENGTH payloadLen))) in
    let paddingDeficit :=
      size_t (RTA_SPACE payloadLen - size_t (nlBufferTail g - attr)) in
    let g := if 0 <? paddingDeficit
             then nlCommitSpace (nlReserveSpace g paddingDeficit)
                                paddingDeficit
             else g in
    (0, ctx, g, []).

End Builder.

(** ** The transport engine *)

(** What [recvmsg] does: the value returned with its [errno], the
    [msg_namelen] it stores and the datagram it copies to the buffer. *)
Record recv_result := {
  rr_ret : sysret;
  rr_namelen : Z;
  rr_data : list Z
}.

(** The kernel's side of one session: the results of the successive
    calls of [sendmsg] and of [recvmsg]. *)
Record kernel := {
  sendq : list sysret;
  recvq : list recv_result
}.

(** A handler with the state reachable through its [arg]: it returns its
    [int] result and the new state. *)
Definition nlResponseHandler (A : Type) : Type := A -> hcall -> Z * A.

(** How a call ends: it returns a value, it stays blocked in a system
    call because the kernel's script has no further answer, or the scan
    of a batch used up its iteration budget. *)
Inductive outcome :=
| Returned (rv : Z)
| Blocked
| OutOfFuel.

(** *** The transmission loop (lines 200-208) *)

Inductive send_exit :=
| Sent
| SendFailed (errno : Z)
| SendBlocked.

Fixpoint send_loop (fd : Z) (bytes : list Z) (q : list sysret)
  : send_exit * list sysret * list event :=
  let ev := [Log LogDebug "Sending netlink message %lu"; SendMsg fd bytes] in
  match q with
  | [] => (SendBlocked, [], ev)
  | r :: q' =>
      let errno := errno_after 0 r in
      if ret r =? -1 then
        if (errno =? EAGAIN) || (errno =? EINTR) then
          let '(x, q'', ev') := send_loop fd bytes q' in (x, q'', ev ++ ev')
        else
          (SendFailed errno, q',
           ev ++ [Log LogError
                    "Error when sending netlink request to the kernel: %s"])
      else (Sent, q', ev)
  end.

(** *** The scan of one received batch (lines 244-264) *)

Definition nlmsg_len (d : mem) (nlm : Z) : Z := load32 d (nlm + off_nlmsg_len).
Definition nlmsg_type (d : mem) (nlm : Z) : Z :=
  load16 d (nlm + off_nlmsg_type).
Definition nlmsg_flags (d : mem) (nlm : Z) : Z :=
  load16 d (nlm + off_nlmsg_flags).
Definition nlmsg_seq (d : mem) (nlm : Z) : Z := load32 d (nlm + off_nlmsg_seq).

(** [((struct nlmsgerr* )NLMSG_DATA(nlm))->error], a signed [int]. *)
Definition nlmsgerr_error (d : mem) (nlm : Z) : Z :=
  int32 (load32 d (NLMSG_DATA nlm)).

Definition NLMSG_OK (d : mem) (nlm len : Z) : bool :=
  (sizeof_nlmsghdr <=? len) && (sizeof_nlmsghdr <=? nlmsg_len d nlm)
  && (nlmsg_len d nlm <=? len).

(** [NLMSG_NEXT(nlm, len)]: the new pointer and the new [len]. *)
Definition NLMSG_NEXT (d : mem) (nlm len : Z) : Z * Z :=
  (nlm + NLMSG_ALIGN (nlmsg_len d nlm), len - NLMSG_ALIGN (nlmsg_len d nlm)).

(** [NLMSG_PAYLOAD(nlm, 0)], computed on [__u32]. *)
Definition NLMSG_PAYLOAD0 (d : mem) (nlm : Z) : Z :=
  u32 (nlmsg_len d nlm - NLMSG_SPACE 0).

(** The arguments the handler receives for the record at [nlm]. *)
Definition handler_call (d : mem) (nlm : Z) : hcall :=
  {| h_data := read_bytes d (NLMSG_DATA nlm) (Z.to_nat (NLMSG_PAYLOAD0 d nlm));
     h_len := NLMSG_PAYLOAD0 d nlm;
     h_type := nlmsg_type d nlm;
     h_flags := nlmsg_flags d nlm |}.

(** How the [for] loop is left: by a [return], or at its end (the
    condition fails or [break]) with the value of [foundResponse]. *)
Inductive scan_exit (A : Type) :=
| ScanReturn (rv : Z) (arg : A)
| ScanEnd (found : bool) (arg : A)
| ScanFuel.
Arguments ScanReturn {A}.
Arguments ScanEnd {A}.
Arguments ScanFuel {A}.

Definition prepend_events {X : Type} (ev : list event) (r : X * list event)
  : X * list event :=
  (fst r, ev ++ snd r).

Fixpoint scan {A : Type} (fuel : nat) (d : mem) (seq : Z)
  (handler : option (nlResponseHandler A))
  (nlm res : Z) (found : bool) (arg : A) : scan_exit A * list event :=
  match fuel with
  | O => (ScanFuel, [])
  | S fuel' =>
      if NLMSG_OK d nlm res then
        let '(nlm', res') := NLMSG_NEXT d nlm res in
        if nlmsg_type d nlm =? NLMSG_DONE then (ScanEnd found arg, [])
        else if negb (nlmsg_seq d nlm =? seq) then
          scan fuel' d seq handler nlm' res' found arg
        else
          if (nlmsg_type d nlm =? NLMSG_ERROR)
             && negb (nlmsgerr_error d nlm =? 0)
          then
            (ScanReturn (int32 (- nlmsgerr_error d nlm)) arg,
             [Log LogError "Netlink-reported error: %s"])
          else
            match handler with
            | Some h =>
                let '(userError, arg') := h arg (handler_call d nlm) in
                if negb (userError =? 0)
                then (ScanReturn userError arg', [Handler (handler_call d nlm)])
                else prepend_events [Handler (handler_call d nlm)]
                       (scan fuel' d seq handler nlm' res' true arg')
            | None => scan fuel' d seq handler nlm' res' true arg
            end
      else (ScanEnd found arg, [])
  end.

(** *** The receive loop (lines 222-265) *)

(** The effect of [recvmsg] on the context and on the buffer: at most
    [iov_len] bytes of the datagram are copied to the start of the
    buffer. *)
Definition recvmsg (ctx : nlContext) (g : globals) (r : recv_result)
  : nlContext * globals :=
  (set_msg_namelen ctx (rr_namelen r),
   set_msgBuffer g
     (memcpy (msgBuffer g) 0 (firstn (Z.to_nat (iov_len ctx)) (rr_data r)))).

Record send_result (A : Type) := {
  out : outcome;
  ctx_after : nlContext;
  glob_after : globals;
  arg_after : A;
  kernel_after : kernel;
  events : list event
}.
Arguments out {A}.
Arguments ctx_after {A}.
Arguments glob_after {A}.
Arguments arg_after {A}.
Arguments kernel_after {A}.
Arguments events {A}.

Definition ENOBUFS_warning : string :=
  "Kernel ran out of memory when sending netlink responses. View of state may be desynchronized, resulting in potential stalls!".

Fixpoint recv_loop {A : Type} (seq : Z)
  (handler : option (nlResponseHandler A))
  (ctx : nlContext) (g : globals) (arg : A) (sq : list sysret)
  (q : list recv_result) (ev : list event) : send_result A :=
  match q with
  | [] =>
      {| out := Blocked; ctx_after := ctx; glob_after := g; arg_after := arg;
         kernel_after := {| sendq := sq; recvq := [] |};
         events := ev ++ [RecvMsg (sock ctx)] |}
  | r :: q' =>
      let errno := errno_after 0 (rr_ret r) in
      let res := ret (rr_ret r) in
      let '(ctx, g) := recvmsg ctx g r in
      let ev := ev ++ [RecvMsg (sock ctx)] in
      let stop (o : outcome) (a : A) (ev : list event) :=
        {| out := o; ctx_after := ctx; glob_after := g; arg_after := a;
           kernel_after := {| sendq := sq; recvq := q' |}; events := ev |} in
      if res <? 0 then
        if res =? ENOBUFS then
          recv_loop seq handler ctx g arg sq q'
            (ev ++ [Log LogWarning ENOBUFS_warning])
        else if (res =? EAGAIN) || (errno =? EINTR) then
          recv_loop seq handler ctx g arg sq q' ev
        else
          stop (Returned errno) arg
               (ev ++ [Log LogError "Netlink socket read error: %s"])
      else if res =? 0 then
        stop (Returned (-1)) arg
             (ev ++ [Log LogError "Netlink socket was closed by the kernel"])
      else if negb (msg_namelen ctx =? sizeof_sockaddr_nl) then
        stop (Returned (-1)) arg
             (ev ++ [Log LogError
                       "Netlink response used wrong address protocol"])
      else
        match scan (Z.to_nat res) (msgBuffer g) seq handler 0 res false arg with
        | (ScanReturn rv arg', sev) => stop (Returned rv) arg' (ev ++ sev)
        | (ScanEnd true arg', sev) =>
            stop (Returned 0) arg'
                 (ev ++ sev
                     ++ [Log LogDebug "Kernel acknowledged netlink message %d"])
        | (ScanEnd false arg', sev) =>
            recv_loop seq handler ctx g arg' sq q' (ev ++ sev)
        | (ScanFuel, sev) => stop OutOfFuel arg (ev ++ sev)
        end
  end.

(** *** [nlSendMessage] *)

Section Send.
Context {B : Build}.

Definition nlSendMessage {A : Type} (ctx : nlContext) (g : globals)
  (waitResponse : bool) (handler : option (nlResponseHandler A)) (arg : A)
  (k : kernel) : send_result A :=
  if 0 <? attrDepth ctx then
    {| out := Returned (-1); ctx_after := ctx; glob_after := g;
       arg_after := arg; kernel_after := k;
       events :=
         [Log LogError
            "BUG: Attempted to send netlink packet with an rtattr depth of %d!"]
    |}
  else
    let len := u32 (NLMSG_LENGTH (nlBufferTail g - NLMSG_DATA 0)) in
    let g := set_msgBuffer g (store32 (msgBuffer g) off_nlmsg_len len) in
    let ctx := set_iov_len ctx (nlmsg_len (msgBuffer g) 0) in
    let bytes := read_bytes (msgBuffer g) 0 (Z.to_nat (iov_len ctx)) in
    let '(x, sq, ev) := send_loop (sock ctx) bytes (sendq k) in
    let stop (o : outcome) :=
      {| out := o; ctx_after := ctx; glob_after := g; arg_after := arg;
         kernel_after := {| sendq := sq; recvq := recvq k |};
         events := ev |} in
    match x with
    | SendBlocked => stop Blocked
    | SendFailed errno => stop (Returned errno)
    | Sent =>
        if negb waitResponse then stop (Returned 0)
        else
          let seq := nlmsg_seq (msgBuffer g) 0 in
          let g := nlResetSpace g 4096 in
          let ctx := set_iov_len ctx (msgBufferCap g) in
          recv_loop seq handler ctx g arg sq (recvq k) ev
    end.

End Send.

(** ** The C library functions used by main.c

    [strtol] and [strcasecmp] as ISO C and POSIX define them, in the C
    locale and with a 64-bit [long].  A string is the characters before
    its terminator. *)

Module Libc.

Definition LONG_MIN : Z := - 2 ^ 63.
Definition LONG_MAX : Z := 2 ^ 63 - 1.

Definition code (c : ascii) : Z := Z.of_nat (nat_of_ascii c).

Definition isspace (c : ascii) : bool :=
  (code c =? 32) || ((9 <=? code c) && (code c <=? 13)).

Definition isdigit (c : ascii) : bool :=
  (48 <=? code c) && (code c <=? 57).

Definition isupper (c : ascii) : bool :=
  (65 <=? code c) && (code c <=? 90).

Definition tolower (c : ascii) : ascii :=
  if isupper c then ascii_of_nat (nat_of_ascii c + 32) else c.

Fixpoint skip_spaces (s : string) : string :=
  match s with
  | String c s' => if isspace c then skip_spaces s' else s
  | EmptyString => s
  end.

(** The digits at the start of [s], accumulated onto [acc], and what
    follows them. *)
Fixpoint digits (s : string) (acc : Z) : Z * string :=
  match s with
  | String c s' =>
      if isdigit c then digits s' (10 * acc + (code c - 48)) else (acc, s)
  | EmptyString => (acc, s)
  end.

Definition clamp (v : Z) : Z := Z.max LONG_MIN (Z.min LONG_MAX v).

(** [strtol(nptr, &endptr, 10)]: the value and the string at [endptr].
    Without a digit after the optional sign, no conversion is done and
    [endptr] is [nptr]. *)
Definition strtol (nptr : string) : Z * string :=
  let s := skip_spaces nptr in
  let '(negative, s) :=
    match s with
    | String "-" s' => (true, s')
    | String "+" s' => (false, s')
    | _ => (false, s)
    end in
  match s with
  | String c _ =>
      if isdigit c then
        let '(v, endptr) := digits s 0 in
        (clamp (if negative then - v else v), endptr)
      else (0, nptr)
  | EmptyString => (0, nptr)
  end.

(** [strcasecmp]: the difference of the first characters that differ
    once converted to lower case. *)
Fixpoint strcasecmp (s1 s2 : string) : Z :=
  match s1, s2 with
  | EmptyString, EmptyString => 0
  | EmptyString, String c2 _ => - code (tolower c2)
  | String c1 _, EmptyString => code (tolower c1)
  | String c1 s1', String c2 s2' =>
      if code (tolower c1) =? code (tolower c2)
      then strcasecmp s1' s2'
      else code (tolower c1) - code (tolower c2)
  end.

End Libc.
Import Libc.

(** ** The command line (main.c) *)

(** [ARGP_ERR_UNKNOWN] is [E2BIG] in [<argp.h>]. *)
Definition ARGP_ERR_UNKNOWN : Z := 7.

(** The loop of [matchArg]: [index] is the position of the first of
    [options]. *)
Fixpoint matchArg_scan (arg : string) (userIndex : Z) (options : list string)
  (index : Z) : option Z :=
  match options with
  | [] => None
  | option :: options' =>
      if (index =? userIndex) || (strcasecmp arg option =? 0)
      then Some index
      else matchArg_scan arg userIndex options' (index + 1)
  end.

(** [userIndex] once the scan starts. *)
Definition userIndex (arg : string) : Z :=
  let '(v, endptr) := strtol arg in
  match endptr with
  | EmptyString => v
  | String _ _ => -1
  end.

(** [matchArg]: [options] holds the entries before the terminating
    NULL.  [None] stands for the call of [argp_usage], which prints the
    usage message and ends the program. *)
Definition matchArg (arg : string) (options : list string) : option Z :=
  match arg with
  | EmptyString => None
  | String _ _ => matchArg_scan arg (userIndex arg) options 0
  end.

(** The file-scope [args]: a string pointer is [None] when NULL,
    [verbosity] holds the value of the enumeration, and the divisors,
    125.f and 1000.f in the source, are kept as integers. *)
Record args := {
  topoFile : option string;
  verbosity : Z;
  logFile : option string;
  bandwidthDivisor : Z;
  weightKey : option string;
  clientType : option string
}.

Definition ShadowDivisor : Z := 125.
Definition ModelNetDivisor : Z := 1000.

(** How a call of [parseArg] ends: it returns, the program ends in
    [argp_usage], or the call has no defined behaviour (a NULL argument
    is read, or [divisors] is indexed outside its bounds). *)
Inductive parse_result :=
| Parsed (rv : Z) (a : args)
| Usage
| Undefined.

Definition verbosity_options : list string :=
  ["debug"; "info"; "warning"; "error"]%string.

Definition units_options : list string :=
  ["shadow"; "modelnet"; "KiB"; "Kb"]%string.

Definition divisors : list Z :=
  [ShadowDivisor; ModelNetDivisor; ShadowDivisor; ModelNetDivisor].

Definition set_topoFile (a : args) (v : option string) : args :=
  {| topoFile := v; verbosity := verbosity a; logFile := logFile a;
     bandwidthDivisor := bandwidthDivisor a; weightKey := weightKey a;
     clientType := clientType a |}.

Definition set_verbosity (a : args) (v : Z) : args :=
  {| topoFile := topoFile a; verbosity := v; logFile := logFile a;
     bandwidthDivisor := bandwidthDivisor a; weightKey := weightKey a;
     clientType := clientType a |}.

Definition set_logFile (a : args) (v : option string) : args :=
  {| topoFile := topoFile a; verbosity := verbosity a; logFile := v;
     bandwidthDivisor := bandwidthDivisor a; weightKey := weightKey a;
     clientType := clientType a |}.

Definition set_bandwidthDivisor (a : args) (v : Z) : args :=
  {| topoFile := topoFile a; verbosity := verbosity a; logFile := logFile a;
     bandwidthDivisor := v; weightKey := weightKey a;
     clientType := clientType a |}.

Definition set_weightKey (a : args) (v : option string) : args :=
  {| topoFile := topoFile a; verbosity := verbosity a; logFile := logFile a;
     bandwidthDivisor := bandwidthDivisor a; weightKey := v;
     clientType := clientType a |}.

Definition set_clientType (a : args) (v : option string) : args :=
  {| topoFile := topoFile a; verbosity := verbosity a; logFile := logFile a;
     bandwidthDivisor := bandwidthDivisor a; weightKey := weightKey a;
     clientType := v |}.

(** [arg] is [None] when the pointer is NULL. *)
Definition parseArg (a : args) (key : Z) (arg : option string)
  : parse_result :=
  if key =? code "f" then Parsed 0 (set_topoFile a arg)
  else if key =? code "l" then Parsed 0 (set_logFile a arg)
  else if key =? code "w" then Parsed 0 (set_weightKey a arg)
  else if key =? code "c" then Parsed 0 (set_clientType a arg)
  else if key =? code "v" then
    match arg with
    | None => Undefined
    | Some s =>
        match matchArg s verbosity_options with
        | None => Usage
        | Some index => Parsed 0 (set_verbosity a index)
        end
    end
  else if key =? code "u" then
    match arg with
    | None => Undefined
    | Some s =>
        match matchArg s units_options with
        | None => Usage
        | Some index =>
            if (0 <=? index) && (index <? Z.of_nat (length divisors))
            then Parsed 0 (set_bandwidthDivisor a
                             (nth (Z.to_nat index) divisors 0))
            else Undefined
        end
    end
  else Parsed ARGP_ERR_UNKNOWN a.

(** The values [main] stores before it parses the command line.
    Modelled from the spec: the value of [LogError] is given by [log.h],
    which is not among the sources, so it is an argument. *)
Definition main_defaults (logError : Z) : args :=
  {| topoFile := None; verbosity := logError; logFile := None;
     bandwidthDivisor := ShadowDivisor; weightKey := Some "latency"%string;
     clientType := None |}.

(** * Part II: vocabulary of the properties and concrete data *)

(** ** What the properties speak about *)

(** All three setup steps succeed. *)
Definition setup_succeeds (os : setup_os) : Prop :=
  ret (os_socket os) <> -1 /\ ret (os_bind os) = 0 /\
  ret (os_getsockname os) = 0.

Section GrowthVocabulary.
Context {B : Build}.

(** A message construction seen from the arena: payloads appended one
    after the other. *)
Fixpoint appends (g : globals) (ps : list (list Z)) : globals :=
  match ps with
  | [] => g
  | p :: ps' => appends (nlBufferAppend g p) ps'
  end.

Definition total_len (ps : list (list Z)) : Z :=
  fold_right (fun p n => Z.of_nat (length p) + n) 0 ps.

(** What the specification asks of every step of a construction: the
    committed length stays within the capacity, after the reservation
    and after the commit, and a step that changes the capacity sets it
    to at least twice the size required. *)
Fixpoint growth_ok (g : globals) (ps : list (list Z)) : Prop :=
  match ps with
  | [] => True
  | p :: ps' =>
      let required := msgBufferLen g + Z.of_nat (length p) in
      let r := nlReserveSpace g (Z.of_nat (length p)) in
      let g' := nlBufferAppend g p in
      msgBufferLen r <= msgBufferCap r /\
      msgBufferLen g' <= msgBufferCap g' /\
      (msgBufferCap g' = msgBufferCap g \/
       (msgBufferCap g < required /\ 2 * required <= msgBufferCap g')) /\
      growth_ok g' ps'
  end.

(** Two arenas hold the same message under construction. *)
Definition same_committed (g1 g2 : globals) : Prop :=
  msgBufferLen g1 = msgBufferLen g2 /\
  forall i, 0 <= i < msgBufferLen g1 ->
    byte_at (msgBuffer g1) i = byte_at (msgBuffer g2) i.

End GrowthVocabulary.

Section BatchVocabulary.
Context {A : Type}.
Variable d : mem.
Variable seq : Z.

(** The record at [nlm], with [res] bytes of the batch left, is one the
    loop visits, it is not the end-of-batch sentinel, and it answers an
    other request than the one awaited. *)
Definition stale (nlm res : Z) : Prop :=
  NLMSG_OK d nlm res = true /\
  nlmsg_type d nlm <> NLMSG_DONE /\
  nlmsg_seq d nlm <> seq.

(** The same for a record that answers the awaited request. *)
Definition matching (nlm res : Z) : Prop :=
  NLMSG_OK d nlm res = true /\
  nlmsg_type d nlm <> NLMSG_DONE /\
  nlmsg_seq d nlm = seq.

(** [skips n nlm res nlm' res']: starting at [nlm] the batch holds [n]
    stale records in a row, and [NLMSG_NEXT] leads from the last of them
    to [nlm'] with [res'] bytes left. *)
Inductive skips : nat -> Z -> Z -> Z -> Z -> Prop :=
| skips_none nlm res : skips 0 nlm res nlm res
| skips_one n nlm res nlm' res' :
    stale nlm res ->
    skips n (fst (NLMSG_NEXT d nlm res)) (snd (NLMSG_NEXT d nlm res))
          nlm' res' ->
    skips (S n) nlm res nlm' res'.

(** The record at [nlm] is an error record with a status other than 0. *)
Definition reports_error (nlm : Z) : bool :=
  (nlmsg_type d nlm =? NLMSG_ERROR) && negb (nlmsgerr_error d nlm =? 0).


End BatchVocabulary.

Section SessionVocabulary.
Context {B : Build}.

(** The sequence number in the header of the message under
    construction. *)
Definition header_seq (s : nlContext * globals) : Z :=
  nlmsg_seq (msgBuffer (snd s)) 0.

(** What a session does, call by call. *)
Inductive session_op :=
| InitMessage (msgType msgFlags : Z)
| BufferAppend (bytes : list Z)
| PushAttr (type : Z)
| PopAttr
| SendMessage (waitResponse : bool)
              (handler : option (nlResponseHandler unit)) (k : kernel).

Definition run_op (s : nlContext * globals) (op : session_op)
  : nlContext * globals :=
  let '(ctx, g) := s in
  match op with
  | InitMessage msgType msgFlags => nlInitMessage ctx g msgType msgFlags
  | BufferAppend bytes => (ctx, nlBufferAppend g bytes)
  | PushAttr type =>
      let '(_, ctx', g', _) := nlPushAttr ctx g type in (ctx', g')
  | PopAttr => let '(_, ctx', g', _) := nlPopAttr ctx g in (ctx', g')
  | SendMessage waitResponse handler k =>
      let r := nlSendMessage ctx g waitResponse handler tt k in
      (ctx_after r, glob_after r)
  end.

(** The sequence numbers written into the headers of the successive
    messages of a session. *)
Fixpoint session_seqs (s : nlContext * globals) (ops : list session_op)
  : list Z :=
  match ops with
  | [] => []
  | op :: ops' =>
      let s' := run_op s op in
      match op with
      | InitMessage _ _ => header_seq s' :: session_seqs s' ops'
      | _ => session_seqs s' ops'
      end
  end.

Definition is_InitMessage (op : session_op) : bool :=
  match op with InitMessage _ _ => true | _ => false end.

End SessionVocabulary.

(** ** Datagrams as the kernel lays them out

    Used to write down concrete responses: a header in host byte order,
    the payload, and padding to the next multiple of four. *)

Definition le16 (v : Z) : list Z := [u8 v; u8 (v / 2 ^ 8)].
Definition le32 (v : Z) : list Z := le16 v ++ le16 (v / 2 ^ 16).

Definition nlmsg_bytes (type flags seq pid : Z) (payload : list Z) : list Z :=
  let len := sizeof_nlmsghdr + Z.of_nat (length payload) in
  le32 len ++ le16 type ++ le16 flags ++ le32 seq ++ le32 pid
  ++ payload ++ repeat 0 (Z.to_nat (align4 len - len)).

(** An [NLMSG_ERROR] record: the status, then the header of the request
    it answers. *)
Definition nlmsgerr_bytes (seq pid status : Z) (request : list Z) : list Z :=
  nlmsg_bytes NLMSG_ERROR 0 seq pid (le32 status ++ request).

(** A successful [recvmsg] delivering [data]. *)
Definition received (data : list Z) : recv_result :=
  {| rr_ret := {| ret := Z.of_nat (length data); set_errno := None |};
     rr_namelen := sizeof_sockaddr_nl;
     rr_data := data |}.

(** A system call that fails with [e]. *)
Definition failing (e : Z) : sysret := {| ret := -1; set_errno := Some e |}.

Definition recv_failing (e : Z) : recv_result :=
  {| rr_ret := failing e; rr_namelen := sizeof_sockaddr_nl; rr_data := [] |}.

(** A system call that succeeds returning [v]. *)
Definition succeeding (v : Z) : sysret := {| ret := v; set_errno := None |}.

(** ** Concrete configurations used in the examples *)

Definition release_build : Build := {| DEBUG := false; MAX_ATTR_NEST := 10 |}.
Definition debug_build : Build := {| DEBUG := true; MAX_ATTR_NEST := 10 |}.

(** A fresh process: no buffer yet, allocator memory all zero. *)
Definition fresh_globals : globals := globals0 (fun _ _ => 0).

(** A session as [nlNewContextInPlace] leaves it, socket 3, address 1000. *)
Definition session0 : nlContext :=
  {| sock := 3; nl_pid := 1000; nextSeq := 0; attrDepth := 0;
     attrNestPos := fun _ => 0; msg_namelen := 0; iov_len := 0 |}.

(** A handler that records its calls in its state and reports success. *)
Definition recording_handler : nlResponseHandler (list hcall) :=
  fun calls c => (0, calls ++ [c]).

(** The system at its most cooperative: descriptor 3, address 1000. *)
Definition cooperative_os : setup_os :=
  {| os_socket := succeeding 3; os_bind := succeeding 0;
     os_getsockname := succeeding 0; os_assigned_pid := 1000;
     os_close := succeeding 0 |}.

(** A session with ten attributes open, the maximum of the builds used
    here. *)
Definition session_full : nlContext := set_attrDepth session0 10.

(** A header followed by two payloads of 20 and 50 bytes: the arena of a
    fresh process grows from 32 to 72 and to 172 bytes, the other one
    starts with 8192 bytes. *)
Definition growing_arena : globals :=
  snd (nlInitMessage (B := release_build) session0 fresh_globals 24 0).

Definition roomy_arena : globals :=
  snd (nlInitMessage (B := release_build) session0
         (nlReserveSpace (B := release_build) fresh_globals 4096) 24 0).

Definition two_payloads : list (list Z) := [repeat 170 20; repeat 187 50].

(** The session waits for the answer to its second message, sequence
    number 1.  The kernel delivers a leftover answer to message 0 and
    then the awaited one ([RTM_NEWLINK] is 16). *)
Definition waiting_ctx : nlContext := set_iov_len session0 8192.

Definition stale_then_awaited : recv_result :=
  received (nlmsg_bytes 16 0 0 1000 [1; 2; 3; 4]
            ++ nlmsg_bytes 16 0 1 1000 [5; 6; 7; 8]).


(** The session has started its second message, sequence number 1. *)
Definition second_message : nlContext * globals :=
  let '(ctx, g) :=
    nlInitMessage (B := release_build) session0 fresh_globals 18 0 in
  nlInitMessage (B := release_build) ctx g 18 0.


(** The kernel refuses the request with [EACCES]: status -13. *)
Definition permission_denied : recv_result :=
  received (nlmsgerr_bytes 1 1000 (-13) []).

(** Three messages, the first one with a payload and sent. *)
Definition three_messages : list session_op :=
  [InitMessage 18 0; BufferAppend [1; 2; 3; 4];
   SendMessage false None {| sendq := [succeeding 20]; recvq := [] |};
   InitMessage 18 0; PushAttr 1; InitMessage 24 0].

(** A session that does nothing but start messages, [n] of them. *)
Definition many_messages (n : N) : nlContext * globals :=
  N.iter n (fun s => nlInitMessage (B := release_build) (fst s) (snd s) 18 0)
         (session0, fresh_globals).

(** A first message: header, one attribute of type 1 with a payload of
    one byte, still open. *)
Definition open_attribute : nlContext * globals :=
  fold_left (run_op (B := release_build))
    [InitMessage 18 0; PushAttr 1; BufferAppend [7]]
    (session0, fresh_globals).

(** A session that sends a message with eight bytes 0xFF behind the
    header, then builds a second one with an attribute at offset 16
    holding one byte. *)
Definition second_message_attribute : list session_op :=
  [InitMessage 18 0; BufferAppend (repeat 0xFF 8);
   SendMessage false None {| sendq := [succeeding 24]; recvq := [] |};
   InitMessage 18 0; PushAttr 1; BufferAppend [7]].

Definition before_pop : nlContext * globals :=
  fold_left (run_op (B := release_build)) second_message_attribute
    (session0, fresh_globals).

Definition after_pop : nlContext * globals :=
  run_op (B := release_build) before_pop PopAttr.

(** ** Vocabulary of the further properties *)

(** *** Messages as trees of attributes *)

(** What a caller puts behind the header: raw bytes, or an attribute
    whose payload is again such a sequence. *)
#[warnings="-register-all"]
Inductive item :=
| Bytes (bs : list Z)
| Attr (type : Z) (body : list item).

(** The number of bytes an item commits: an attribute takes its header
    and its payload, rounded up to a multiple of four. *)
Fixpoint size (it : item) : Z :=
  match it with
  | Bytes bs => Z.of_nat (length bs)
  | Attr _ body =>
      align4 (4 + (fix sizes (l : list item) : Z :=
                     match l with
                     | [] => 0
                     | i :: l' => size i + sizes l'
                     end) body)
  end.

Definition sizes : list item -> Z :=
  fix sizes (l : list item) : Z :=
    match l with
    | [] => 0
    | i :: l' => size i + sizes l'
    end.

(** How deep the attributes of an item nest. *)
Fixpoint nesting (it : item) : Z :=
  match it with
  | Bytes _ => 0
  | Attr _ body =>
      1 + (fix nestings (l : list item) : Z :=
             match l with
             | [] => 0
             | i :: l' => Z.max (nesting i) (nestings l')
             end) body
  end.

Definition nestings : list item -> Z :=
  fix nestings (l : list item) : Z :=
    match l with
    | [] => 0
    | i :: l' => Z.max (nesting i) (nestings l')
    end.

(** An item as it lies in the buffer from offset [pos]: bytes as they
    were passed, an attribute with its length field, its type and its
    payload laid out behind the header. *)
Fixpoint laid_out (d : mem) (pos : Z) (it : item) : Prop :=
  match it with
  | Bytes bs => read_bytes d pos (length bs) = map u8 bs
  | Attr type body =>
      load16 d (pos + off_rta_len) = u16 (4 + sizes body) /\
      load16 d (pos + off_rta_type) = u16 type /\
      (fix all (l : list item) (pos : Z) : Prop :=
         match l with
         | [] => True
         | i :: l' => laid_out d pos i /\ all l' (pos + size i)
         end) body (pos + 4)
  end.

Definition laid_out_all (d : mem) : list item -> Z -> Prop :=
  fix all (l : list item) (pos : Z) : Prop :=
    match l with
    | [] => True
    | i :: l' => laid_out d pos i /\ all l' (pos + size i)
    end.

Section Build.
Context {B : Build}.

(** The calls that build an item, stopping at the first one that
    fails. *)
Fixpoint build (it : item) (s : nlContext * globals)
  : option (nlContext * globals) :=
  match it with
  | Bytes bs => Some (fst s, nlBufferAppend (snd s) bs)
  | Attr type body =>
      let '(rv, ctx, g, _) := nlPushAttr (fst s) (snd s) type in
      if rv =? 0 then
        match (fix build_all (l : list item) (s : nlContext * globals)
                 : option (nlContext * globals) :=
                 match l with
                 | [] => Some s
                 | i :: l' =>
                     match build i s with
                     | Some s' => build_all l' s'
                     | None => None
                     end
                 end) body (ctx, g) with
        | Some (ctx', g') =>
            let '(rv', ctx'', g'', _) := nlPopAttr ctx' g' in
            if rv' =? 0 then Some (ctx'', g'') else None
        | None => None
        end
      else None
  end.

Definition build_all : list item -> nlContext * globals
                       -> option (nlContext * globals) :=
  fix build_all (l : list item) (s : nlContext * globals) :=
    match l with
    | [] => Some s
    | i :: l' =>
        match build i s with
        | Some s' => build_all l' s'
        | None => None
        end
    end.

(** What a successful construction of [n] bytes leaves: the depth and
    the enclosing open attributes as before, [n] more bytes committed
    within the capacity, the bytes committed before untouched. *)
Definition built (ctx : nlContext) (g : globals) (n : Z)
  (s' : nlContext * globals) : Prop :=
  attrDepth (fst s') = attrDepth ctx /\
  (forall i, i < attrDepth ctx ->
     attrNestPos (fst s') i = attrNestPos ctx i) /\
  msgBufferLen (snd s') = msgBufferLen g + n /\
  msgBufferLen (snd s') <= msgBufferCap (snd s') /\
  (forall i, i < msgBufferLen g -> msgBuffer (snd s') i = msgBuffer g i).

Definition builds_item (it : item) : Prop :=
  forall ctx g,
    0 <= attrDepth ctx ->
    attrDepth ctx + nesting it <= MAX_ATTR_NEST ->
    0 <= msgBufferLen g <= msgBufferCap g ->
    msgBufferLen g + size it < 2 ^ 31 ->
    exists s',
      build it (ctx, g) = Some s' /\ built ctx g (size it) s' /\
      laid_out (msgBuffer (snd s')) (msgBufferLen g) it.

Definition builds_all (l : list item) : Prop :=
  forall ctx g,
    0 <= attrDepth ctx ->
    attrDepth ctx + nestings l <= MAX_ATTR_NEST ->
    0 <= msgBufferLen g <= msgBufferCap g ->
    msgBufferLen g + sizes l < 2 ^ 31 ->
    exists s',
      build_all l (ctx, g) = Some s' /\ built ctx g (sizes l) s' /\
      laid_out_all (msgBuffer (snd s')) l (msgBufferLen g).

Definition keeps_depth (it : item) : Prop :=
  forall s s', build it s = Some s' ->
               attrDepth (fst s') = attrDepth (fst s).

Definition fails_when_too_deep (it : item) : Prop :=
  forall s,
    attrDepth (fst s) <= MAX_ATTR_NEST ->
    MAX_ATTR_NEST < attrDepth (fst s) + nesting it ->
    build it s = None.

(** The state of a session is in order: the depth is within its bounds,
    the committed length within the capacity, and the header of every
    open attribute lies within the committed region. *)
Definition session_ok (s : nlContext * globals) : Prop :=
  0 <= attrDepth (fst s) <= MAX_ATTR_NEST /\
  0 <= msgBufferLen (snd s) <= msgBufferCap (snd s) /\
  msgBufferCap (snd s) < 2 ^ 62 /\
  forall i, 0 <= i < attrDepth (fst s) ->
    0 <= attrNestPos (fst s) i /\
    attrNestPos (fst s) i + 4 <= msgBufferLen (snd s).

End Build.

(** An upper bound of the bytes a call commits. *)
Definition op_growth (op : session_op) : Z :=
  match op with
  | BufferAppend bytes => Z.of_nat (length bytes)
  | PushAttr _ => 4
  | PopAttr => 3
  | _ => 0
  end.

Definition ops_growth (ops : list session_op) : Z :=
  fold_right (fun op n => op_growth op + n) 0 ops.

(** *** Transmission and reception *)

(** The arena once [nlSendMessage] has written the total length into
    the header (line 196). *)
Definition finalized (g : globals) : globals :=
  set_msgBuffer g
    (store32 (msgBuffer g) off_nlmsg_len
             (u32 (NLMSG_LENGTH (nlBufferTail g - NLMSG_DATA 0)))).

(** The bytes handed to [sendmsg]: [iov_len] bytes from the start of the
    buffer. *)
Definition wire_bytes (g : globals) : list Z :=
  read_bytes (msgBuffer (finalized g)) 0
             (Z.to_nat (nlmsg_len (msgBuffer (finalized g)) 0)).

(** A failure of [sendmsg] that the transmission loop retries. *)
Definition transient (r : sysret) : Prop :=
  ret r = -1 /\ (errno_after 0 r = EAGAIN \/ errno_after 0 r = EINTR).

Definition is_RecvMsg (e : event) : bool :=
  match e with RecvMsg _ => true | _ => false end.

Definition is_Error (e : event) : bool :=
  match e with Log LogError _ => true | _ => false end.

(** One attempt of the transmission loop, as it is logged. *)
Definition attempt (fd : Z) (bytes : list Z) : list event :=
  [Log LogDebug "Sending netlink message %lu"; SendMsg fd bytes].

(** The handler calls among the events, in order. *)
Definition calls (ev : list event) : list hcall :=
  flat_map (fun e => match e with Handler c => [c] | _ => [] end) ev.

(** The handler's state after the calls [cs], starting from [arg]. *)
Definition thread {A : Type} (handler : option (nlResponseHandler A))
  (cs : list hcall) (arg : A) : A :=
  match handler with
  | Some h => fold_left (fun a c => snd (h a c)) cs arg
  | None => arg
  end.


(** A datagram short enough for the 32-bit arithmetic of [NLMSG_ALIGN]. *)
Definition short_datagram (r : recv_result) : Prop :=
  ret (rr_ret r) < 2 ^ 32 - 3.

Definition is_Close (e : event) : bool :=
  match e with Close _ => true | _ => false end.


(** The error number in force when the failing step of the setup has
    returned. *)
Definition setup_errno (os : setup_os) : Z :=
  if ret (os_socket os) =? -1 then errno_after 0 (os_socket os)
  else if negb (ret (os_bind os) =? 0) then errno_after 0 (os_bind os)
  else errno_after (errno_after 0 (os_bind os)) (os_getsockname os).

(** *** The command line *)

(** A string in lower case. *)
Fixpoint lower (s : string) : string :=
  match s with
  | String c s' => String (tolower c) (lower s')
  | EmptyString => EmptyString
  end.

(** The decimal numeral of [n]. *)
Definition numeral (n : N) : string :=
  DecimalString.NilZero.string_of_uint (N.to_uint n).

(** The test of the scan: the option at [index] is the one of the
    number [u] or bears the name [arg]. *)
Definition selected (arg : string) (u index : Z) (option : string) : Prop :=
  index = u \/ strcasecmp arg option = 0.

(** [arg] selects the option at [index]: by its position or by its
    name. *)
Definition selects (arg : string) (index : Z) (option : string) : Prop :=
  selected arg (userIndex arg) index option.

(** No character of [s] is the terminator, as in every C string. *)
Fixpoint nul_free (s : string) : bool :=
  match s with
  | String c s' => negb (code c =? 0) && nul_free s'
  | EmptyString => true
  end.

(** [s] starts with a letter. *)
Definition starts_with_letter (s : string) : bool :=
  match s with
  | String c _ => (97 <=? code (tolower c)) && (code (tolower c) <=? 122)
  | EmptyString => false
  end.

Definition valid_args (a : args) : Prop :=
  bandwidthDivisor a = ShadowDivisor \/ bandwidthDivisor a = ModelNetDivisor.

Section Awaiting.
Context {B : Build}.



End Awaiting.

Section ReachVocabulary.
Context {A : Type}.
Variable d : mem.
Variable seq : Z.
Variable handler : option (nlResponseHandler A).




End ReachVocabulary.

(** The keys [parseArg] has a case for. *)
Definition known_key (key : Z) : bool :=
  existsb (Z.eqb key) (map code ["f"; "l"; "w"; "c"; "v"; "u"]%char).

(** ** Further concrete data *)

(** An attribute of type 1 holding an attribute of type 2 with two bytes
    of payload, then one byte. *)
Definition nested_item : item := Attr 1 [Attr 2 [Bytes [1; 2]]; Bytes [7]].

(** A session with nine attributes open, and an item that opens two
    more. *)
Definition session_nine_open : nlContext := set_attrDepth session0 9.
Definition two_levels : item := Attr 1 [Attr 2 []].

(** A session that builds and sends a message with a nested attribute,
    then starts an other one. *)
Definition busy_session : list session_op :=
  [InitMessage 18 0; PushAttr 1; PushAttr 2; BufferAppend [1; 2]; PopAttr;
   PopAttr;
   SendMessage false None {| sendq := [succeeding 28]; recvq := [] |};
   InitMessage 24 0; BufferAppend [9]].

(** The kernel is busy twice before it takes the message. *)
Definition busy_twice : list sysret := [failing EAGAIN; failing EINTR].

(** A handler that refuses every record with the code 5. *)
Definition refusing_handler : nlResponseHandler (list hcall) :=
  fun calls c => (5, calls ++ [c]).

(** The kernel acknowledges message 1. *)
Definition acknowledgement : recv_result :=
  received (nlmsgerr_bytes 1 1000 0 []).

(** A kernel that has closed the socket, and a response from an other
    address family. *)
Definition closed_socket : recv_result :=
  {| rr_ret := succeeding 0; rr_namelen := sizeof_sockaddr_nl; rr_data := [] |}.

(** [bind] fails with [EACCES] on descriptor 3. *)
Definition bind_refused : setup_os :=
  {| os_socket := succeeding 3; os_bind := failing EACCES;
     os_getsockname := succeeding 0; os_assigned_pid := 0;
     os_close := succeeding 0 |}.

Definition answered : kernel :=
  {| sendq := [succeeding 16]; recvq := [stale_then_awaited] |}.

(** The first request of a session, and the kernel taking it at the
    third attempt. *)
Definition taken_at_third_attempt : kernel :=
  {| sendq := busy_twice ++ [succeeding 16]; recvq := [] |}.

Definition refused_at_third_attempt : kernel :=
  {| sendq := busy_twice ++ [failing EACCES]; recvq := [] |}.


(** The batch of [stale_then_awaited] as it lies in the buffer. *)
Definition received_batch : mem :=
  msgBuffer (snd (recvmsg waiting_ctx fresh_globals stale_then_awaited)).




(** An allocator that fills the memory of its [n]-th block with the
    byte [n + 1]. *)
Definition numbered_heap : nat -> mem := fun n _ => Z.of_nat n + 1.

(** A header, twenty bytes of payload, and an attribute holding one
    byte: 41 bytes, and three of padding. *)
Definition message_with_attribute : list session_op :=
  [InitMessage 18 0; BufferAppend (repeat 170 20); PushAttr 1;
   BufferAppend [7]; PopAttr].

(** The construction on the arena of a fresh process, which grows on
    the way, and on an arena reserved large enough beforehand. *)
Definition grown_construction : nlContext * globals :=
  fold_left (run_op (B := release_build)) message_with_attribute
    (session0, globals0 numbered_heap).

Definition reserved_arena : globals :=
  nlReserveSpace (B := release_build) (globals0 numbered_heap) 4096.

Definition reserved_construction : nlContext * globals :=
  fold_left (run_op (B := release_build)) message_with_attribute
    (session0, reserved_arena).

(** * Part III: facts about the program *)

(** ** Machine integers, storage and the kernel macros *)

Lemma size_t_small x : 0 <= x < 2 ^ 64 -> size_t x = x.
Proof. intros; unfold size_t; apply Z.mod_small; assumption. Qed.

Lemma u32_small x : 0 <= x < 2 ^ 32 -> u32 x = x.
Proof. intros; unfold u32; apply Z.mod_small; assumption. Qed.

Lemma u16_small x : 0 <= x < 2 ^ 16 -> u16 x = x.
Proof. intros; unfold u16; apply Z.mod_small; assumption. Qed.

Lemma u8_range x : 0 <= u8 x < 256.
Proof. unfold u8; change (2 ^ 8) with 256; apply Z.mod_pos_bound; lia. Qed.

Lemma u32_range x : 0 <= u32 x < 2 ^ 32.
Proof. unfold u32; apply Z.mod_pos_bound; lia. Qed.



Lemma byte_at_range d i : 0 <= byte_at d i < 256.
Proof. apply u8_range. Qed.

Lemma u8_idem x : u8 (u8 x) = u8 x.
Proof. unfold u8; apply Z.mod_mod; lia. Qed.

Lemma byte_at_store8_same d i v : byte_at (store8 d i v) i = u8 v.
Proof. unfold byte_at, store8; rewrite Z.eqb_refl; apply u8_idem. Qed.

Lemma byte_at_store8_other d i v j :
  j <> i -> byte_at (store8 d i v) j = byte_at d j.
Proof.
  intros H; unfold byte_at, store8.
  destruct (Z.eqb_spec j i); [contradiction | reflexivity].
Qed.

Lemma byte_at_store16_other d i v j :
  j <> i -> j <> i + 1 -> byte_at (store16 d i v) j = byte_at d j.
Proof.
  intros H1 H2; unfold store16.
  rewrite !byte_at_store8_other by assumption; reflexivity.
Qed.

Lemma store16_other d i v j :
  j <> i -> j <> i + 1 -> store16 d i v j = d j.
Proof.
  intros H1 H2; unfold store16, store8.
  destruct (Z.eqb_spec j (i + 1)); [contradiction |].
  destruct (Z.eqb_spec j i); [contradiction | reflexivity].
Qed.

Lemma load16_store16 d i v : load16 (store16 d i v) i = u16 v.
Proof.
  unfold load16, store16.
  rewrite byte_at_store8_other by lia.
  rewrite !byte_at_store8_same.
  unfold u8, u16.
  change (2 ^ 16) with (2 ^ 8 * 2 ^ 8).
  rewrite Z.rem_mul_r by lia; reflexivity.
Qed.

Lemma load16_range d i : 0 <= load16 d i < 2 ^ 16.
Proof.
  unfold load16.
  pose proof (byte_at_range d i); pose proof (byte_at_range d (i + 1)); lia.
Qed.

Lemma load32_range d i : 0 <= load32 d i < 2 ^ 32.
Proof.
  unfold load32.
  pose proof (load16_range d i); pose proof (load16_range d (i + 2)); lia.
Qed.

Lemma load16_store16_other d i v j :
  j + 1 < i \/ i + 1 < j -> load16 (store16 d i v) j = load16 d j.
Proof.
  intros H; unfold load16.
  rewrite !byte_at_store16_other by lia; reflexivity.
Qed.

Lemma load32_store32 d i v : load32 (store32 d i v) i = u32 v.
Proof.
  unfold load32, store32.
  rewrite load16_store16, load16_store16_other, load16_store16 by lia.
  unfold u16, u32.
  change (2 ^ 32) with (2 ^ 16 * 2 ^ 16).
  rewrite Z.rem_mul_r by lia; reflexivity.
Qed.

Lemma read_bytes_length d off n : length (read_bytes d off n) = n.
Proof. unfold read_bytes; rewrite length_map, length_seq; reflexivity. Qed.

Lemma read_bytes_ext d1 d2 off n :
  (forall i, off <= i < off + Z.of_nat n -> byte_at d1 i = byte_at d2 i) ->
  read_bytes d1 off n = read_bytes d2 off n.
Proof.
  intros H; unfold read_bytes; apply map_ext_in.
  intros k Hk; apply in_seq in Hk; apply H; lia.
Qed.

Lemma load32_store32_other d i v j :
  j + 3 < i \/ i + 3 < j -> load32 (store32 d i v) j = load32 d j.
Proof.
  intros H; unfold load32, store32.
  rewrite !load16_store16_other by lia; reflexivity.
Qed.

Lemma land_align_mask x :
  0 <= x < 2 ^ 32 -> Z.land x align_mask = 4 * (x / 4).
Proof.
  intros Hx.
  assert (E : align_mask = Z.ldiff (Z.ones 32) (Z.ones 2)) by reflexivity.
  rewrite E.
  apply Z.bits_inj'; intros n Hn.
  rewrite Z.land_spec, Z.ldiff_spec.
  replace (4 * (x / 4)) with (Z.shiftl (Z.shiftr x 2) 2)
    by (rewrite Z.shiftl_mul_pow2, Z.shiftr_div_pow2 by lia;
        change (2 ^ 2) with 4; lia).
  destruct (Z_lt_le_dec n 2) as [Hlt | Hge].
  - rewrite Z.shiftl_spec_low by lia.
    rewrite (Z.ones_spec_low 2 n) by lia.
    rewrite andb_false_r; simpl; apply andb_false_r.
  - rewrite Z.shiftl_spec_high by lia.
    rewrite Z.shiftr_spec by lia.
    replace (n - 2 + 2) with n by lia.
    rewrite (Z.ones_spec_high 2 n) by lia.
    destruct (Z_lt_le_dec n 32) as [H32 | H32].
    + rewrite (Z.ones_spec_low 32 n) by lia.
      simpl; rewrite andb_true_r; reflexivity.
    + rewrite (Z.ones_spec_high 32 n) by lia.
      simpl; rewrite andb_false_r; symmetry.
      destruct (Z.eq_dec x 0) as [-> | Hx0]; [apply Z.testbit_0_l |].
      apply Z.bits_above_log2; [lia |].
      apply Z.lt_le_trans with 32; [| assumption].
      apply Z.log2_lt_pow2; lia.
Qed.

Lemma RTA_ALIGN_small x : 0 <= x < 2 ^ 32 - 3 -> RTA_ALIGN x = align4 x.
Proof.
  intros H; unfold RTA_ALIGN, align4.
  rewrite size_t_small by lia.
  apply land_align_mask; lia.
Qed.

Lemma NLMSG_ALIGN_small x : 0 <= x < 2 ^ 32 - 3 -> NLMSG_ALIGN x = align4 x.
Proof.
  intros H; unfold NLMSG_ALIGN, align4.
  rewrite u32_small by lia.
  apply land_align_mask; lia.
Qed.

Lemma align4_bounds x : x <= align4 x < x + 4.
Proof.
  unfold align4.
  pose proof (Z.div_mod (x + 3) 4 ltac:(lia)).
  pose proof (Z.mod_pos_bound (x + 3) 4 ltac:(lia)).
  lia.
Qed.

Lemma align4_mod x : align4 x mod 4 = 0.
Proof. unfold align4; rewrite Z.mul_comm; apply Z.mod_mul; lia. Qed.

Lemma RTA_LENGTH_small x : 0 <= x < 2 ^ 32 - 8 -> RTA_LENGTH x = 4 + x.
Proof.
  intros H; unfold RTA_LENGTH.
  change (RTA_ALIGN sizeof_rtattr) with 4.
  apply size_t_small; lia.
Qed.

Lemma RTA_SPACE_small x : 0 <= x < 2 ^ 32 - 8 -> RTA_SPACE x = align4 (4 + x).
Proof.
  intros H; unfold RTA_SPACE.
  rewrite RTA_LENGTH_small by assumption.
  apply RTA_ALIGN_small; lia.
Qed.

(** ** Properties of the arena *)

Section ArenaFacts.
Context {B : Build}.

Lemma nlCommitSpace_buffer g n : msgBuffer (nlCommitSpace g n) = msgBuffer g.
Proof. reflexivity. Qed.

Lemma nlCommitSpace_cap g n :
  msgBufferCap (nlCommitSpace g n) = msgBufferCap g.
Proof. reflexivity. Qed.

Lemma nlReserveSpace_len g n :
  msgBufferLen (nlReserveSpace g n) = msgBufferLen g.
Proof.
  unfold nlReserveSpace.
  destruct (msgBufferCap g <? size_t (msgBufferLen g + n)); reflexivity.
Qed.

(** A reservation either leaves the capacity alone, when it already
    covers the request, or sets it to twice the required size. *)
Lemma nlReserveSpace_cap g n :
  0 <= msgBufferLen g -> 0 <= n -> msgBufferLen g + n < 2 ^ 62 ->
  let g' := nlReserveSpace g n in
  (msgBufferLen g + n <= msgBufferCap g /\ g' = g) \/
  (msgBufferCap g < msgBufferLen g + n /\
   msgBufferCap g' = 2 * (msgBufferLen g + n)).
Proof.
  intros Hl Hn Hb; cbv zeta; unfold nlReserveSpace.
  rewrite (size_t_small (msgBufferLen g + n)) by lia.
  destruct (Z.ltb_spec (msgBufferCap g) (msgBufferLen g + n)) as [Hlt | Hge].
  - right; split; [assumption |]; cbn [msgBufferCap].
    rewrite size_t_small by lia; lia.
  - left; split; [assumption | reflexivity].
Qed.

(** Growing the block keeps every byte below the old capacity. *)
Lemma nlReserveSpace_keeps g n i :
  0 <= msgBufferLen g -> 0 <= n -> msgBufferLen g + n < 2 ^ 62 ->
  i < msgBufferCap g ->
  msgBuffer (nlReserveSpace g n) i = msgBuffer g i.
Proof.
  intros Hl Hn Hb Hi; unfold nlReserveSpace.
  rewrite (size_t_small (msgBufferLen g + n)) by lia.
  destruct (Z.ltb_spec (msgBufferCap g) (msgBufferLen g + n)) as [Hlt | Hge];
    [| reflexivity].
  cbn [msgBuffer].
  rewrite size_t_small by lia.
  assert (Hk : realloc (heap g (reallocs g)) (msgBuffer g) (msgBufferCap g)
                 ((msgBufferLen g + n) * 2) i = msgBuffer g i).
  { unfold realloc.
    destruct (Z.ltb_spec i (Z.min (msgBufferCap g) ((msgBufferLen g + n) * 2)));
      [reflexivity | lia]. }
  destruct DEBUG; [| exact Hk].
  unfold memset.
  destruct (Z.leb_spec (msgBufferCap g) i); [lia |].
  cbn [andb]; exact Hk.
Qed.

(** A reservation that has to grow the block: the bytes beyond the old
    capacity are the allocator's, or the 0xCE fill of a [DEBUG] build. *)
Lemma nlReserveSpace_fresh g n i :
  0 <= msgBufferLen g -> 0 <= n -> msgBufferLen g + n < 2 ^ 62 ->
  0 <= msgBufferCap g <= i -> i < msgBufferLen g + n ->
  msgBuffer (nlReserveSpace g n) i
  = if DEBUG then 0xCE else heap g (reallocs g) i.
Proof.
  intros Hl Hn Hb Hc Hi; unfold nlReserveSpace.
  rewrite (size_t_small (msgBufferLen g + n)) by lia.
  destruct (Z.ltb_spec (msgBufferCap g) (msgBufferLen g + n)); [| lia].
  cbn [msgBuffer].
  rewrite !size_t_small by lia.
  assert (Hk : realloc (heap g (reallocs g)) (msgBuffer g) (msgBufferCap g)
                 ((msgBufferLen g + n) * 2) i = heap g (reallocs g) i).
  { unfold realloc.
    destruct (Z.ltb_spec i (Z.min (msgBufferCap g) ((msgBufferLen g + n) * 2)));
      [lia | reflexivity]. }
  destruct DEBUG; [| exact Hk].
  unfold memset.
  destruct (Z.leb_spec (msgBufferCap g) i); [| lia].
  destruct (Z.ltb_spec i (msgBufferCap g
                          + ((msgBufferLen g + n) * 2 - msgBufferCap g)));
    [reflexivity | lia].
Qed.

End ArenaFacts.

(** ** Appending under growth *)

Section Growth.
Context {B : Build}.

Lemma total_len_nonneg ps : 0 <= total_len ps.
Proof. induction ps as [| p ps IH]; simpl; lia. Qed.

Lemma nth_read_bytes d n i :
  0 <= i < Z.of_nat n ->
  nth (Z.to_nat i) (read_bytes d 0 n) 0 = byte_at d i.
Proof.
  intros Hi; unfold read_bytes.
  set (f := fun k : nat => byte_at d (0 + Z.of_nat k)).
  rewrite nth_indep with (d' := f 0%nat)
    by (rewrite length_map, length_seq; lia).
  rewrite (map_nth f), seq_nth by lia.
  unfold f; f_equal; lia.
Qed.

Lemma committed_same g1 g2 :
  same_committed g1 g2 -> committed g1 = committed g2.
Proof.
  intros [Hl Hb]; unfold committed; rewrite <- Hl.
  apply read_bytes_ext; intros i Hi; apply Hb; lia.
Qed.

Lemma same_committed_of_eq g1 g2 :
  0 <= msgBufferLen g1 -> 0 <= msgBufferLen g2 ->
  committed g1 = committed g2 -> same_committed g1 g2.
Proof.
  intros H1 H2 E.
  assert (Hl : msgBufferLen g1 = msgBufferLen g2).
  { apply (f_equal (@length Z)) in E; unfold committed in E.
    rewrite !read_bytes_length in E; lia. }
  split; [assumption |]; intros i Hi.
  rewrite <- (nth_read_bytes (msgBuffer g1) (Z.to_nat (msgBufferLen g1)))
    by lia.
  rewrite <- (nth_read_bytes (msgBuffer g2) (Z.to_nat (msgBufferLen g2)))
    by lia.
  unfold committed in E; rewrite E; reflexivity.
Qed.

(** One append: where the bytes go and what happens to the capacity. *)
Lemma nlBufferAppend_spec g p :
  0 <= msgBufferLen g <= msgBufferCap g ->
  msgBufferLen g + Z.of_nat (length p) < 2 ^ 62 ->
  let n := Z.of_nat (length p) in
  let r := nlReserveSpace g n in
  let g' := nlBufferAppend g p in
  msgBufferLen g' = msgBufferLen g + n /\
  msgBufferLen r <= msgBufferCap r /\
  msgBufferLen g' <= msgBufferCap g' /\
  ((msgBufferLen g + n <= msgBufferCap g /\
    msgBufferCap g' = msgBufferCap g) \/
   (msgBufferCap g < msgBufferLen g + n /\
    msgBufferCap g' = 2 * (msgBufferLen g + n))) /\
  (forall i, i < msgBufferLen g -> msgBuffer g' i = msgBuffer g i) /\
  (forall i, msgBufferLen g <= i < msgBufferLen g + n ->
     msgBuffer g' i = u8 (nth (Z.to_nat (i - msgBufferLen g)) p 0)).
Proof.
  intros Hinv Hb n r g'.
  assert (Hn : 0 <= n) by (subst n; lia).
  pose proof (nlReserveSpace_len g n) as Hrl.
  pose proof (nlReserveSpace_cap g n ltac:(lia) Hn Hb) as Hrc.
  cbv zeta in Hrc; fold r in Hrl, Hrc.
  assert (Hlen : msgBufferLen g' = msgBufferLen g + n).
  { subst g'; unfold nlBufferAppend; fold n; fold r.
    cbn [nlCommitSpace msgBufferLen set_msgBuffer].
    rewrite Hrl; apply size_t_small; lia. }
  assert (Hcap : msgBufferCap g' = msgBufferCap r) by reflexivity.
  assert (Hbuf : msgBuffer g' = memcpy (msgBuffer r) (msgBufferLen g) p).
  { subst g'; unfold nlBufferAppend; fold n; fold r.
    cbn [nlCommitSpace msgBuffer set_msgBuffer]; unfold nlBufferTail.
    rewrite Hrl; reflexivity. }
  repeat split.
  - exact Hlen.
  - destruct Hrc as [[? E] | [? E]]; rewrite ?E; lia.
  - rewrite Hlen, Hcap; destruct Hrc as [[? E] | [? E]]; rewrite ?E; lia.
  - rewrite Hcap; destruct Hrc as [[? E] | [? E]]; rewrite ?E; [left | right];
      (split; [assumption | reflexivity]).
  - intros i Hi; rewrite Hbuf; unfold memcpy.
    destruct (Z.leb_spec (msgBufferLen g) i); [lia |].
    cbn [andb]; subst r.
    apply nlReserveSpace_keeps; lia.
  - intros i Hi; rewrite Hbuf; unfold memcpy; fold n.
    destruct (Z.leb_spec (msgBufferLen g) i); [| lia].
    destruct (Z.ltb_spec i (msgBufferLen g + n)); [| lia].
    reflexivity.
Qed.

Lemma nlBufferAppend_same g1 g2 p :
  0 <= msgBufferLen g1 <= msgBufferCap g1 ->
  0 <= msgBufferLen g2 <= msgBufferCap g2 ->
  msgBufferLen g1 + Z.of_nat (length p) < 2 ^ 62 ->
  same_committed g1 g2 ->
  same_committed (nlBufferAppend g1 p) (nlBufferAppend g2 p).
Proof.
  intros H1 H2 Hb [Hl Hs].
  pose proof (nlBufferAppend_spec g1 p H1 Hb) as S1.
  pose proof (nlBufferAppend_spec g2 p H2 ltac:(lia)) as S2.
  cbv zeta in S1, S2.
  destruct S1 as (L1 & _ & _ & _ & K1 & W1).
  destruct S2 as (L2 & _ & _ & _ & K2 & W2).
  split; [lia |].
  intros i Hi; unfold byte_at.
  destruct (Z_lt_le_dec i (msgBufferLen g1)) as [Hlt | Hge].
  - rewrite K1, K2 by lia; apply Hs; lia.
  - rewrite W1, W2 by lia; rewrite Hl; reflexivity.
Qed.

Lemma appends_len ps : forall g,
  0 <= msgBufferLen g <= msgBufferCap g ->
  msgBufferLen g + total_len ps < 2 ^ 62 ->
  msgBufferLen (appends g ps) = msgBufferLen g + total_len ps /\
  msgBufferLen (appends g ps) <= msgBufferCap (appends g ps).
Proof.
  induction ps as [| p ps IH]; intros g Hinv Hb; cbn [appends].
  - unfold total_len in *; simpl in *; lia.
  - pose proof (total_len_nonneg ps) as Ht.
    change (total_len (p :: ps))
      with (Z.of_nat (length p) + total_len ps) in *.
    assert (Hp : msgBufferLen g + Z.of_nat (length p) < 2 ^ 62) by lia.
    pose proof (nlBufferAppend_spec g p Hinv Hp) as S.
    cbv zeta in S; destruct S as (L & _ & C & _).
    destruct (IH (nlBufferAppend g p)) as [IL IC]; [lia | lia |].
    split; [lia | assumption].
Qed.

Lemma appends_same ps : forall g1 g2,
  0 <= msgBufferLen g1 <= msgBufferCap g1 ->
  0 <= msgBufferLen g2 <= msgBufferCap g2 ->
  msgBufferLen g1 + total_len ps < 2 ^ 62 ->
  same_committed g1 g2 ->
  same_committed (appends g1 ps) (appends g2 ps).
Proof.
  induction ps as [| p ps IH]; intros g1 g2 H1 H2 Hb Hs; cbn [appends].
  - assumption.
  - pose proof (total_len_nonneg ps) as Ht.
    change (total_len (p :: ps))
      with (Z.of_nat (length p) + total_len ps) in *.
    assert (Hl : msgBufferLen g1 = msgBufferLen g2) by apply Hs.
    assert (Hp1 : msgBufferLen g1 + Z.of_nat (length p) < 2 ^ 62) by lia.
    assert (Hp2 : msgBufferLen g2 + Z.of_nat (length p) < 2 ^ 62) by lia.
    pose proof (nlBufferAppend_spec g1 p H1 Hp1) as S1.
    pose proof (nlBufferAppend_spec g2 p H2 Hp2) as S2.
    cbv zeta in S1, S2.
    destruct S1 as (L1 & _ & C1 & _), S2 as (L2 & _ & C2 & _).
    apply IH; try lia.
    apply nlBufferAppend_same; try assumption; lia.
Qed.

(** With room for the whole payload the block is never reallocated. *)
Lemma appends_no_growth ps : forall g,
  0 <= msgBufferLen g ->
  msgBufferLen g + total_len ps <= msgBufferCap g ->
  msgBufferLen g + total_len ps < 2 ^ 62 ->
  msgBufferCap (appends g ps) = msgBufferCap g /\
  reallocs (appends g ps) = reallocs g.
Proof.
  induction ps as [| p ps IH]; intros g Hl Hc Hb; cbn [appends].
  - split; reflexivity.
  - pose proof (total_len_nonneg ps) as Ht.
    change (total_len (p :: ps))
      with (Z.of_nat (length p) + total_len ps) in *.
    assert (Hp : msgBufferLen g + Z.of_nat (length p) < 2 ^ 62) by lia.
    pose proof (nlReserveSpace_cap g (Z.of_nat (length p))
                  Hl (Nat2Z.is_nonneg _) Hp) as R.
    cbv zeta in R; destruct R as [[_ E] | [Hlt _]]; [| lia].
    assert (L : msgBufferLen (nlBufferAppend g p)
                = msgBufferLen g + Z.of_nat (length p)).
    { unfold nlBufferAppend; rewrite E.
      cbn [nlCommitSpace msgBufferLen set_msgBuffer].
      apply size_t_small; lia. }
    assert (C : msgBufferCap (nlBufferAppend g p) = msgBufferCap g)
      by (unfold nlBufferAppend; rewrite E; reflexivity).
    assert (N : reallocs (nlBufferAppend g p) = reallocs g)
      by (unfold nlBufferAppend; rewrite E; reflexivity).
    destruct (IH (nlBufferAppend g p)) as [IC IR]; [lia | lia | lia |].
    split; congruence.
Qed.

Lemma appends_growth_ok ps : forall g,
  0 <= msgBufferLen g <= msgBufferCap g ->
  msgBufferLen g + total_len ps < 2 ^ 62 ->
  growth_ok g ps.
Proof.
  induction ps as [| p ps IH]; intros g Hinv Hb; cbn [appends growth_ok].
  - exact I.
  - pose proof (total_len_nonneg ps) as Ht.
    change (total_len (p :: ps))
      with (Z.of_nat (length p) + total_len ps) in *.
    assert (Hp : msgBufferLen g + Z.of_nat (length p) < 2 ^ 62) by lia.
    pose proof (nlBufferAppend_spec g p Hinv Hp) as S.
    cbv zeta in S; destruct S as (L & R & C & G & _).
    repeat split; try assumption.
    + destruct G as [[_ E] | [Hlt E]]; [left; exact E | right; lia].
    + apply IH; lia.
Qed.

End Growth.

(** ** The builder *)

Section BuilderFacts.
Context {B : Build}.

(** Starting a message leaves the arena with sixteen committed bytes
    within its capacity, whatever it held before. *)
Lemma nlInitMessage_arena ctx g msgType msgFlags :
  0 <= msgBufferCap g < 2 ^ 62 ->
  let g' := snd (nlInitMessage ctx g msgType msgFlags) in
  msgBufferLen g' = 16 /\ msgBufferLen g' <= msgBufferCap g'.
Proof.
  intros Hc; cbv zeta.
  unfold nlInitMessage; cbn [snd nlCommitSpace msgBufferLen msgBufferCap
                              set_msgBuffer].
  unfold nlResetSpace.
  set (g0 := {| msgBuffer := msgBuffer g; msgBufferCap := msgBufferCap g;
                msgBufferLen := 0; heap := heap g; reallocs := reallocs g |}).
  rewrite nlReserveSpace_len.
  change (msgBufferLen g0) with 0.
  change (NLMSG_DATA 0 - 0) with 16.
  change (NLMSG_SPACE 0) with 16.
  split; [reflexivity |].
  change (size_t (0 + 16)) with 16.
  pose proof (nlReserveSpace_cap g0 16) as R.
  change (msgBufferLen g0) with 0 in R; change (msgBufferCap g0)
    with (msgBufferCap g) in R.
  cbv zeta in R.
  destruct R as [[Hroom E] | [Hlt E]]; try lia.
  rewrite E; exact Hroom.
Qed.

(** A push below the maximum depth opens an attribute at the tail: it
    records the offset, writes the type and commits the four bytes of
    the header, which is what [nlPopAttr] needs to find. *)
Lemma nlPushAttr_opens ctx g type :
  attrDepth ctx < MAX_ATTR_NEST ->
  0 <= msgBufferLen g <= msgBufferCap g ->
  msgBufferLen g + 4 < 2 ^ 31 ->
  exists ctx' g',
    nlPushAttr ctx g type = (0, ctx', g', []) /\
    attrDepth ctx' = attrDepth ctx + 1 /\
    attrNestPos ctx' (attrDepth ctx' - 1) = msgBufferLen g /\
    load16 (msgBuffer g') (msgBufferLen g + off_rta_type) = u16 type /\
    msgBufferLen g' = msgBufferLen g + 4 /\
    msgBufferLen g' <= msgBufferCap g'.
Proof.
  intros Hd Hinv Hb; unfold nlPushAttr.
  destruct (Z.leb_spec MAX_ATTR_NEST (attrDepth ctx)); [lia |].
  change (RTA_SPACE 0) with 4.
  eexists; eexists; split; [reflexivity |].
  cbn [attrDepth set_attrDepth set_attrNestPos attrNestPos nlCommitSpace
       msgBufferLen msgBufferCap msgBuffer set_msgBuffer].
  unfold nlBufferTail; rewrite !nlReserveSpace_len.
  replace (attrDepth ctx + 1 - 1) with (attrDepth ctx) by lia.
  rewrite Z.eqb_refl.
  change (RTA_DATA (msgBufferLen g) - msgBufferLen g)
    with (msgBufferLen g + 4 - msgBufferLen g).
  replace (msgBufferLen g + (msgBufferLen g + 4 - msgBufferLen g))
    with (msgBufferLen g + 4) by lia.
  rewrite size_t_small by lia.
  repeat split.
  - apply load16_store16.
  - pose proof (nlReserveSpace_cap g 4) as R; cbv zeta in R.
    destruct R as [[Hroom E] | [Hlt E]]; try lia.
    rewrite E; exact Hroom.
Qed.

Lemma nlSendMessage_depth_guard {A : Type} ctx g waitResponse
  (handler : option (nlResponseHandler A)) arg k :
  0 < attrDepth ctx ->
  nlSendMessage ctx g waitResponse handler arg k =
  {| out := Returned (-1); ctx_after := ctx; glob_after := g;
     arg_after := arg; kernel_after := k;
     events :=
       [Log LogError
          "BUG: Attempted to send netlink packet with an rtattr depth of %d!"]
  |}.
Proof.
  intros H; unfold nlSendMessage.
  apply Z.ltb_lt in H; rewrite H; reflexivity.
Qed.

End BuilderFacts.

(** ** The scan of a batch *)

Section Correlation.
Context {A : Type}.
Variable d : mem.
Variable seq : Z.

Lemma scan_stale_step fuel handler nlm res found (arg : A) :
  stale d seq nlm res ->
  scan (S fuel) d seq handler nlm res found arg =
  scan fuel d seq handler (fst (NLMSG_NEXT d nlm res))
       (snd (NLMSG_NEXT d nlm res)) found arg.
Proof.
  intros (Hok & Ht & Hs); cbn [scan]; rewrite Hok.
  unfold NLMSG_NEXT; cbn [fst snd].
  destruct (Z.eqb_spec (nlmsg_type d nlm) NLMSG_DONE); [contradiction |].
  destruct (Z.eqb_spec (nlmsg_seq d nlm) seq); [contradiction |].
  reflexivity.
Qed.

(** Stale records leave no trace: the scan behaves as if it had started
    behind them. *)
Lemma scan_skips n nlm res nlm' res' :
  skips d seq n nlm res nlm' res' ->
  forall fuel handler found (arg : A),
    scan (n + fuel) d seq handler nlm res found arg =
    scan fuel d seq handler nlm' res' found arg.
Proof.
  induction 1 as [| n nlm res nlm' res' Hst _ IH];
    intros fuel handler found arg.
  - reflexivity.
  - cbn [Nat.add]; rewrite scan_stale_step by assumption; apply IH.
Qed.

Lemma NLMSG_OK_bounds nlm res :
  NLMSG_OK d nlm res = true ->
  16 <= nlmsg_len d nlm <= res.
Proof.
  unfold NLMSG_OK, sizeof_nlmsghdr; intros H.
  apply andb_prop in H; destruct H as [H H3].
  apply andb_prop in H; destruct H as [H1 H2].
  apply Z.leb_le in H1, H2, H3; lia.
Qed.

(** Each record takes at least sixteen bytes of the batch. *)
Lemma NLMSG_NEXT_advances nlm res :
  NLMSG_OK d nlm res = true -> res < 2 ^ 32 - 3 ->
  snd (NLMSG_NEXT d nlm res) <= res - 16.
Proof.
  intros Hok Hres; apply NLMSG_OK_bounds in Hok.
  unfold NLMSG_NEXT; cbn [snd].
  rewrite NLMSG_ALIGN_small by lia.
  pose proof (align4_bounds (nlmsg_len d nlm)); lia.
Qed.

Lemma skips_consumes n nlm res nlm' res' :
  skips d seq n nlm res nlm' res' -> res < 2 ^ 32 - 3 ->
  res' + 16 * Z.of_nat n <= res.
Proof.
  induction 1 as [| n nlm res nlm' res' Hst _ IH]; intros Hres.
  - lia.
  - pose proof (NLMSG_NEXT_advances nlm res (proj1 Hst) Hres).
    specialize (IH ltac:(lia)); lia.
Qed.

(** A batch of fewer than 2^32 - 3 bytes is scanned to its end within
    the budget the receive loop gives. *)
Lemma scan_within_budget handler : forall fuel nlm res found (arg : A),
  (0 < fuel)%nat -> res <= Z.of_nat fuel -> res < 2 ^ 32 - 3 ->
  fst (scan fuel d seq handler nlm res found arg) <> ScanFuel.
Proof.
  induction fuel as [| fuel IH]; intros nlm res found arg Hf Hr Hres;
    [lia |].
  cbn [scan].
  destruct (NLMSG_OK d nlm res) eqn:Hok; [| discriminate].
  pose proof (NLMSG_OK_bounds nlm res Hok) as Hb.
  pose proof (NLMSG_NEXT_advances nlm res Hok Hres) as Hadv.
  destruct (NLMSG_NEXT d nlm res) as [nlm' res'] eqn:Hn; cbn [snd] in Hadv.
  assert (IH' : forall found arg,
            fst (scan fuel d seq handler nlm' res' found arg) <> ScanFuel)
    by (intros; apply IH; lia).
  destruct (nlmsg_type d nlm =? NLMSG_DONE); [discriminate |].
  destruct (negb (nlmsg_seq d nlm =? seq)); [apply IH' |].
  destruct ((nlmsg_type d nlm =? NLMSG_ERROR)
            && negb (nlmsgerr_error d nlm =? 0)); [discriminate |].
  destruct handler as [h |]; [| apply IH'].
  destruct (h arg (handler_call d nlm)) as [userError arg'].
  destruct (negb (userError =? 0)); [discriminate |].
  unfold prepend_events; cbn [fst]; apply IH'.
Qed.


End Correlation.

Section Acceptance.
Context {A : Type}.
Variable d : mem.
Variable seq : Z.
Variable handler : option (nlResponseHandler A).

(** What the loop does with a record that answers the awaited request. *)
Lemma scan_matching_step fuel nlm res found (arg : A) :
  matching d seq nlm res ->
  scan (S fuel) d seq handler nlm res found arg =
  if reports_error d nlm then
    (ScanReturn (int32 (- nlmsgerr_error d nlm)) arg,
     [Log LogError "Netlink-reported error: %s"])
  else
    match handler with
    | Some h =>
        if negb (fst (h arg (handler_call d nlm)) =? 0)
        then (ScanReturn (fst (h arg (handler_call d nlm)))
                         (snd (h arg (handler_call d nlm))),
              [Handler (handler_call d nlm)])
        else prepend_events [Handler (handler_call d nlm)]
               (scan fuel d seq handler (fst (NLMSG_NEXT d nlm res))
                     (snd (NLMSG_NEXT d nlm res)) true
                     (snd (h arg (handler_call d nlm))))
    | None =>
        scan fuel d seq handler (fst (NLMSG_NEXT d nlm res))
             (snd (NLMSG_NEXT d nlm res)) true arg
    end.
Proof.
  intros (Hok & Ht & Hs); cbn [scan]; rewrite Hok.
  unfold NLMSG_NEXT, reports_error; cbn [fst snd].
  destruct (Z.eqb_spec (nlmsg_type d nlm) NLMSG_DONE); [contradiction |].
  rewrite Hs, Z.eqb_refl; cbn [negb].
  destruct ((nlmsg_type d nlm =? NLMSG_ERROR)
            && negb (nlmsgerr_error d nlm =? 0)); [reflexivity |].
  destruct handler as [h |]; [| reflexivity].
  destruct (h arg (handler_call d nlm)) as [userError arg']; reflexivity.
Qed.



End Acceptance.

(** The receive loop on a datagram that arrives in good order: the
    outcome is decided by the scan of the batch. *)
Lemma recv_loop_batch {A : Type} seq handler ctx g (arg : A) sq r q ev :
  0 < ret (rr_ret r) ->
  rr_namelen r = sizeof_sockaddr_nl ->
  let res := ret (rr_ret r) in
  let ctx' := fst (recvmsg ctx g r) in
  let g' := snd (recvmsg ctx g r) in
  let ev' := ev ++ [RecvMsg (sock ctx)] in
  let stop o a e :=
    {| out := o; ctx_after := ctx'; glob_after := g'; arg_after := a;
       kernel_after := {| sendq := sq; recvq := q |}; events := e |} in
  recv_loop seq handler ctx g arg sq (r :: q) ev =
  match scan (Z.to_nat res) (msgBuffer g') seq handler 0 res false arg with
  | (ScanReturn rv arg', sev) => stop (Returned rv) arg' (ev' ++ sev)
  | (ScanEnd true arg', sev) =>
      stop (Returned 0) arg'
           (ev' ++ sev
                ++ [Log LogDebug "Kernel acknowledged netlink message %d"])
  | (ScanEnd false arg', sev) =>
      recv_loop seq handler ctx' g' arg' sq q (ev' ++ sev)
  | (ScanFuel, sev) => stop OutOfFuel arg (ev' ++ sev)
  end.
Proof.
  intros Hres Hname; cbv zeta.
  cbn [recv_loop recvmsg fst snd set_msg_namelen msg_namelen sock].
  destruct (Z.ltb_spec (ret (rr_ret r)) 0); [lia |].
  destruct (Z.eqb_spec (ret (rr_ret r)) 0); [lia |].
  rewrite Hname; cbn [Z.eqb sizeof_sockaddr_nl negb Pos.eqb].
  reflexivity.
Qed.

(** The budget of the scan covers a prefix of stale records and the
    record behind it. *)
Lemma skips_budget d seq n res o res' :
  skips d seq n 0 res o res' -> res < 2 ^ 32 - 3 -> 16 <= res' ->
  exists fuel, Z.to_nat res = (n + S fuel)%nat /\
               res' <= Z.of_nat (S fuel).
Proof.
  intros Hsk Hres Ho.
  pose proof (skips_consumes d seq n 0 res o res' Hsk Hres) as Hc.
  exists (Z.to_nat res - n - 1)%nat; lia.
Qed.

Lemma skips_none_eq d seq nlm res nlm' res' :
  nlm = nlm' -> res = res' -> skips d seq 0 nlm res nlm' res'.
Proof. intros -> ->; constructor. Qed.

(** The scan logs errors and calls the handler, nothing else. *)
Lemma scan_logs_no_warning {A : Type} d seq handler :
  forall fuel nlm res found (arg : A),
    filter is_Warning (snd (scan fuel d seq handler nlm res found arg)) = [].
Proof.
  induction fuel as [| fuel IH]; intros nlm res found arg; cbn [scan];
    [reflexivity |].
  destruct (NLMSG_OK d nlm res); [| reflexivity].
  destruct (NLMSG_NEXT d nlm res) as [nlm' res'].
  destruct (nlmsg_type d nlm =? NLMSG_DONE); [reflexivity |].
  destruct (negb (nlmsg_seq d nlm =? seq)); [apply IH |].
  destruct ((nlmsg_type d nlm =? NLMSG_ERROR)
            && negb (nlmsgerr_error d nlm =? 0)); [reflexivity |].
  destruct handler as [h |]; [| apply IH].
  destruct (h arg (handler_call d nlm)) as [userError arg'].
  destruct (negb (userError =? 0)); [reflexivity |].
  unfold prepend_events; cbn [snd app filter is_Warning]; apply IH.
Qed.

(** ** The sequence counter *)

Section Sequence.
Context {B : Build}.

Lemma nlInitMessage_counter ctx g msgType msgFlags :
  nextSeq (fst (nlInitMessage ctx g msgType msgFlags)) = u32 (nextSeq ctx + 1).
Proof. reflexivity. Qed.

Lemma nlInitMessage_header_seq ctx g msgType msgFlags :
  header_seq (nlInitMessage ctx g msgType msgFlags) = u32 (nextSeq ctx).
Proof.
  unfold header_seq, nlInitMessage, nlmsg_seq.
  cbn [snd nlCommitSpace set_msgBuffer msgBuffer].
  unfold off_nlmsg_seq, off_nlmsg_pid.
  rewrite load32_store32_other by lia.
  apply load32_store32.
Qed.

Lemma recv_loop_nextSeq {A : Type} seq handler sq (q : list recv_result) :
  forall ctx g (arg : A) ev,
    nextSeq (ctx_after (recv_loop seq handler ctx g arg sq q ev)) = nextSeq ctx.
Proof.
  induction q as [| r q IH]; intros ctx g arg ev; cbn [recv_loop].
  - reflexivity.
  - cbn [recvmsg].
    destruct (ret (rr_ret r) <? 0).
    + destruct (ret (rr_ret r) =? ENOBUFS); [rewrite IH; reflexivity |].
      destruct ((ret (rr_ret r) =? EAGAIN)
                || (errno_after 0 (rr_ret r) =? EINTR));
        [rewrite IH; reflexivity | reflexivity].
    + destruct (ret (rr_ret r) =? 0); [reflexivity |].
      destruct (negb (msg_namelen (set_msg_namelen ctx (rr_namelen r))
                      =? sizeof_sockaddr_nl)); [reflexivity |].
      destruct (scan _ _ _ _ _ _ _ _) as [[rv a | [|] a |] sev];
        try reflexivity.
      rewrite IH; reflexivity.
Qed.

Lemma nlSendMessage_nextSeq {A : Type} ctx g waitResponse
  (handler : option (nlResponseHandler A)) arg k :
  nextSeq (ctx_after (nlSendMessage ctx g waitResponse handler arg k))
  = nextSeq ctx.
Proof.
  unfold nlSendMessage.
  destruct (0 <? attrDepth ctx); [reflexivity |].
  destruct (send_loop _ _ _) as [[x sq] ev].
  destruct x; try reflexivity.
  destruct (negb waitResponse); [reflexivity |].
  rewrite recv_loop_nextSeq; reflexivity.
Qed.

(** Only [nlInitMessage] touches the counter. *)
Lemma run_op_counter s op :
  nextSeq (fst (run_op s op)) =
  if is_InitMessage op then u32 (nextSeq (fst s) + 1) else nextSeq (fst s).
Proof.
  destruct s as [ctx g]; destruct op; cbn [run_op is_InitMessage fst].
  - apply nlInitMessage_counter.
  - reflexivity.
  - unfold nlPushAttr.
    destruct (MAX_ATTR_NEST <=? attrDepth ctx); reflexivity.
  - unfold nlPopAttr.
    destruct (attrDepth ctx =? 0); reflexivity.
  - apply nlSendMessage_nextSeq.
Qed.

Lemma u32_succ c : u32 (u32 c + 1) = u32 (c + 1).
Proof.
  unfold u32.
  rewrite <- (Z.add_mod_idemp_l c 1) by lia; reflexivity.
Qed.

(** The [i]-th message of a session whose counter stands at [c] carries
    [c + i] modulo 2^32. *)
Lemma session_seqs_nth ops : forall s c i,
  nextSeq (fst s) = u32 c ->
  (i < length (session_seqs s ops))%nat ->
  nth i (session_seqs s ops) 0 = u32 (c + Z.of_nat i).
Proof.
  induction ops as [| op ops IH]; intros s c i Hc Hi; cbn [session_seqs] in *.
  - cbn in Hi; lia.
  - pose proof (run_op_counter s op) as Hn.
    destruct op; cbn [is_InitMessage] in Hn;
      try (apply IH; [rewrite Hn; exact Hc | exact Hi]).
    destruct i as [| i]; cbn [nth].
    + destruct s as [ctx g]; cbn [run_op fst] in *.
      rewrite nlInitMessage_header_seq, Hc, Z.add_0_r.
      unfold u32; apply Z.mod_mod; lia.
    + rewrite (IH _ (c + 1)).
      * f_equal; lia.
      * rewrite Hn, Hc; apply u32_succ.
      * cbn [length] in Hi; lia.
Qed.

End Sequence.

Lemma many_messages_succ n :
  many_messages (N.succ n) =
  nlInitMessage (B := release_build) (fst (many_messages n))
                (snd (many_messages n)) 18 0.
Proof. unfold many_messages; rewrite N.iter_succ; reflexivity. Qed.

Lemma many_messages_counter n :
  nextSeq (fst (many_messages n)) = u32 (Z.of_N n).
Proof.
  induction n as [| n IH] using N.peano_ind.
  - reflexivity.
  - rewrite many_messages_succ, nlInitMessage_counter, IH, u32_succ.
    f_equal; lia.
Qed.

Lemma many_messages_header_seq n :
  header_seq (many_messages (N.succ n)) = u32 (Z.of_N n).
Proof.
  rewrite many_messages_succ, nlInitMessage_header_seq, many_messages_counter.
  unfold u32; apply Z.mod_mod; lia.
Qed.

(** ** Session construction and failed reads *)

Lemma nlNewContextInPlace_success os ctx :
  setup_succeeds os ->
  exists ev,
    nlNewContextInPlace os ctx =
    (0, set_nextSeq (set_nl_pid (set_nl_pid (set_sock ctx (ret (os_socket os)))
                                            0) (os_assigned_pid os)) 0, ev).
Proof.
  intros (Hs & Hb & Hg); unfold nlNewContextInPlace.
  cbn [sock set_sock set_nl_pid].
  destruct (Z.eqb_spec (ret (os_socket os)) (-1)) as [E | _]; [contradiction |].
  rewrite Hb, Hg; cbn [Z.eqb negb].
  eexists; reflexivity.
Qed.

(** A read that fails returns a negative value, so neither comparison of
    [res] with a positive error code on lines 227 and 231 can hold. *)
Lemma negative_res_is_no_errno res :
  res < 0 -> (res =? ENOBUFS) = false /\ (res =? EAGAIN) = false.
Proof.
  intros H; unfold ENOBUFS, EAGAIN.
  split; apply Z.eqb_neq; lia.
Qed.


(** ** Reaching a record, and the start of the wait *)

Section ReachFacts.
Context {A : Type}.
Variable d : mem.
Variable seq : Z.
Variable handler : option (nlResponseHandler A).





End ReachFacts.

Section AwaitFacts.
Context {B : Build}.


End AwaitFacts.

(** * Part IV: the properties of the specification *)

(** Closes a side condition on concrete data by evaluation. *)
Ltac by_evaluation :=
  vm_compute;
  repeat match goal with
         | |- _ /\ _ => split
         | |- _ -> False => let X := fresh in intro X; discriminate X
         | |- ~ _ => let X := fresh in intro X; discriminate X
         | |- _ = _ => reflexivity
         | |- True => exact I
         | |- (_ <= _)%nat => lia
         end.

(** ** Session construction *)

(** C1 (the code departs from the specification).  When socket creation,
    binding and address retrieval all succeed, [nlNewContext] returns
    the null pointer: line 41 is [return 0] where the context was meant.
    The object that was set up stays allocated and [*err] is not
    written, so the caller cannot tell the success from a failure. *)
Theorem nlNewContext_success_returns_NULL os p uninit err :
  setup_succeeds os ->
  let r := nlNewContext os p uninit err in
  returned r = NULL /\
  err_out r = err /\
  exists ctx, allocated r = Some ctx /\ nextSeq ctx = 0 /\
              sock ctx = ret (os_socket os) /\ nl_pid ctx = os_assigned_pid os.
Proof.
  intros H; cbv zeta.
  destruct (nlNewContextInPlace_success os uninit H) as [ev E].
  unfold nlNewContext; rewrite E; cbn.
  repeat split; eexists; repeat split.
Qed.

Lemma nlNewContext_success_returns_NULL_witness :
  returned (nlNewContext cooperative_os 4096 session0 (Some 0)) = NULL /\
  err_out (nlNewContext cooperative_os 4096 session0 (Some 0)) = Some 0.
Proof.
  destruct (nlNewContext_success_returns_NULL cooperative_os 4096 session0
              (Some 0)) as (R & E & _).
  - by_evaluation.
  - split; [exact R | exact E].
Defined.

(** Whatever the system answers, the caller gets the null pointer. *)
Lemma nlNewContext_always_NULL os p uninit err :
  returned (nlNewContext os p uninit err) = NULL.
Proof.
  unfold nlNewContext.
  destruct (nlNewContextInPlace os uninit) as [[res ctx] ev].
  destruct (res =? 0); reflexivity.
Qed.

(** The failure half of the contract holds: when [socket] fails with a
    code [e] other than 0, the caller gets the null pointer, [e] through
    [err], and the object is freed. *)
Lemma nlNewContext_socket_failure os p uninit e0 e :
  os_socket os = failing e -> e <> 0 ->
  let r := nlNewContext os p uninit (Some e0) in
  returned r = NULL /\ err_out r = Some e /\ allocated r = None.
Proof.
  intros Hs He; cbv zeta.
  unfold nlNewContext, nlNewContextInPlace.
  rewrite Hs; cbn.
  destruct (Z.eqb_spec e 0); [contradiction |].
  repeat split.
Qed.

(** ** Failed reads in the receive loop *)

(** C2 (the code departs from the specification).  A read that fails with
    [ENOBUFS] is not retried: line 227 tests [res], which is -1, where
    [errno] was meant, so no warning is logged, the loop is left at
    line 233 and the caller receives [ENOBUFS]; the answers the kernel
    still holds are never read. *)
Theorem recv_ENOBUFS_is_returned {A : Type} seq handler ctx g (arg : A)
  sq q ev :
  let r := recv_loop seq handler ctx g arg sq (recv_failing ENOBUFS :: q) ev in
  out r = Returned ENOBUFS /\
  recvq (kernel_after r) = q /\
  events r = ev ++ [RecvMsg (sock ctx)]
                ++ [Log LogError "Netlink socket read error: %s"] /\
  filter is_Warning (events r) = filter is_Warning ev.
Proof.
  cbv zeta; cbn.
  repeat split.
  - rewrite <- app_assoc; reflexivity.
  - rewrite !filter_app; cbn; rewrite !app_nil_r; reflexivity.
Qed.

(** The warning of line 228 is dead code: no run of the receive loop,
    whatever the kernel answers, logs a warning. *)
Lemma recv_loop_logs_no_warning {A : Type} seq handler sq
  (q : list recv_result) :
  forall ctx g (arg : A) ev,
    filter is_Warning (events (recv_loop seq handler ctx g arg sq q ev))
    = filter is_Warning ev.
Proof.
  induction q as [| r q IH]; intros ctx g arg ev; cbn [recv_loop].
  - cbn [events]; rewrite filter_app; cbn; apply app_nil_r.
  - cbn [recvmsg].
    assert (Hrecv : forall e, filter is_Warning (ev ++ [RecvMsg e])
                              = filter is_Warning ev)
      by (intros; rewrite filter_app; cbn; apply app_nil_r).
    destruct (Z.ltb_spec (ret (rr_ret r)) 0) as [Hneg | Hpos].
    + destruct (negative_res_is_no_errno _ Hneg) as [E1 E2].
      rewrite E1, E2; cbn [orb].
      destruct (errno_after 0 (rr_ret r) =? EINTR).
      * rewrite IH; apply Hrecv.
      * cbn [events]; rewrite filter_app, Hrecv; cbn; apply app_nil_r.
    + destruct (ret (rr_ret r) =? 0);
        [cbn [events]; rewrite filter_app, Hrecv; cbn; apply app_nil_r |].
      destruct (negb (msg_namelen (set_msg_namelen ctx (rr_namelen r))
                      =? sizeof_sockaddr_nl));
        [cbn [events]; rewrite filter_app, Hrecv; cbn; apply app_nil_r |].
      pose proof (scan_logs_no_warning
                    (msgBuffer (set_msgBuffer g
                       (memcpy (msgBuffer g) 0
                          (firstn (Z.to_nat (iov_len ctx)) (rr_data r)))))
                    seq handler (Z.to_nat (ret (rr_ret r))) 0
                    (ret (rr_ret r)) false arg) as Hs.
      destruct (scan _ _ _ _ _ _ _ _) as [[rv a | [|] a |] sev];
        cbn [snd] in Hs; cbn [events];
        rewrite ?IH, ?filter_app, ?Hs, ?Hrecv, ?app_nil_r; cbn;
        rewrite ?app_nil_r; reflexivity.
Qed.

(** An interrupted read is retried: the loop goes on with the next
    answer of the kernel, and nothing is reported for the failed one. *)
Lemma recv_EINTR_is_retried {A : Type} seq handler ctx g (arg : A) sq q ev :
  recv_loop seq handler ctx g arg sq (recv_failing EINTR :: q) ev =
  recv_loop seq handler (fst (recvmsg ctx g (recv_failing EINTR)))
            (snd (recvmsg ctx g (recv_failing EINTR))) arg sq q
            (ev ++ [RecvMsg (sock ctx)]).
Proof. reflexivity. Qed.

(** C3 (the code departs from the specification).  Of the two transient
    conditions only the interruption is retried.  A read that fails with
    [EAGAIN] leaves the loop: line 231 compares [res], which is -1, with
    [EAGAIN], where the transmission loop on line 204 compares [errno];
    the caller receives [EAGAIN]. *)
Theorem recv_EAGAIN_is_returned {A : Type} seq handler ctx g (arg : A)
  sq q ev :
  let r := recv_loop seq handler ctx g arg sq (recv_failing EAGAIN :: q) ev in
  out r = Returned EAGAIN /\
  recvq (kernel_after r) = q /\
  events r = ev ++ [RecvMsg (sock ctx)]
                ++ [Log LogError "Netlink socket read error: %s"].
Proof.
  cbv zeta; cbn.
  repeat split.
  rewrite <- app_assoc; reflexivity.
Qed.

(** The same two failures seen by a caller of [nlSendMessage] that waits
    for the acknowledgment of its first message. *)
Example nlSendMessage_read_failures :
  let '(ctx, g) :=
    nlInitMessage (B := release_build) session0 fresh_globals 24 5 in
  let ack := received (nlmsgerr_bytes 0 1000 0 []) in
  let run e :=
    out (nlSendMessage (B := release_build) ctx g true
           (@None (nlResponseHandler unit)) tt
           {| sendq := [succeeding 16]; recvq := [recv_failing e; ack] |}) in
  run EINTR = Returned 0 /\
  run ENOBUFS = Returned ENOBUFS /\
  run EAGAIN = Returned EAGAIN.
Proof. vm_compute; repeat split. Qed.

(** ** Closing an attribute *)

Section PopAttr.
Context {B : Build}.

(** C4, as the code has it.  [nlPopAttr] on an open attribute whose
    header, at offset [pos], lies within the committed region (a push
    matched by this pop), in a message of less than 2^31 bytes: the call
    succeeds and takes one level off the stack; the length field reads
    header size plus payload size, modulo 2^16, the width of the field;
    the committed length goes up to the next multiple of four counted
    from the start of the attribute, by at most three bytes.  No byte
    other than the two of the length field is written: the padding keeps
    what the buffer held below the old capacity, and beyond it holds
    what the allocator handed out (0xCE in a [DEBUG] build). *)
Theorem nlPopAttr_closes_attribute ctx g :
  0 < attrDepth ctx ->
  let pos := attrNestPos ctx (attrDepth ctx - 1) in
  let payload := msgBufferLen g - (pos + 4) in
  0 <= pos ->
  pos + 4 <= msgBufferLen g <= msgBufferCap g ->
  msgBufferLen g < 2 ^ 31 ->
  exists ctx' g',
    nlPopAttr ctx g = (0, ctx', g', []) /\
    attrDepth ctx' = attrDepth ctx - 1 /\
    load16 (msgBuffer g') pos = (4 + payload) mod 2 ^ 16 /\
    msgBufferLen g' = pos + align4 (4 + payload) /\
    msgBufferLen g <= msgBufferLen g' < msgBufferLen g + 4 /\
    (forall i, i <> pos -> i <> pos + 1 -> i < msgBufferCap g ->
       msgBuffer g' i = msgBuffer g i) /\
    (forall i, msgBufferCap g <= i < msgBufferLen g' ->
       msgBuffer g' i = if DEBUG then 0xCE else heap g (reallocs g) i).
Proof.
  intros Hd pos payload Hpos Hlen Hsmall.
  set (len := msgBufferLen g) in *.
  set (cap := msgBufferCap g) in *.
  pose proof (align4_bounds (4 + payload)) as Ha.
  assert (Hpay : 0 <= payload < 2 ^ 31) by (subst payload; lia).
  unfold nlPopAttr.
  destruct (Z.eqb_spec (attrDepth ctx) 0) as [E | _]; [lia |].
  cbn [attrDepth attrNestPos set_attrDepth]; fold pos.
  unfold nlBufferTail; cbn [set_msgBuffer msgBufferLen]; fold len.
  assert (Edata : RTA_DATA pos = pos + 4) by reflexivity.
  rewrite Edata.
  assert (Epay : size_t (len - (pos + 4)) = payload)
    by (apply size_t_small; subst payload; lia).
  rewrite Epay.
  rewrite RTA_LENGTH_small, RTA_SPACE_small by lia.
  assert (Ehdr : size_t (len - pos) = 4 + payload)
    by (rewrite size_t_small; subst payload; lia).
  rewrite Ehdr.
  assert (Edef : size_t (align4 (4 + payload) - (4 + payload))
                 = align4 (4 + payload) - (4 + payload))
    by (apply size_t_small; lia).
  rewrite Edef.
  unfold off_rta_len; rewrite Z.add_0_r.
  set (stored := set_msgBuffer g
                   (store16 (msgBuffer g) pos (u16 (4 + payload)))).
  change {| msgBuffer := store16 (msgBuffer g) pos (u16 (4 + payload));
            msgBufferCap := msgBufferCap g; msgBufferLen := msgBufferLen g;
            heap := heap g; reallocs := reallocs g |} with stored.
  assert (Hload : load16 (msgBuffer stored) pos = (4 + payload) mod 2 ^ 16).
  { subst stored; cbn [set_msgBuffer msgBuffer].
    rewrite load16_store16; unfold u16; apply Z.mod_mod; lia. }
  destruct (Z.ltb_spec 0 (align4 (4 + payload) - (4 + payload)))
    as [Hpad | Hnopad].
  - set (deficit := align4 (4 + payload) - (4 + payload)) in *.
    assert (Hkeep : forall i, i < cap ->
              msgBuffer (nlReserveSpace stored deficit) i = msgBuffer stored i).
    { intros i Hi; apply nlReserveSpace_keeps;
        subst stored; cbn [set_msgBuffer msgBufferLen msgBufferCap];
        fold len; fold cap; lia. }
    eexists; eexists; split; [reflexivity |].
    cbn [nlCommitSpace msgBufferLen msgBuffer set_attrDepth attrDepth].
    rewrite nlReserveSpace_len.
    subst stored; cbn [set_msgBuffer msgBufferLen msgBuffer] in *; fold len.
    rewrite size_t_small by lia.
    split; [reflexivity |].
    split; [unfold load16, byte_at in *; rewrite !Hkeep by lia; exact Hload |].
    split; [lia |].
    split; [lia |].
    split.
    + intros i H1 H2 Hi.
      rewrite Hkeep by assumption; apply store16_other; assumption.
    + intros i Hi.
      rewrite nlReserveSpace_fresh;
        cbn [set_msgBuffer msgBufferLen msgBufferCap heap reallocs];
        fold len; fold cap; first [reflexivity | lia].
  - eexists; eexists; split; [reflexivity |].
    cbn [set_attrDepth attrDepth].
    subst stored; cbn [set_msgBuffer msgBufferLen msgBuffer] in *; fold len.
    split; [reflexivity |].
    split; [exact Hload |].
    split; [lia |].
    split; [lia |].
    split.
    + intros i H1 H2 Hi; apply store16_other; assumption.
    + intros i Hi; fold cap in Hi; lia.
Qed.

End PopAttr.

Lemma nlPopAttr_closes_attribute_witness :
  exists ctx' g',
    nlPopAttr (B := release_build) (fst open_attribute) (snd open_attribute)
    = (0, ctx', g', []) /\
    load16 (msgBuffer g') 16 = 5 /\
    msgBufferLen g' = 24.
Proof.
  destruct (nlPopAttr_closes_attribute (B := release_build)
              (fst open_attribute) (snd open_attribute))
    as (ctx' & g' & E & _ & L & N & _).
  - by_evaluation.
  - by_evaluation.
  - by_evaluation.
  - by_evaluation.
  - exists ctx', g'.
    split; [exact E | split; [exact L | exact N]].
Defined.

(** C4 as stated fails on the second message of a session.  The first
    message carried eight bytes 0xFF behind its header and was sent; the
    second one has an attribute with a payload of one byte at offset 16.
    Closing it commits offsets 21 to 23 as padding, and they still hold
    the bytes 0xFF of the first message. *)
Lemma padding_is_not_zeroed :
  attrDepth (fst before_pop) = 1 /\
  msgBufferLen (snd before_pop) = 21 /\
  msgBufferLen (snd after_pop) = 24 /\
  load16 (msgBuffer (snd after_pop)) 16 = 5 /\
  read_bytes (msgBuffer (snd after_pop)) 21 3 = [0xFF; 0xFF; 0xFF].
Proof. vm_compute; repeat split. Qed.

(** The same in a [DEBUG] build, on the very first message: the padding
    holds the 0xCE fill of [nlReserveSpace]. *)
Example padding_in_debug_build :
  let s := fold_left (run_op (B := debug_build))
             [InitMessage 18 0; PushAttr 1; BufferAppend [7]; PopAttr]
             (session0, fresh_globals) in
  msgBufferLen (snd s) = 24 /\
  read_bytes (msgBuffer (snd s)) 21 3 = [0xCE; 0xCE; 0xCE].
Proof. vm_compute; repeat split. Qed.

(** ** Misuse of the builder *)

Section Misuse.
Context {B : Build}.

(** Transmission needs an empty nesting stack: a run that writes to the
    socket started with no attribute open. *)
Lemma nlSendMessage_writes_only_when_closed {A : Type} ctx g waitResponse
  (handler : option (nlResponseHandler A)) arg k :
  filter is_SendMsg (events (nlSendMessage ctx g waitResponse handler arg k))
    <> [] ->
  attrDepth ctx <= 0.
Proof.
  intros H.
  destruct (Z_lt_le_dec 0 (attrDepth ctx)) as [Hd | Hd]; [| assumption].
  exfalso; apply H.
  rewrite nlSendMessage_depth_guard by assumption; reflexivity.
Qed.

(** C5.  A call of [nlSendMessage] with an attribute still open returns
    -1 and does nothing else: it consumes no answer of the kernel, its
    only event is the error line (so no socket write), and the context
    and the buffer are as before. *)
Theorem nlSendMessage_open_attribute {A : Type} ctx g waitResponse
  (handler : option (nlResponseHandler A)) arg k :
  0 < attrDepth ctx ->
  let r := nlSendMessage ctx g waitResponse handler arg k in
  out r = Returned (-1) /\
  filter is_SendMsg (events r) = [] /\
  kernel_after r = k /\
  ctx_after r = ctx /\ glob_after r = g /\ arg_after r = arg.
Proof.
  intros H; cbv zeta.
  rewrite nlSendMessage_depth_guard by assumption; cbn.
  repeat split.
Qed.

(** C6.  The two misuse failures of the builder change nothing: a push
    at the maximum depth and a pop on an empty stack return -1 with the
    context and the arena (capacity, committed length, contents) exactly
    as they were; the error line is all that happens. *)
Theorem builder_misuse_has_no_effect cpush cpop g type :
  MAX_ATTR_NEST <= attrDepth cpush ->
  attrDepth cpop = 0 ->
  nlPushAttr cpush g type =
    (-1, cpush, g,
     [Log LogError "BUG: rtnetattr exceeded allowed nesting depth!"]) /\
  nlPopAttr cpop g =
    (-1, cpop, g,
     [Log LogError "BUG: rtnetattr was finished when the stack was empty!"]).
Proof.
  intros Hpush Hpop; split.
  - unfold nlPushAttr.
    apply Z.leb_le in Hpush; rewrite Hpush; reflexivity.
  - unfold nlPopAttr; rewrite Hpop; reflexivity.
Qed.

End Misuse.

Lemma nlSendMessage_open_attribute_witness :
  out (nlSendMessage (B := release_build) session_full fresh_globals true
         (Some recording_handler) []
         {| sendq := [succeeding 16]; recvq := [] |}) = Returned (-1).
Proof.
  apply (nlSendMessage_open_attribute (B := release_build) session_full
           fresh_globals true (Some recording_handler) []
           {| sendq := [succeeding 16]; recvq := [] |}).
  by_evaluation.
Defined.

Lemma builder_misuse_has_no_effect_witness :
  fst (fst (fst (nlPushAttr (B := release_build) session_full fresh_globals 1)))
    = -1 /\
  fst (fst (fst (nlPopAttr (B := release_build) session0 fresh_globals))) = -1.
Proof.
  destruct (builder_misuse_has_no_effect (B := release_build) session_full
              session0 fresh_globals 1) as [Hpush Hpop].
  - by_evaluation.
  - by_evaluation.
  - rewrite Hpush, Hpop; split; reflexivity.
Defined.

(** ** Correlation of responses *)




(** ** Errors reported by the kernel *)



(** The same answer seen by the caller of [nlSendMessage]: the call
    returns 13 and the handler is not called. *)
Example nlSendMessage_permission_denied :
  out (nlSendMessage (B := release_build) (fst second_message)
         (snd second_message) true (Some recording_handler) []
         {| sendq := [succeeding 16]; recvq := [permission_denied] |})
  = Returned 13 /\
  arg_after (nlSendMessage (B := release_build) (fst second_message)
         (snd second_message) true (Some recording_handler) []
         {| sendq := [succeeding 16]; recvq := [permission_denied] |})
  = [].
Proof. vm_compute; split; reflexivity. Qed.


(** ** Sequence numbers *)

(** C9, as the code has it.  In a session whose counter starts at 0, the
    message number [i] (counted from 0 in the order of the calls of
    [nlInitMessage], whatever else the session does in between) carries
    the sequence number [i] modulo 2^32, the width of the counter and of
    the header field.  So among the first 2^32 messages the numbers
    strictly increase, and none is used twice. *)
Theorem session_sequence_numbers {B : Build} s ops i j :
  nextSeq (fst s) = 0 ->
  (i < j < length (session_seqs s ops))%nat ->
  nth i (session_seqs s ops) 0 = Z.of_nat i mod 2 ^ 32 /\
  nth j (session_seqs s ops) 0 = Z.of_nat j mod 2 ^ 32 /\
  (Z.of_nat j < 2 ^ 32 ->
   nth i (session_seqs s ops) 0 < nth j (session_seqs s ops) 0).
Proof.
  intros H0 Hij.
  assert (Hc : nextSeq (fst s) = u32 0) by (rewrite H0; reflexivity).
  rewrite (session_seqs_nth ops s 0 i Hc) by lia.
  rewrite (session_seqs_nth ops s 0 j Hc) by lia.
  unfold u32; cbn [Z.add].
  repeat split.
  intros Hj; rewrite !Z.mod_small by lia; lia.
Qed.

Lemma session_sequence_numbers_witness :
  nth 0 (session_seqs (B := release_build) (session0, fresh_globals)
           three_messages) 0
  < nth 2 (session_seqs (B := release_build) (session0, fresh_globals)
           three_messages) 0.
Proof.
  destruct (session_sequence_numbers (B := release_build)
              (session0, fresh_globals) three_messages 0 2) as (_ & _ & H).
  - by_evaluation.
  - by_evaluation.
  - apply H; by_evaluation.
Defined.

(** C9 as stated fails at the wrap of the counter: after message number
    2^32 - 1, which carries 4294967295, the next message carries 0, the
    number of the first message of the session. *)
Lemma sequence_number_reused_after_wrap :
  header_seq (many_messages 1) = 0 /\
  header_seq (many_messages 4294967296) = 4294967295 /\
  header_seq (many_messages 4294967297) = 0.
Proof.
  change 1%N with (N.succ 0).
  change 4294967296%N with (N.succ 4294967295).
  change 4294967297%N with (N.succ 4294967296).
  rewrite !many_messages_header_seq.
  repeat split.
Qed.

(** ** Growth of the arena *)

(** C10, as the code has it: for payload appended with
    [nlBufferAppend].  Take an arena [g1] holding a message under
    construction, and an arena [g2] holding the same committed bytes
    with enough capacity reserved at once for everything that follows.
    Appending the same payloads to both gives the same committed bytes,
    whatever memory the allocator hands out on the way; [g2] is never
    reallocated; at every step of the run from [g1] the committed length
    is within the capacity, and a step that changes the capacity sets it
    to at least twice the required size; and when [g1] lacks the room,
    its capacity does grow. *)
Theorem growth_preserves_content {B : Build} g1 g2 ps :
  0 <= msgBufferLen g1 <= msgBufferCap g1 ->
  msgBufferLen g2 = msgBufferLen g1 ->
  committed g2 = committed g1 ->
  msgBufferLen g2 + total_len ps <= msgBufferCap g2 ->
  msgBufferLen g1 + total_len ps < 2 ^ 62 ->
  committed (appends g1 ps) = committed (appends g2 ps) /\
  reallocs (appends g2 ps) = reallocs g2 /\
  growth_ok g1 ps /\
  (msgBufferCap g1 < msgBufferLen g1 + total_len ps ->
   msgBufferCap g1 < msgBufferCap (appends g1 ps)).
Proof.
  intros H1 Hl Hc Hroom Hb.
  pose proof (total_len_nonneg ps) as Ht.
  assert (H2 : 0 <= msgBufferLen g2 <= msgBufferCap g2) by lia.
  repeat split.
  - apply committed_same, appends_same; try assumption.
    apply same_committed_of_eq; [lia | lia | symmetry; assumption].
  - apply appends_no_growth; lia.
  - apply appends_growth_ok; assumption.
  - intros Hsmall.
    destruct (appends_len ps g1 H1 Hb) as [L C]; lia.
Qed.

Lemma growth_preserves_content_witness :
  committed (appends (B := release_build) growing_arena two_payloads) =
  committed (appends (B := release_build) roomy_arena two_payloads) /\
  msgBufferCap growing_arena
  < msgBufferCap (appends (B := release_build) growing_arena two_payloads).
Proof.
  destruct (growth_preserves_content (B := release_build) growing_arena
              roomy_arena two_payloads) as (E & _ & _ & G).
  - by_evaluation.
  - by_evaluation.
  - by_evaluation.
  - by_evaluation.
  - by_evaluation.
  - split; [exact E | apply G; by_evaluation].
Defined.

(** C10 as stated, for every message construction, fails once the
    construction closes an attribute: [nlPopAttr] commits the padding
    without writing it, so the padding holds what the allocator left
    there.  The same five calls build a message of 44 bytes on the arena
    of a fresh process, which grows twice on the way, and on an arena
    reserved beforehand, which does not grow.  The first 41 bytes agree;
    the three bytes of padding come from the second block in one run
    and from the first in the other. *)
Lemma padding_differs_after_growth :
  reallocs (snd reserved_construction) = reallocs reserved_arena /\
  msgBufferCap (snd reserved_construction) = 8192 /\
  reallocs (snd grown_construction) = 2%nat /\
  msgBufferCap (snd grown_construction) = 72 /\
  msgBufferLen (snd grown_construction) = 44 /\
  msgBufferLen (snd reserved_construction) = 44 /\
  firstn 41 (committed (snd grown_construction))
  = firstn 41 (committed (snd reserved_construction)) /\
  skipn 41 (committed (snd grown_construction)) = [2; 2; 2] /\
  skipn 41 (committed (snd reserved_construction)) = [1; 1; 1] /\
  committed (snd grown_construction)
  <> committed (snd reserved_construction).
Proof.
  vm_compute; repeat split; intros H; discriminate H.
Qed.

(** * Part V: further properties of the program *)

(** ** The arena and the builder *)

Lemma map_seq_from {X : Type} (f : nat -> X) m : forall a,
  map f (seq a m) = map (fun k => f (a + k)%nat) (seq 0 m).
Proof.
  induction m as [| m IH]; intros a; cbn [seq map].
  - reflexivity.
  - rewrite Nat.add_0_r; f_equal.
    rewrite IH, <- seq_shift, map_map.
    apply map_ext; intros k; f_equal; lia.
Qed.

Lemma read_bytes_app d off n m :
  read_bytes d off (n + m)
  = read_bytes d off n ++ read_bytes d (off + Z.of_nat n) m.
Proof.
  unfold read_bytes.
  rewrite seq_app, map_app; f_equal.
  rewrite map_seq_from; apply map_ext; intros k.
  f_equal; lia.
Qed.

Lemma nth_read_bytes_at d off n k :
  (k < n)%nat -> nth k (read_bytes d off n) 0 = byte_at d (off + Z.of_nat k).
Proof.
  intros Hk; unfold read_bytes.
  set (f := fun k : nat => byte_at d (off + Z.of_nat k)).
  rewrite nth_indep with (d' := f 0%nat)
    by (rewrite length_map, length_seq; lia).
  rewrite (map_nth f), seq_nth by lia.
  reflexivity.
Qed.

(** A region that holds the bytes of [p] reads back as [p], each byte
    reduced to eight bits. *)
Lemma read_bytes_written d off p :
  (forall i, off <= i < off + Z.of_nat (length p) ->
     d i = u8 (nth (Z.to_nat (i - off)) p 0)) ->
  read_bytes d off (length p) = map u8 p.
Proof.
  intros H.
  apply nth_ext with (d := 0) (d' := 0).
  - rewrite read_bytes_length, length_map; reflexivity.
  - intros k Hk; rewrite read_bytes_length in Hk.
    rewrite nth_read_bytes_at by assumption.
    unfold byte_at; rewrite H by lia.
    replace (Z.to_nat (off + Z.of_nat k - off)) with k by lia.
    rewrite u8_idem.
    change 0 with (u8 0) at 2; rewrite map_nth; reflexivity.
Qed.

Lemma app_inv_length {X : Type} (a a' b b' : list X) :
  length a = length a' -> a ++ b = a' ++ b' -> a = a' /\ b = b'.
Proof.
  revert a'; induction a as [| x a IH]; intros [| x' a'] Hl E;
    cbn in *; try discriminate.
  - split; [reflexivity | assumption].
  - injection E as -> E; destruct (IH a' ltac:(lia) E) as [-> ->].
    split; reflexivity.
Qed.

Section AppendFacts.
Context {B : Build}.

(** What a run of appends does to the arena. *)
Lemma appends_spec ps : forall g,
  0 <= msgBufferLen g <= msgBufferCap g ->
  msgBufferLen g + total_len ps < 2 ^ 62 ->
  msgBufferLen (appends g ps) = msgBufferLen g + total_len ps /\
  msgBufferLen (appends g ps) <= msgBufferCap (appends g ps) /\
  msgBufferCap g <= msgBufferCap (appends g ps) /\
  msgBufferCap (appends g ps) <= Z.max (msgBufferCap g)
                                   (2 * (msgBufferLen g + total_len ps)) /\
  (forall i, i < msgBufferLen g ->
     msgBuffer (appends g ps) i = msgBuffer g i) /\
  read_bytes (msgBuffer (appends g ps)) (msgBufferLen g)
             (Z.to_nat (total_len ps)) = map u8 (concat ps).
Proof.
  induction ps as [| p ps IH]; intros g Hinv Hb; cbn [appends].
  - change (total_len []) with 0; cbn [concat map Z.to_nat read_bytes seq].
    repeat split; try lia.
  - pose proof (total_len_nonneg ps) as Ht.
    change (total_len (p :: ps))
      with (Z.of_nat (length p) + total_len ps) in *.
    assert (Hp : msgBufferLen g + Z.of_nat (length p) < 2 ^ 62) by lia.
    pose proof (nlBufferAppend_spec g p Hinv Hp) as S.
    cbv zeta in S; destruct S as (L & _ & C & G & K & W).
    set (g1 := nlBufferAppend g p) in *.
    destruct (IH g1) as (IL & IC & IG & IM & IK & IW); [lia | lia |].
    split; [lia |]. split; [assumption |].
    split; [destruct G as [[G1 E] | [G1 E]]; lia |].
    split; [destruct G as [[G1 E] | [G1 E]]; lia |].
    split.
    + intros i Hi; rewrite IK by lia; apply K; assumption.
    + cbn [concat]; rewrite map_app.
      replace (Z.to_nat (Z.of_nat (length p) + total_len ps))
        with (length p + Z.to_nat (total_len ps))%nat by lia.
      rewrite read_bytes_app; f_equal.
      * apply read_bytes_written; intros i Hi.
        rewrite IK by lia; apply W; lia.
      * rewrite <- IW; f_equal; lia.
Qed.

End AppendFacts.

Section BuilderState.
Context {B : Build}.

Theorem appends_committed g ps :
  0 <= msgBufferLen g <= msgBufferCap g ->
  msgBufferLen g + total_len ps < 2 ^ 62 ->
  committed (appends g ps) = committed g ++ map u8 (concat ps).
Proof.
  intros Hinv Hb.
  pose proof (total_len_nonneg ps) as Ht.
  destruct (appends_spec ps g Hinv Hb) as (L & _ & _ & _ & K & W).
  unfold committed; rewrite L.
  replace (Z.to_nat (msgBufferLen g + total_len ps))
    with (Z.to_nat (msgBufferLen g) + Z.to_nat (total_len ps))%nat by lia.
  rewrite read_bytes_app; f_equal.
  - apply read_bytes_ext; intros i Hi; unfold byte_at; rewrite K by lia.
    reflexivity.
  - rewrite <- W; f_equal; lia.
Qed.

(** The state a successful push leaves. *)
Lemma nlPushAttr_state ctx g type :
  attrDepth ctx < MAX_ATTR_NEST ->
  0 <= msgBufferLen g <= msgBufferCap g ->
  msgBufferLen g + 4 < 2 ^ 31 ->
  exists g',
    nlPushAttr ctx g type
    = (0, set_attrDepth (set_attrNestPos ctx (attrDepth ctx) (msgBufferLen g))
                        (attrDepth ctx + 1), g', []) /\
    msgBufferLen g' = msgBufferLen g + 4 /\
    msgBufferLen g' <= msgBufferCap g' /\
    msgBufferCap g <= msgBufferCap g' /\
    msgBufferCap g' <= Z.max (msgBufferCap g) (2 * (msgBufferLen g + 4)) /\
    (forall i, i < msgBufferLen g -> msgBuffer g' i = msgBuffer g i) /\
    load16 (msgBuffer g') (msgBufferLen g + off_rta_type) = u16 type.
Proof.
  intros Hd Hinv Hb; unfold nlPushAttr.
  destruct (Z.leb_spec MAX_ATTR_NEST (attrDepth ctx)); [lia |].
  change (RTA_SPACE 0) with 4.
  pose proof (nlReserveSpace_cap g 4 ltac:(lia) ltac:(lia) ltac:(lia)) as R.
  cbv zeta in R.
  eexists; split.
  { unfold nlBufferTail.
    cbn [set_msgBuffer msgBufferLen set_attrNestPos attrDepth].
    rewrite !nlReserveSpace_len; reflexivity. }
  cbn [nlCommitSpace msgBufferLen msgBufferCap msgBuffer set_msgBuffer].
  unfold nlBufferTail; rewrite !nlReserveSpace_len.
  change (RTA_DATA (msgBufferLen g) - msgBufferLen g)
    with (msgBufferLen g + 4 - msgBufferLen g).
  replace (msgBufferLen g + (msgBufferLen g + 4 - msgBufferLen g))
    with (msgBufferLen g + 4) by lia.
  rewrite size_t_small by lia.
  split; [reflexivity |].
  split; [destruct R as [[R1 E] | [R1 E]]; rewrite E; lia |].
  split; [destruct R as [[R1 E] | [R1 E]]; rewrite E; lia |].
  split; [destruct R as [[R1 E] | [R1 E]]; rewrite E; lia |].
  split.
  - intros i Hi; unfold off_rta_type.
    rewrite store16_other by lia.
    apply nlReserveSpace_keeps; lia.
  - apply load16_store16.
Qed.

(** The state a successful pop leaves: the length field is patched, the
    padding is committed, nothing else below the old capacity changes. *)
Lemma nlPopAttr_state ctx g :
  0 < attrDepth ctx ->
  let pos := attrNestPos ctx (attrDepth ctx - 1) in
  let payload := msgBufferLen g - (pos + 4) in
  0 <= pos ->
  pos + 4 <= msgBufferLen g <= msgBufferCap g ->
  msgBufferLen g < 2 ^ 31 ->
  exists g',
    nlPopAttr ctx g = (0, set_attrDepth ctx (attrDepth ctx - 1), g', []) /\
    msgBufferLen g' = pos + align4 (4 + payload) /\
    msgBufferLen g' <= msgBufferCap g' /\
    msgBufferCap g <= msgBufferCap g' /\
    msgBufferCap g' <= Z.max (msgBufferCap g) (2 * (msgBufferLen g + 3)) /\
    (forall i, i < msgBufferCap g ->
       msgBuffer g' i
       = store16 (msgBuffer g) pos (u16 (4 + payload)) i).
Proof.
  intros Hd pos payload Hpos Hlen Hsmall.
  pose proof (align4_bounds (4 + payload)) as Ha.
  assert (Hpay : 0 <= payload < 2 ^ 31) by (subst payload; lia).
  unfold nlPopAttr.
  destruct (Z.eqb_spec (attrDepth ctx) 0) as [E | _]; [lia |].
  cbn [attrDepth attrNestPos set_attrDepth]; fold pos.
  unfold nlBufferTail; cbn [set_msgBuffer msgBufferLen].
  change (RTA_DATA pos) with (pos + 4).
  assert (Epay : size_t (msgBufferLen g - (pos + 4)) = payload)
    by (apply size_t_small; subst payload; lia).
  rewrite Epay.
  rewrite RTA_LENGTH_small, RTA_SPACE_small by lia.
  assert (Ehdr : size_t (msgBufferLen g - pos) = 4 + payload)
    by (rewrite size_t_small; subst payload; lia).
  rewrite Ehdr.
  rewrite (size_t_small (align4 (4 + payload) - (4 + payload))) by lia.
  unfold off_rta_len; rewrite Z.add_0_r.
  set (stored := set_msgBuffer g
                   (store16 (msgBuffer g) pos (u16 (4 + payload)))).
  destruct (Z.ltb_spec 0 (align4 (4 + payload) - (4 + payload)))
    as [Hpad | Hnopad].
  - set (deficit := align4 (4 + payload) - (4 + payload)) in *.
    pose proof (nlReserveSpace_cap stored deficit) as R.
    pose proof (nlReserveSpace_len stored deficit) as RL.
    assert (RK : forall i, i < msgBufferCap g ->
              msgBuffer (nlReserveSpace stored deficit) i
              = msgBuffer stored i)
      by (intros i Hi; apply nlReserveSpace_keeps; unfold stored;
          cbn [set_msgBuffer msgBufferLen msgBufferCap]; lia).
    change (msgBufferLen stored) with (msgBufferLen g) in R.
    change (msgBufferCap stored) with (msgBufferCap g) in R.
    cbv zeta in R.
    specialize (R ltac:(lia) ltac:(lia) ltac:(lia)).
    change (msgBufferLen stored) with (msgBufferLen g) in RL.
    change (msgBuffer stored)
      with (store16 (msgBuffer g) pos (u16 (4 + payload))) in RK.
    eexists; split; [reflexivity |].
    cbn [nlCommitSpace msgBufferLen msgBufferCap msgBuffer].
    rewrite RL, size_t_small by lia.
    split; [subst payload deficit; lia |].
    split; [destruct R as [[R1 E] | [R1 E]]; rewrite E;
            unfold stored; cbn [set_msgBuffer msgBufferCap]; lia |].
    split; [destruct R as [[R1 E] | [R1 E]]; rewrite E;
            unfold stored; cbn [set_msgBuffer msgBufferCap]; lia |].
    split; [destruct R as [[R1 E] | [R1 E]]; rewrite E;
            unfold stored; cbn [set_msgBuffer msgBufferCap]; lia |].
    exact RK.
  - eexists; split; [reflexivity |].
    unfold stored; cbn [set_msgBuffer msgBufferLen msgBufferCap msgBuffer].
    split; [subst payload; lia |].
    split; [lia |]. split; [lia |]. split; [lia |].
    intros i Hi; reflexivity.
Qed.

End BuilderState.

(** *** Messages as trees of attributes *)

Lemma item_ind2 (P : item -> Prop) :
  (forall bs, P (Bytes bs)) ->
  (forall type body, Forall P body -> P (Attr type body)) ->
  forall it, P it.
Proof.
  intros HB HA; fix IH 1; intros [bs | type body].
  - apply HB.
  - apply HA; induction body as [| i body IHb]; constructor.
    + apply IH.
    + exact IHb.
Qed.

Lemma size_nonneg it : 0 <= size it.
Proof.
  induction it as [bs | type body IH] using item_ind2; cbn [size].
  - lia.
  - fold (sizes body).
    assert (0 <= sizes body).
    { induction IH as [| i l Hi _ IHl]; cbn [sizes]; [lia |].
      fold sizes; lia. }
    pose proof (align4_bounds (4 + sizes body)); lia.
Qed.

Lemma sizes_nonneg l : 0 <= sizes l.
Proof.
  induction l as [| i l IH]; cbn [sizes]; [lia |].
  fold sizes; pose proof (size_nonneg i); lia.
Qed.

Lemma nesting_nonneg it : 0 <= nesting it.
Proof.
  induction it as [bs | type body IH] using item_ind2; cbn [nesting].
  - lia.
  - fold (nestings body).
    assert (0 <= nestings body).
    { induction IH as [| i l Hi _ IHl]; cbn [nestings]; [lia |].
      fold nestings; lia. }
    lia.
Qed.

Lemma nestings_nonneg l : 0 <= nestings l.
Proof.
  induction l as [| i l IH]; cbn [nestings]; [lia |].
  fold nestings; pose proof (nesting_nonneg i); lia.
Qed.

(** The layout of an item depends on the bytes it occupies only. *)
Lemma laid_out_ext d d' it : forall pos,
  (forall j, pos <= j < pos + size it -> d' j = d j) ->
  laid_out d pos it -> laid_out d' pos it.
Proof.
  induction it as [bs | type body IH] using item_ind2; intros pos Hd;
    cbn [laid_out size] in *.
  - intros <-; apply read_bytes_ext; intros i Hi.
    unfold byte_at; rewrite Hd by lia; reflexivity.
  - fold (sizes body) in Hd; fold (laid_out_all d body);
      fold (laid_out_all d' body).
    pose proof (sizes_nonneg body) as Hs.
    pose proof (align4_bounds (4 + sizes body)) as Ha.
    intros (Hl & Ht & Hbody).
    unfold off_rta_len, off_rta_type in *.
    split; [| split].
    + rewrite <- Hl; unfold load16, byte_at; rewrite !Hd by lia; reflexivity.
    + rewrite <- Ht; unfold load16, byte_at; rewrite !Hd by lia; reflexivity.
    + assert (Hin : forall j, pos + 4 <= j < pos + 4 + sizes body ->
                d' j = d j) by (intros; apply Hd; lia).
      clear Hd Hl Ht Ha; revert Hbody Hin; generalize (pos + 4).
      induction IH as [| i l Hi _ IHl]; intros p Hbody Hin;
        cbn [laid_out_all sizes] in *; [exact I |].
      fold sizes in *; fold (laid_out_all d l) in *;
        fold (laid_out_all d' l).
      pose proof (size_nonneg i); pose proof (sizes_nonneg l).
      destruct Hbody as [H1 H2]; split.
      * apply Hi; [intros; apply Hin; lia | exact H1].
      * apply IHl; [lia | exact H2 | intros; apply Hin; lia].
Qed.

Lemma laid_out_all_ext d d' l : forall pos,
  (forall j, pos <= j < pos + sizes l -> d' j = d j) ->
  laid_out_all d l pos -> laid_out_all d' l pos.
Proof.
  induction l as [| i l IH]; intros pos Hd; cbn [laid_out_all sizes] in *;
    [trivial |].
  fold sizes in *; fold (laid_out_all d l); fold (laid_out_all d' l).
  pose proof (size_nonneg i); pose proof (sizes_nonneg l).
  intros [H1 H2]; split.
  - apply laid_out_ext with d; [intros; apply Hd; lia | exact H1].
  - apply IH; [intros; apply Hd; lia | exact H2].
Qed.

Section BuildFacts.
Context {B : Build}.

Lemma builds_all_of_items l : Forall builds_item l -> builds_all l.
Proof.
  induction 1 as [| i l Hi _ IHl]; intros ctx g Hd Hn Hinv Hb.
  - exists (ctx, g); cbn [build_all sizes laid_out_all fst snd].
    unfold built; cbn [fst snd]; repeat split; try lia; reflexivity.
  - cbn [build_all sizes nestings laid_out_all] in *.
    fold sizes in *; fold nestings in *; fold build_all.
    pose proof (size_nonneg i) as Hsi; pose proof (sizes_nonneg l) as Hsl.
    pose proof (nesting_nonneg i) as Hni; pose proof (nestings_nonneg l) as Hnl.
    destruct (Hi ctx g) as ([c1 g1] & E1 & (D1 & N1 & L1 & C1 & K1) & O1);
      [lia | lia | lia | lia |].
    cbn [fst snd] in *.
    destruct (IHl c1 g1) as ([c2 g2] & E2 & (D2 & N2 & L2 & C2 & K2) & O2);
      [lia | lia | lia | lia |].
    cbn [fst snd] in *.
    exists (c2, g2); rewrite E1, E2.
    split; [reflexivity |].
    split.
    + unfold built; cbn [fst snd].
      split; [lia |].
      split; [intros j Hj; rewrite N2, N1 by lia; reflexivity |].
      split; [lia |]. split; [lia |].
      intros j Hj; rewrite K2, K1 by lia; reflexivity.
    + fold (laid_out_all (msgBuffer g2) l).
      split.
      * apply laid_out_ext with (msgBuffer g1); [| exact O1].
        intros j Hj; apply K2; lia.
      * rewrite <- L1; exact O2.
Qed.

Lemma builds_every_item it : builds_item it.
Proof.
  induction it as [bs | type body IH] using item_ind2;
    intros ctx g Hd Hn Hinv Hb.
  - cbn [size nesting build fst snd laid_out] in *.
    assert (Hp : msgBufferLen g + Z.of_nat (length bs) < 2 ^ 62) by lia.
    pose proof (nlBufferAppend_spec g bs Hinv Hp) as S.
    cbv zeta in S; destruct S as (L & _ & C & _ & K & W).
    eexists; split; [reflexivity |].
    unfold built; cbn [fst snd].
    repeat split; try assumption.
    apply read_bytes_written; exact W.
  - apply builds_all_of_items in IH.
    cbn [size nesting] in Hn, Hb |- *.
    fold (sizes body) in *; fold (nestings body) in *.
    pose proof (sizes_nonneg body) as Hs.
    pose proof (nestings_nonneg body) as Hnb.
    pose proof (align4_bounds (4 + sizes body)) as Ha.
    assert (Hdepth : attrDepth ctx < MAX_ATTR_NEST) by lia.
    assert (Hroom : msgBufferLen g + 4 < 2 ^ 31) by lia.
    destruct (nlPushAttr_state ctx g type Hdepth Hinv Hroom)
      as (g1 & E1 & L1 & C1 & _ & _ & K1 & T1).
    set (c1 := set_attrDepth
                 (set_attrNestPos ctx (attrDepth ctx) (msgBufferLen g))
                 (attrDepth ctx + 1)) in *.
    assert (D1 : attrDepth c1 = attrDepth ctx + 1) by reflexivity.
    assert (P1 : attrNestPos c1 (attrDepth ctx) = msgBufferLen g)
      by (cbn; rewrite Z.eqb_refl; reflexivity).
    assert (N1 : forall i, i < attrDepth ctx ->
              attrNestPos c1 i = attrNestPos ctx i).
    { intros i Hi; cbn.
      destruct (Z.eqb_spec i (attrDepth ctx)); [lia | reflexivity]. }
    destruct (IH c1 g1) as ([c2 g2] & E2 & (D2 & N2 & L2 & C2 & K2) & O2);
      [lia | lia | lia | lia |].
    cbn [fst snd] in *.
    assert (Hpos : attrNestPos c2 (attrDepth c2 - 1) = msgBufferLen g).
    { rewrite D2, D1, N2 by lia.
      replace (attrDepth ctx + 1 - 1) with (attrDepth ctx) by lia.
      exact P1. }
    assert (Hopen : 0 < attrDepth c2) by lia.
    pose proof (nlPopAttr_state c2 g2 Hopen) as S3.
    cbv zeta in S3; rewrite Hpos in S3.
    destruct S3 as (g3 & E3 & L3 & C3 & G3 & _ & K3); [lia | lia | lia |].
    replace (msgBufferLen g2 - (msgBufferLen g + 4)) with (sizes body)
      in L3, K3 by lia.
    exists (set_attrDepth c2 (attrDepth c2 - 1), g3).
    split.
    { cbn [build fst snd]; rewrite E1; cbn [Z.eqb].
      fold build_all; rewrite E2, E3; reflexivity. }
    split.
    { unfold built; cbn [fst snd set_attrDepth attrDepth attrNestPos].
      split; [lia |].
      split; [intros i Hi; rewrite N2, N1 by lia; reflexivity |].
      split; [lia |]. split; [lia |].
      intros i Hi; rewrite K3 by lia.
      rewrite store16_other by lia.
      rewrite K2, K1 by lia; reflexivity. }
    cbn [laid_out snd]; fold (sizes body);
      fold (laid_out_all (msgBuffer g3) body).
    unfold off_rta_len, off_rta_type in *; rewrite Z.add_0_r.
    assert (Hlow : forall j, msgBufferLen g + 2 <= j < msgBufferLen g2 ->
              msgBuffer g3 j = msgBuffer g2 j).
    { intros j Hj; rewrite K3 by lia; apply store16_other; lia. }
    split; [| split].
    + unfold load16, byte_at; rewrite !K3 by lia.
      fold (byte_at (store16 (msgBuffer g2) (msgBufferLen g)
                       (u16 (4 + sizes body))) (msgBufferLen g)).
      fold (byte_at (store16 (msgBuffer g2) (msgBufferLen g)
                       (u16 (4 + sizes body))) (msgBufferLen g + 1)).
      fold (load16 (store16 (msgBuffer g2) (msgBufferLen g)
                      (u16 (4 + sizes body))) (msgBufferLen g)).
      rewrite load16_store16; unfold u16; apply Z.mod_mod; lia.
    + rewrite <- T1; unfold load16, byte_at.
      rewrite !Hlow by lia; rewrite !K2 by lia; reflexivity.
    + apply laid_out_all_ext with (msgBuffer g2).
      * intros j Hj; apply Hlow; lia.
      * rewrite <- L1; exact O2.
Qed.

End BuildFacts.

Section BuildDepth.
Context {B : Build}.

Lemma build_all_keeps_depth l :
  Forall keeps_depth l ->
  forall s s', build_all l s = Some s' ->
               attrDepth (fst s') = attrDepth (fst s).
Proof.
  induction 1 as [| i l Hi _ IHl]; intros s s' E; cbn [build_all] in E.
  - injection E as <-; reflexivity.
  - fold build_all in E.
    destruct (build i s) as [s1 |] eqn:E1; [| discriminate].
    rewrite (IHl _ _ E); apply Hi; exact E1.
Qed.

Lemma nlPushAttr_depth ctx g type rv ctx' g' ev :
  nlPushAttr ctx g type = (rv, ctx', g', ev) -> rv = 0 ->
  attrDepth ctx' = attrDepth ctx + 1 /\ attrDepth ctx < MAX_ATTR_NEST.
Proof.
  unfold nlPushAttr.
  destruct (Z.leb_spec MAX_ATTR_NEST (attrDepth ctx)); intros E Hrv.
  - injection E as <- _ _ _; discriminate.
  - injection E as _ <- _ _; split; [reflexivity | assumption].
Qed.

Lemma nlPopAttr_depth ctx g rv ctx' g' ev :
  nlPopAttr ctx g = (rv, ctx', g', ev) -> rv = 0 ->
  attrDepth ctx' = attrDepth ctx - 1.
Proof.
  unfold nlPopAttr.
  destruct (attrDepth ctx =? 0); intros E Hrv.
  - injection E as <- _ _ _; discriminate.
  - injection E as _ <- _ _; reflexivity.
Qed.

Lemma build_keeps_depth it : keeps_depth it.
Proof.
  induction it as [bs | type body IH] using item_ind2; intros [ctx g] s' E;
    cbn [build fst snd] in E.
  - injection E as <-; reflexivity.
  - destruct (nlPushAttr ctx g type) as [[[rv c1] g1] ev1] eqn:E1.
    destruct (Z.eqb_spec rv 0) as [Hrv | _]; [| discriminate].
    fold build_all in E.
    destruct (build_all body (c1, g1)) as [[c2 g2] |] eqn:E2;
      [| discriminate].
    destruct (nlPopAttr c2 g2) as [[[rv3 c3] g3] ev3] eqn:E3.
    destruct (Z.eqb_spec rv3 0) as [Hrv3 | _]; [| discriminate].
    injection E as <-; cbn [fst].
    pose proof (nlPopAttr_depth _ _ _ _ _ _ E3 Hrv3) as D3.
    pose proof (build_all_keeps_depth body IH _ _ E2) as D2.
    destruct (nlPushAttr_depth _ _ _ _ _ _ _ E1 Hrv) as [D1 _].
    cbn [fst] in D2; lia.
Qed.

Lemma build_all_too_deep l :
  Forall fails_when_too_deep l ->
  forall s,
    attrDepth (fst s) <= MAX_ATTR_NEST ->
    MAX_ATTR_NEST < attrDepth (fst s) + nestings l ->
    build_all l s = None.
Proof.
  induction 1 as [| i l Hi _ IHl]; intros s Hd Hn;
    cbn [build_all nestings] in *; [lia |].
  fold build_all; fold nestings in *.
  destruct (build i s) as [s1 |] eqn:E1; [| reflexivity].
  pose proof (build_keeps_depth i s s1 E1) as D1.
  destruct (Z_lt_le_dec MAX_ATTR_NEST (attrDepth (fst s) + nesting i))
    as [Hi' | Hi'].
  - rewrite (Hi s Hd Hi') in E1; discriminate.
  - apply IHl; lia.
Qed.

Lemma build_too_deep it : fails_when_too_deep it.
Proof.
  induction it as [bs | type body IH] using item_ind2; intros [ctx g] Hd Hn;
    cbn [build fst snd nesting] in *.
  - lia.
  - fold (nestings body) in Hn; fold build_all.
    destruct (nlPushAttr ctx g type) as [[[rv c1] g1] ev1] eqn:E1.
    destruct (Z.eqb_spec rv 0) as [Hrv | _]; [| reflexivity].
    destruct (nlPushAttr_depth _ _ _ _ _ _ _ E1 Hrv) as [D1 Hlt].
    rewrite (build_all_too_deep body IH (c1, g1)); cbn [fst];
      [reflexivity | lia | lia].
Qed.

End BuildDepth.

(** *** The session invariant *)

Lemma op_growth_nonneg op : 0 <= op_growth op.
Proof. destruct op; cbn; lia. Qed.

Lemma ops_growth_nonneg ops : 0 <= ops_growth ops.
Proof.
  induction ops as [| op ops IH]; cbn; [lia |].
  fold (ops_growth ops); pose proof (op_growth_nonneg op); lia.
Qed.

Section SessionInvariant.
Context {B : Build}.

(** The receive loop touches neither the builder's part of the context
    nor the size of the arena. *)
Lemma recv_loop_frame {A : Type} seq handler sq (q : list recv_result) :
  forall ctx g (arg : A) ev,
    let x := recv_loop seq handler ctx g arg sq q ev in
    attrDepth (ctx_after x) = attrDepth ctx /\
    attrNestPos (ctx_after x) = attrNestPos ctx /\
    msgBufferLen (glob_after x) = msgBufferLen g /\
    msgBufferCap (glob_after x) = msgBufferCap g.
Proof.
  induction q as [| r q IH]; intros ctx g arg ev; cbn [recv_loop].
  - repeat split.
  - cbn [recvmsg]; cbv zeta.
    assert (Hnext : forall a e,
      let x := recv_loop seq handler (set_msg_namelen ctx (rr_namelen r))
                 (set_msgBuffer g
                    (memcpy (msgBuffer g) 0
                       (firstn (Z.to_nat (iov_len ctx)) (rr_data r))))
                 a sq q e in
      attrDepth (ctx_after x) = attrDepth ctx /\
      attrNestPos (ctx_after x) = attrNestPos ctx /\
      msgBufferLen (glob_after x) = msgBufferLen g /\
      msgBufferCap (glob_after x) = msgBufferCap g)
      by (intros a e;
          exact (IH (set_msg_namelen ctx (rr_namelen r))
                   (set_msgBuffer g
                      (memcpy (msgBuffer g) 0
                         (firstn (Z.to_nat (iov_len ctx)) (rr_data r))))
                   a e)).
    cbv zeta in Hnext.
    destruct (ret (rr_ret r) <? 0).
    + destruct (ret (rr_ret r) =? ENOBUFS); [apply Hnext |].
      destruct ((ret (rr_ret r) =? EAGAIN)
                || (errno_after 0 (rr_ret r) =? EINTR));
        [apply Hnext | repeat split].
    + destruct (ret (rr_ret r) =? 0); [repeat split |].
      destruct (negb (msg_namelen (set_msg_namelen ctx (rr_namelen r))
                      =? sizeof_sockaddr_nl)); [repeat split |].
      destruct (scan _ _ _ _ _ _ _ _) as [[rv a | [|] a |] sev];
        try (repeat split; fail).
      apply Hnext.
Qed.

Lemma nlSendMessage_frame {A : Type} ctx g waitResponse
  (handler : option (nlResponseHandler A)) arg k :
  0 <= msgBufferCap g < 2 ^ 62 ->
  let x := nlSendMessage ctx g waitResponse handler arg k in
  attrDepth (ctx_after x) = attrDepth ctx /\
  attrNestPos (ctx_after x) = attrNestPos ctx /\
  msgBufferCap g <= msgBufferCap (glob_after x) /\
  msgBufferCap (glob_after x) <= Z.max (msgBufferCap g) 8192 /\
  (msgBufferLen (glob_after x) = msgBufferLen g \/
   msgBufferLen (glob_after x) = 0 /\ attrDepth ctx <= 0 /\
   4096 <= msgBufferCap (glob_after x)).
Proof.
  intros Hc; cbv zeta; unfold nlSendMessage.
  destruct (Z.ltb_spec 0 (attrDepth ctx)) as [Hd | Hd].
  { cbn [ctx_after glob_after].
    repeat split; first [reflexivity | lia | left; reflexivity]. }
  destruct (send_loop _ _ _) as [[x sq] ev].
  destruct x; cbn [ctx_after glob_after set_iov_len set_msgBuffer attrDepth
                   attrNestPos msgBufferCap msgBufferLen];
    try (repeat split; first [reflexivity | lia | left; reflexivity]).
  destruct (negb waitResponse);
    cbn [ctx_after glob_after set_iov_len set_msgBuffer attrDepth
         attrNestPos msgBufferCap msgBufferLen];
    [repeat split; first [reflexivity | lia | left; reflexivity] |].
  match goal with
  | |- context [recv_loop ?s ?h ?c ?g0 ?a ?q1 ?q2 ?e] =>
      destruct (recv_loop_frame s h q1 q2 c g0 a e) as (F1 & F2 & F3 & F4);
      set (x := recv_loop s h c g0 a q1 q2 e) in *
  end.
  cbn [set_iov_len attrDepth attrNestPos] in F1, F2.
  rewrite F1, F2, F3, F4.
  unfold nlResetSpace; cbn [set_msgBuffer msgBuffer msgBufferCap heap reallocs].
  match goal with
  | |- context [nlReserveSpace ?g0 4096] =>
      pose proof (nlReserveSpace_cap g0 4096) as R;
      pose proof (nlReserveSpace_len g0 4096) as RL;
      set (g1 := nlReserveSpace g0 4096) in *
  end.
  cbn [msgBufferLen msgBufferCap] in R, RL; cbv zeta in R.
  destruct R as [[R1 E] | [R1 E]]; try lia.
  - rewrite E in *; cbn [msgBufferLen msgBufferCap] in *.
    repeat split; first [reflexivity | lia].
  - rewrite E, RL.
    repeat split; first [reflexivity | lia].
Qed.

Lemma nlInitMessage_state ctx g msgType msgFlags :
  0 <= msgBufferCap g < 2 ^ 62 ->
  let s' := nlInitMessage ctx g msgType msgFlags in
  attrDepth (fst s') = 0 /\
  msgBufferLen (snd s') = 16 /\
  16 <= msgBufferCap (snd s') /\
  msgBufferCap g <= msgBufferCap (snd s') /\
  msgBufferCap (snd s') <= Z.max (msgBufferCap g) 32.
Proof.
  intros Hc; cbv zeta.
  unfold nlInitMessage;
    cbn [fst snd nlCommitSpace msgBufferLen msgBufferCap set_msgBuffer
         set_nextSeq set_msg_namelen set_attrDepth attrDepth].
  unfold nlResetSpace.
  match goal with
  | |- context [nlReserveSpace ?g0 _] =>
      pose proof (nlReserveSpace_cap g0 16) as R;
      pose proof (nlReserveSpace_len g0 16) as RL;
      change (NLMSG_SPACE 0) with 16;
      set (g1 := nlReserveSpace g0 16) in *
  end.
  cbn [msgBufferLen msgBufferCap] in R, RL; cbv zeta in R.
  rewrite RL; change (NLMSG_DATA 0 - 0) with 16.
  change (size_t (0 + 16)) with 16.
  assert (R' := R ltac:(lia) ltac:(lia) ltac:(lia)); clear R.
  destruct R' as [[R1 E] | [R1 E]]; rewrite E; cbn [msgBufferCap]; lia.
Qed.

(** One call keeps the session in order, never shrinks the capacity and
    commits no more than its growth. *)
Lemma run_op_keeps s op :
  session_ok s ->
  Z.max (msgBufferLen (snd s)) 16 + op_growth op < 2 ^ 31 ->
  session_ok (run_op s op) /\
  msgBufferCap (snd s) <= msgBufferCap (snd (run_op s op)) /\
  Z.max (msgBufferLen (snd (run_op s op))) 16
  <= Z.max (msgBufferLen (snd s)) 16 + op_growth op.
Proof.
  destruct s as [ctx g]; unfold session_ok; cbn [fst snd].
  intros (Hd & Hl & Hc & Hn) Hb.
  destruct op as [msgType msgFlags | bytes | type | | w h k];
    cbn [run_op op_growth] in *.
  - pose proof (nlInitMessage_state ctx g msgType msgFlags ltac:(lia)) as S.
    cbv zeta in S; destruct S as (D & L & C & G & M).
    destruct (nlInitMessage ctx g msgType msgFlags) as [c' g'].
    cbn [fst snd] in *.
    repeat split; try lia.
  - assert (Hp : msgBufferLen g + Z.of_nat (length bytes) < 2 ^ 62) by lia.
    pose proof (nlBufferAppend_spec g bytes Hl Hp) as S.
    cbv zeta in S; destruct S as (L & _ & C & G & _).
    cbn [fst snd].
    repeat split; try lia; try (apply Hn; lia);
      try (destruct (Hn i ltac:(lia)); lia);
      destruct G as [[G1 E] | [G1 E]]; lia.
  - destruct (Z_lt_le_dec (attrDepth ctx) MAX_ATTR_NEST) as [Hlt | Hge].
    + destruct (nlPushAttr_state ctx g type Hlt Hl ltac:(lia))
        as (g' & E & L & C & G & M & _).
      rewrite E; cbn [fst snd set_attrDepth set_attrNestPos attrDepth
                      attrNestPos].
      repeat split; try lia.
      * destruct (Z.eqb_spec i (attrDepth ctx)); [lia |].
        apply Hn; lia.
      * destruct (Z.eqb_spec i (attrDepth ctx)); [lia |].
        destruct (Hn i ltac:(lia)); lia.
    + unfold nlPushAttr.
      destruct (Z.leb_spec MAX_ATTR_NEST (attrDepth ctx)); [| lia].
      cbn [fst snd]; repeat split; try lia; apply Hn; lia.
  - destruct (Z.eq_dec (attrDepth ctx) 0) as [Hz | Hnz].
    + unfold nlPopAttr; rewrite Hz; cbn [Z.eqb fst snd].
      repeat split; try lia; apply Hn; lia.
    + destruct (Hn (attrDepth ctx - 1) ltac:(lia)) as [P1 P2].
      pose proof (nlPopAttr_state ctx g ltac:(lia)) as S.
      cbv zeta in S.
      destruct (S P1 ltac:(lia) ltac:(lia)) as (g' & E & L & C & G & M & _).
      pose proof (align4_bounds
                    (4 + (msgBufferLen g
                          - (attrNestPos ctx (attrDepth ctx - 1) + 4)))) as Ha.
      rewrite E; cbn [fst snd set_attrDepth attrDepth attrNestPos].
      repeat split; try lia; try (apply Hn; lia).
      destruct (Hn i ltac:(lia)); lia.
  - pose proof (nlSendMessage_frame ctx g w h tt k ltac:(lia)) as S.
    cbv zeta in S; destruct S as (D & N & G & M & L).
    cbn [fst snd]; rewrite D, N.
    repeat split; try lia; try (apply Hn; lia).
    destruct L as [L | (L & Hz & _)]; [| lia].
    destruct (Hn i ltac:(lia)); lia.
Qed.

Lemma run_ops_keep ops : forall s,
  session_ok s ->
  Z.max (msgBufferLen (snd s)) 16 + ops_growth ops < 2 ^ 31 ->
  session_ok (fold_left run_op ops s) /\
  msgBufferCap (snd s) <= msgBufferCap (snd (fold_left run_op ops s)).
Proof.
  induction ops as [| op ops IH]; intros s Hok Hb; cbn [fold_left].
  - split; [assumption | lia].
  - change (ops_growth (op :: ops))
      with (op_growth op + ops_growth ops) in Hb.
    pose proof (ops_growth_nonneg ops) as Hg.
    destruct (run_op_keeps s op Hok ltac:(lia)) as (Hok' & Hcap & Hlen).
    destruct (IH (run_op s op) Hok' ltac:(lia)) as [IHok IHcap].
    split; [assumption | lia].
Qed.

End SessionInvariant.

Section BuilderProperties.
Context {B : Build}.

(** X1.  Appending is concatenation.  From an arena whose committed
    length is within its capacity, appending the payloads [ps] one after
    the other leaves as committed region the bytes committed before,
    followed by the bytes of the payloads in order, each reduced to
    eight bits, whatever reallocations happen on the way.  The length
    is the sum of the lengths, it stays within the capacity, and the
    capacity never shrinks nor exceeds twice the final length unless it
    was larger from the start. *)
Theorem appended_payloads_are_concatenated g ps :
  0 <= msgBufferLen g <= msgBufferCap g ->
  msgBufferLen g + total_len ps < 2 ^ 62 ->
  let g' := appends g ps in
  committed g' = committed g ++ map u8 (concat ps) /\
  msgBufferLen g' = msgBufferLen g + total_len ps /\
  msgBufferLen g' <= msgBufferCap g' /\
  msgBufferCap g <= msgBufferCap g' /\
  msgBufferCap g' <= Z.max (msgBufferCap g) (2 * msgBufferLen g').
Proof.
  intros Hinv Hb g'.
  destruct (appends_spec ps g Hinv Hb) as (L & C & G & M & _ & _).
  split; [apply appends_committed; assumption |].
  subst g'; rewrite L in *.
  split; [reflexivity |]; split; [exact C |]; split; [exact G | exact M].
Qed.

(** X2.  A well-nested construction succeeds and lays the message out.
    An item is a run of bytes ([nlBufferAppend]) or an attribute of some
    type holding items ([nlPushAttr], the items, [nlPopAttr]).  When the
    session is at most [MAX_ATTR_NEST - nesting it] deep and the message
    stays below 2^31 bytes, every call of the construction of [it]
    returns 0; the depth is afterwards what it was; the message has
    grown by [size it], that is by the bytes given plus four bytes of
    header per attribute, each attribute rounded up to a multiple of
    four; the bytes committed before are untouched; and every attribute,
    at every level, carries its type and, as [rta_len], its header plus
    payload length without the padding, with its items laid out behind
    its header. *)
Theorem nested_attributes_are_laid_out it ctx g :
  0 <= attrDepth ctx ->
  attrDepth ctx + nesting it <= MAX_ATTR_NEST ->
  0 <= msgBufferLen g <= msgBufferCap g ->
  msgBufferLen g + size it < 2 ^ 31 ->
  exists ctx' g',
    build it (ctx, g) = Some (ctx', g') /\
    attrDepth ctx' = attrDepth ctx /\
    msgBufferLen g' = msgBufferLen g + size it /\
    msgBufferLen g' <= msgBufferCap g' /\
    (forall i, i < msgBufferLen g -> msgBuffer g' i = msgBuffer g i) /\
    laid_out (msgBuffer g') (msgBufferLen g) it.
Proof.
  intros H1 H2 H3 H4.
  destruct (builds_every_item it ctx g H1 H2 H3 H4)
    as ([ctx' g'] & E & (D & _ & L & C & K) & O).
  exists ctx', g'; cbn [fst snd] in *.
  repeat (split; [assumption |]); assumption.
Qed.

(** X3.  The nesting limit holds for whole constructions: an item whose
    attributes nest deeper than the session has levels left is never
    built: one of the calls of its construction returns an error. *)
Theorem nesting_beyond_the_limit_fails it ctx g :
  attrDepth ctx <= MAX_ATTR_NEST ->
  MAX_ATTR_NEST < attrDepth ctx + nesting it ->
  build it (ctx, g) = None.
Proof. intros H1 H2; apply build_too_deep; cbn [fst]; assumption. Qed.

(** X4.  No sequence of calls brings a session out of order.  A state
    is in order when the depth is between 0 and [MAX_ATTR_NEST], the
    committed length within the capacity, and the header of every open
    attribute inside the committed region.  Whatever calls of
    [nlInitMessage], [nlBufferAppend], [nlPushAttr], [nlPopAttr] and
    [nlSendMessage] follow one another, failing ones included, the
    state stays in order as long as the message stays below 2^31 bytes,
    and the capacity of the arena never shrinks. *)
Theorem session_stays_in_order ops s :
  session_ok s ->
  Z.max (msgBufferLen (snd s)) 16 + ops_growth ops < 2 ^ 31 ->
  let s' := fold_left run_op ops s in
  session_ok s' /\
  msgBufferCap (snd s) <= msgBufferCap (snd s').
Proof. intros H1 H2; apply run_ops_keep; assumption. Qed.

End BuilderProperties.

Lemma appended_payloads_are_concatenated_witness :
  committed (appends (B := release_build) growing_arena two_payloads)
  = committed growing_arena ++ map u8 (concat two_payloads).
Proof.
  apply (appended_payloads_are_concatenated (B := release_build)
           growing_arena two_payloads); by_evaluation.
Defined.

Lemma nested_attributes_are_laid_out_witness :
  exists ctx' g',
    build (B := release_build) nested_item (session0, growing_arena)
    = Some (ctx', g') /\
    msgBufferLen g' = 32 /\
    load16 (msgBuffer g') 16 = 13 /\
    load16 (msgBuffer g') 20 = 6.
Proof.
  destruct (nested_attributes_are_laid_out (B := release_build) nested_item
              session0 growing_arena)
    as (ctx' & g' & E & _ & L & _ & _ & O1 & _ & (O2 & _) & _).
  - by_evaluation.
  - by_evaluation.
  - by_evaluation.
  - by_evaluation.
  - exists ctx', g'.
    split; [exact E |]; split; [exact L |]; split; [exact O1 | exact O2].
Defined.

Lemma nesting_beyond_the_limit_fails_witness :
  build (B := release_build) two_levels (session_nine_open, growing_arena)
  = None.
Proof.
  apply (nesting_beyond_the_limit_fails (B := release_build)); by_evaluation.
Defined.

Lemma session_stays_in_order_witness :
  session_ok (B := release_build)
    (fold_left (run_op (B := release_build)) busy_session
               (session0, fresh_globals)).
Proof.
  apply (session_stays_in_order (B := release_build) busy_session
           (session0, fresh_globals)).
  - split; [by_evaluation |]; split; [by_evaluation |];
      split; [by_evaluation |].
    intros i Hi;
      change (attrDepth (fst (session0, fresh_globals))) with 0 in Hi; lia.
  - by_evaluation.
Defined.

(** ** Transmission *)

Lemma send_loop_transient fd bytes pre q :
  Forall transient pre ->
  send_loop fd bytes (pre ++ q) =
  (fst (fst (send_loop fd bytes q)), snd (fst (send_loop fd bytes q)),
   concat (map (fun _ => attempt fd bytes) pre) ++ snd (send_loop fd bytes q)).
Proof.
  induction 1 as [| r pre [Hr He] _ IH]; cbn [app map concat].
  - destruct (send_loop fd bytes q) as [[x q'] ev]; reflexivity.
  - cbn [send_loop]; rewrite Hr; cbn [Z.eqb Pos.eqb].
    assert (Et : (errno_after 0 r =? EAGAIN) || (errno_after 0 r =? EINTR)
                 = true).
    { destruct He as [-> | ->]; reflexivity. }
    rewrite Et, IH; cbn [fst snd].
    unfold attempt; rewrite <- app_assoc; reflexivity.
Qed.

Lemma filter_attempts (f : event -> bool) fd bytes (pre : list sysret) :
  filter f (concat (map (fun _ => attempt fd bytes) pre))
  = concat (map (fun _ => filter f (attempt fd bytes)) pre).
Proof.
  induction pre as [| r pre IH]; cbn [map concat]; [reflexivity |].
  rewrite filter_app, IH; reflexivity.
Qed.

Lemma concat_singletons {X Y : Type} (x : X) (l : list Y) :
  concat (map (fun _ => [x]) l) = repeat x (length l).
Proof. induction l as [| y l IH]; cbn; [| rewrite IH]; reflexivity. Qed.

Lemma concat_nils {X Y : Type} (l : list Y) :
  concat (map (fun _ => @nil X) l) = [].
Proof. induction l as [| y l IH]; cbn; [| rewrite IH]; reflexivity. Qed.

(** The transmission loop neither reads from the socket nor calls the
    handler, and all it sends is the message it was given. *)
Lemma send_loop_events fd bytes (q : list sysret) :
  filter is_RecvMsg (snd (send_loop fd bytes q)) = [] /\
  filter is_Handler (snd (send_loop fd bytes q)) = [] /\
  Forall (fun e => is_SendMsg e = true -> e = SendMsg fd bytes)
         (snd (send_loop fd bytes q)).
Proof.
  induction q as [| r q (IH1 & IH2 & IH3)]; cbn [send_loop].
  - cbn; repeat split; repeat constructor; discriminate.
  - destruct (ret r =? -1).
    + destruct ((errno_after 0 r =? EAGAIN) || (errno_after 0 r =? EINTR)).
      * destruct (send_loop fd bytes q) as [[x q'] ev]; cbn [snd] in *.
        rewrite !filter_app, IH1, IH2; cbn.
        repeat split; repeat constructor; try discriminate; assumption.
      * cbn; repeat split; repeat constructor; discriminate.
    + cbn; repeat split; repeat constructor; discriminate.
Qed.

Section Transmission.
Context {B : Build}.

(** [nlSendMessage] past its guard, up to the end of the transmission
    loop. *)
Lemma nlSendMessage_unfold {A : Type} ctx g waitResponse
  (handler : option (nlResponseHandler A)) arg k :
  attrDepth ctx <= 0 ->
  nlSendMessage ctx g waitResponse handler arg k =
  let ctx1 := set_iov_len ctx (nlmsg_len (msgBuffer (finalized g)) 0) in
  let sent := send_loop (sock ctx) (wire_bytes g) (sendq k) in
  let stop o :=
    {| out := o; ctx_after := ctx1; glob_after := finalized g;
       arg_after := arg;
       kernel_after := {| sendq := snd (fst sent); recvq := recvq k |};
       events := snd sent |} in
  match fst (fst sent) with
  | SendBlocked => stop Blocked
  | SendFailed errno => stop (Returned errno)
  | Sent =>
      if negb waitResponse then stop (Returned 0)
      else
        let g2 := nlResetSpace (finalized g) 4096 in
        recv_loop (nlmsg_seq (msgBuffer (finalized g)) 0) handler
                  (set_iov_len ctx1 (msgBufferCap g2)) g2 arg
                  (snd (fst sent)) (recvq k) (snd sent)
  end.
Proof.
  intros Hd; unfold nlSendMessage.
  destruct (Z.ltb_spec 0 (attrDepth ctx)); [lia |].
  cbv zeta; fold (finalized g).
  change (read_bytes (msgBuffer (finalized g)) 0
            (Z.to_nat (iov_len (set_iov_len ctx
                                  (nlmsg_len (msgBuffer (finalized g)) 0)))))
    with (wire_bytes g).
  cbn [sock set_iov_len].
  destruct (send_loop (sock ctx) (wire_bytes g) (sendq k)) as [[x sq] ev].
  reflexivity.
Qed.

(** X5.  [sendmsg] is retried on [EAGAIN] and [EINTR].  When the
    kernel refuses the message any number of times with one of the two
    and then takes it, a send that does not wait returns 0, has
    transmitted the same bytes once per attempt, and has logged no
    error. *)
Theorem transient_send_failures_are_retried {A : Type} ctx g
  (handler : option (nlResponseHandler A)) arg pre ok rest rq :
  attrDepth ctx <= 0 ->
  Forall transient pre ->
  ret ok <> -1 ->
  let r := nlSendMessage ctx g false handler arg
             {| sendq := pre ++ ok :: rest; recvq := rq |} in
  out r = Returned 0 /\
  sendq (kernel_after r) = rest /\
  filter is_SendMsg (events r)
  = repeat (SendMsg (sock ctx) (wire_bytes g)) (S (length pre)) /\
  filter is_Error (events r) = [].
Proof.
  intros Hd Hpre Hok; cbv zeta.
  rewrite nlSendMessage_unfold by assumption; cbv zeta; cbn [sendq recvq].
  rewrite (send_loop_transient _ _ pre (ok :: rest) Hpre).
  cbn [send_loop].
  destruct (Z.eqb_spec (ret ok) (-1)); [contradiction |].
  cbn [fst snd negb out kernel_after events sendq].
  repeat split.
  - rewrite filter_app, filter_attempts; cbn [attempt filter is_SendMsg].
    rewrite concat_singletons.
    cbn [app]; rewrite <- repeat_cons; reflexivity.
  - rewrite filter_app, filter_attempts; cbn [attempt filter is_Error].
    rewrite concat_nils; reflexivity.
Qed.

(** X6.  Any other failure of [sendmsg] ends the call: its error
    number is returned, nothing is sent again and, even when a response
    was to be awaited, nothing is read. *)
Theorem fatal_send_failure_is_returned {A : Type} ctx g waitResponse
  (handler : option (nlResponseHandler A)) arg pre bad rest rq e :
  attrDepth ctx <= 0 ->
  Forall transient pre ->
  ret bad = -1 -> errno_after 0 bad = e ->
  e <> EAGAIN -> e <> EINTR ->
  let r := nlSendMessage ctx g waitResponse handler arg
             {| sendq := pre ++ bad :: rest; recvq := rq |} in
  out r = Returned e /\
  kernel_after r = {| sendq := rest; recvq := rq |} /\
  filter is_SendMsg (events r)
  = repeat (SendMsg (sock ctx) (wire_bytes g)) (S (length pre)) /\
  filter is_RecvMsg (events r) = [].
Proof.
  intros Hd Hpre Hbad He H1 H2; cbv zeta.
  rewrite nlSendMessage_unfold by assumption; cbv zeta; cbn [sendq recvq].
  rewrite (send_loop_transient _ _ pre (bad :: rest) Hpre).
  cbn [send_loop]; rewrite Hbad, He; cbn [Z.eqb Pos.eqb].
  destruct (Z.eqb_spec e EAGAIN); [contradiction |].
  destruct (Z.eqb_spec e EINTR); [contradiction |].
  cbn [orb fst snd out kernel_after events].
  repeat split.
  - rewrite filter_app, filter_attempts; cbn [attempt filter is_SendMsg app].
    rewrite concat_singletons.
    rewrite <- repeat_cons; reflexivity.
  - rewrite filter_app, filter_attempts; cbn [attempt filter is_RecvMsg app].
    rewrite concat_nils; reflexivity.
Qed.

(** X7.  A send that does not wait never reads: whatever the kernel
    does, no [recvmsg] is issued, the handler is not called, its state
    is the one passed in, and the message under construction keeps its
    length, it is not discarded. *)
Theorem send_without_wait_never_reads {A : Type} ctx g
  (handler : option (nlResponseHandler A)) arg k :
  let r := nlSendMessage ctx g false handler arg k in
  recvq (kernel_after r) = recvq k /\
  filter is_RecvMsg (events r) = [] /\
  filter is_Handler (events r) = [] /\
  arg_after r = arg /\
  msgBufferLen (glob_after r) = msgBufferLen g.
Proof.
  cbv zeta.
  destruct (Z_lt_le_dec 0 (attrDepth ctx)) as [Hd | Hd].
  - rewrite nlSendMessage_depth_guard by assumption; cbn.
    repeat split.
  - rewrite nlSendMessage_unfold by assumption; cbv zeta.
    destruct (send_loop_events (sock ctx) (wire_bytes g) (sendq k))
      as (E1 & E2 & _).
    destruct (send_loop (sock ctx) (wire_bytes g) (sendq k)) as [[x sq] ev].
    cbn [fst snd] in *.
    destruct x; cbn [negb out kernel_after events arg_after glob_after recvq];
      repeat split; assumption.
Qed.

End Transmission.

Lemma busy_twice_transient : Forall transient busy_twice.
Proof.
  constructor; [split; [reflexivity | left; reflexivity] |].
  constructor; [split; [reflexivity | right; reflexivity] |].
  constructor.
Defined.

Lemma transient_send_failures_are_retried_witness :
  let r := nlSendMessage (B := release_build) session0 growing_arena false
             (@None (nlResponseHandler unit)) tt
             {| sendq := busy_twice ++ succeeding 16 :: []; recvq := [] |} in
  out r = Returned 0 /\
  sendq (kernel_after r) = [] /\
  filter is_SendMsg (events r)
  = repeat (SendMsg (sock session0) (wire_bytes growing_arena))
           (S (length busy_twice)) /\
  filter is_Error (events r) = [].
Proof.
  apply (transient_send_failures_are_retried (B := release_build) session0
           growing_arena (@None (nlResponseHandler unit)) tt busy_twice
           (succeeding 16) [] []).
  - by_evaluation.
  - exact busy_twice_transient.
  - by_evaluation.
Defined.

Lemma fatal_send_failure_is_returned_witness :
  let r := nlSendMessage (B := release_build) session0 growing_arena true
             (@None (nlResponseHandler unit)) tt
             {| sendq := busy_twice ++ failing EACCES :: [succeeding 16];
                recvq := [acknowledgement] |} in
  out r = Returned EACCES /\
  kernel_after r = {| sendq := [succeeding 16]; recvq := [acknowledgement] |} /\
  filter is_SendMsg (events r)
  = repeat (SendMsg (sock session0) (wire_bytes growing_arena))
           (S (length busy_twice)) /\
  filter is_RecvMsg (events r) = [].
Proof.
  apply (fatal_send_failure_is_returned (B := release_build) session0
           growing_arena true (@None (nlResponseHandler unit)) tt busy_twice
           (failing EACCES) [succeeding 16] [acknowledgement] EACCES).
  - by_evaluation.
  - exact busy_twice_transient.
  - by_evaluation.
  - by_evaluation.
  - by_evaluation.
  - by_evaluation.
Defined.

(** *** The bytes sent *)

Ltac store_cases :=
  unfold byte_at, store32, store16, store8;
  repeat match goal with
         | |- context [?a =? ?b] => destruct (Z.eqb_spec a b); try lia
         end;
  try reflexivity.

Lemma byte_at_store32_other d i v j :
  j < i \/ i + 3 < j -> byte_at (store32 d i v) j = byte_at d j.
Proof. intros H; store_cases. Qed.

Lemma read_bytes_store32 d i v :
  read_bytes (store32 d i v) i 4 = le32 v.
Proof.
  unfold read_bytes, le32, le16.
  cbn [seq map app Z.of_nat Pos.of_succ_nat Pos.succ].
  replace (i + 0) with i by lia.
  assert (E : v / 2 ^ 16 / 2 ^ 8 = v / 2 ^ 24)
    by (rewrite Z.div_div by lia; reflexivity).
  repeat f_equal; store_cases; rewrite ?u8_idem; try reflexivity.
Qed.

Lemma skipn_read_bytes d off n m :
  skipn n (read_bytes d off (n + m)) = read_bytes d (off + Z.of_nat n) m.
Proof.
  rewrite read_bytes_app.
  rewrite skipn_app, read_bytes_length, Nat.sub_diag.
  rewrite skipn_all2 by (rewrite read_bytes_length; lia).
  reflexivity.
Qed.

Lemma NLMSG_LENGTH_tail g :
  0 <= msgBufferLen g < 2 ^ 32 ->
  u32 (NLMSG_LENGTH (nlBufferTail g - NLMSG_DATA 0)) = msgBufferLen g.
Proof.
  intros H.
  unfold nlBufferTail.
  change (NLMSG_DATA 0) with 16.
  unfold NLMSG_LENGTH; change NLMSG_HDRLEN with 16.
  replace (msgBufferLen g - 16 + 16) with (msgBufferLen g) by lia.
  apply u32_small; assumption.
Qed.

Lemma u32_idem x : u32 (u32 x) = u32 x.
Proof. unfold u32; apply Z.mod_mod; lia. Qed.

Lemma wire_bytes_spec g :
  4 <= msgBufferLen g < 2 ^ 32 ->
  nlmsg_len (msgBuffer (finalized g)) 0 = msgBufferLen g /\
  wire_bytes g = le32 (msgBufferLen g) ++ skipn 4 (committed g).
Proof.
  intros H.
  assert (L : nlmsg_len (msgBuffer (finalized g)) 0 = msgBufferLen g).
  { unfold finalized, nlmsg_len; cbn [msgBuffer set_msgBuffer].
    change (0 + off_nlmsg_len) with off_nlmsg_len.
    rewrite load32_store32, u32_idem.
    apply NLMSG_LENGTH_tail; lia. }
  split; [exact L |].
  unfold wire_bytes; rewrite L.
  unfold finalized; cbn [msgBuffer set_msgBuffer].
  rewrite NLMSG_LENGTH_tail by lia.
  unfold committed.
  assert (E : Z.to_nat (msgBufferLen g)
              = (4 + (Z.to_nat (msgBufferLen g) - 4))%nat) by lia.
  rewrite E.
  rewrite skipn_read_bytes.
  rewrite read_bytes_app.
  change off_nlmsg_len with 0.
  rewrite read_bytes_store32.
  f_equal.
  apply read_bytes_ext; intros i Hi.
  apply byte_at_store32_other; lia.
Qed.

(** The receive loop and the scan of a batch send nothing. *)
Lemma scan_sends_nothing {A : Type} d seq handler :
  forall fuel nlm res found (arg : A),
    filter is_SendMsg (snd (scan fuel d seq handler nlm res found arg)) = [].
Proof.
  induction fuel as [| fuel IH]; intros nlm res found arg; cbn [scan];
    [reflexivity |].
  destruct (NLMSG_OK d nlm res); [| reflexivity].
  destruct (NLMSG_NEXT d nlm res) as [nlm' res'].
  destruct (nlmsg_type d nlm =? NLMSG_DONE); [reflexivity |].
  destruct (negb (nlmsg_seq d nlm =? seq)); [apply IH |].
  destruct ((nlmsg_type d nlm =? NLMSG_ERROR)
            && negb (nlmsgerr_error d nlm =? 0)); [reflexivity |].
  destruct handler as [h |]; [| apply IH].
  destruct (h arg (handler_call d nlm)) as [userError arg'].
  destruct (negb (userError =? 0)); [reflexivity |].
  unfold prepend_events; cbn [snd app filter is_SendMsg]; apply IH.
Qed.

Lemma recv_loop_sends_nothing {A : Type} seq handler sq
  (q : list recv_result) :
  forall ctx g (arg : A) ev,
    filter is_SendMsg (events (recv_loop seq handler ctx g arg sq q ev))
    = filter is_SendMsg ev.
Proof.
  induction q as [| r q IH]; intros ctx g arg ev; cbn [recv_loop].
  - cbn [events]; rewrite filter_app; cbn; apply app_nil_r.
  - unfold recvmsg.
    assert (E1 : filter is_SendMsg (ev ++ [RecvMsg (sock ctx)])
                 = filter is_SendMsg ev)
      by (rewrite filter_app; cbn; apply app_nil_r).
    cbn [sock set_msg_namelen msg_namelen].
    destruct (ret (rr_ret r) <? 0).
    { destruct (ret (rr_ret r) =? ENOBUFS).
      - rewrite IH, filter_app, E1; cbn; apply app_nil_r.
      - destruct ((ret (rr_ret r) =? EAGAIN)
                  || (errno_after 0 (rr_ret r) =? EINTR)).
        + rewrite IH; exact E1.
        + cbn [events]; rewrite filter_app, E1; cbn; apply app_nil_r. }
    destruct (ret (rr_ret r) =? 0).
    { cbn [events]; rewrite filter_app, E1; cbn; apply app_nil_r. }
    destruct (negb (rr_namelen r =? sizeof_sockaddr_nl)).
    { cbn [events]; rewrite filter_app, E1; cbn; apply app_nil_r. }
    match goal with
    | |- context [scan ?f ?d ?s ?h ?n ?r ?b ?a] =>
        pose proof (scan_sends_nothing d s h f n r b a) as Hs;
        destruct (scan f d s h n r b a) as [[rv a' | [|] a' |] sev]
    end; cbn [snd] in Hs.
    + cbn [events]; rewrite filter_app, E1, Hs; apply app_nil_r.
    + cbn [events]; rewrite filter_app, E1, filter_app, Hs; cbn;
      apply app_nil_r.
    + rewrite IH, filter_app, E1, Hs; apply app_nil_r.
    + cbn [events]; rewrite filter_app, E1, Hs; apply app_nil_r.
Qed.

Section WireFacts.
Context {B : Build}.

Lemma nlSendMessage_sends {A : Type} ctx g waitResponse
  (handler : option (nlResponseHandler A)) arg k e :
  In e (events (nlSendMessage ctx g waitResponse handler arg k)) ->
  is_SendMsg e = true ->
  attrDepth ctx <= 0 /\ e = SendMsg (sock ctx) (wire_bytes g).
Proof.
  intros Hin He.
  destruct (Z_lt_le_dec 0 (attrDepth ctx)) as [Hd | Hd].
  { rewrite nlSendMessage_depth_guard in Hin by assumption.
    cbn in Hin; destruct Hin as [<- | []]; discriminate. }
  split; [assumption |].
  assert (Hf : In e (filter is_SendMsg
                 (events (nlSendMessage ctx g waitResponse handler arg k))))
    by (apply filter_In; split; assumption).
  clear Hin.
  rewrite nlSendMessage_unfold in Hf by assumption; cbv zeta in Hf.
  destruct (send_loop_events (sock ctx) (wire_bytes g) (sendq k))
    as (_ & _ & E3).
  destruct (send_loop (sock ctx) (wire_bytes g) (sendq k)) as [[x sq] ev].
  cbn [fst snd] in *.
  assert (Hev : In e (filter is_SendMsg ev)).
  { destruct x; cbn [events] in Hf; try exact Hf.
    destruct (negb waitResponse); cbn [events] in Hf; [exact Hf |].
    rewrite recv_loop_sends_nothing in Hf; exact Hf. }
  apply filter_In in Hev; destruct Hev as [Hin _].
  rewrite Forall_forall in E3; apply E3; assumption.
Qed.

(** X8.  What goes on the wire is the committed region with its first
    four bytes replaced by its own length: for a message of at least 4
    and less than 2^32 bytes, every [sendmsg] of the call is on the
    socket of the session and carries exactly that. *)
Theorem sent_bytes_are_the_message {A : Type} ctx g waitResponse
  (handler : option (nlResponseHandler A)) arg k fd bytes :
  4 <= msgBufferLen g < 2 ^ 32 ->
  In (SendMsg fd bytes)
     (events (nlSendMessage ctx g waitResponse handler arg k)) ->
  fd = sock ctx /\
  bytes = le32 (msgBufferLen g) ++ skipn 4 (committed g) /\
  Z.of_nat (length bytes) = msgBufferLen g.
Proof.
  intros Hlen Hin.
  destruct (nlSendMessage_sends _ _ _ _ _ _ _ Hin eq_refl) as [_ E].
  injection E as -> ->.
  destruct (wire_bytes_spec g Hlen) as [L W].
  split; [reflexivity |]; split; [exact W |].
  unfold wire_bytes; rewrite read_bytes_length, L; lia.
Qed.

End WireFacts.

Lemma sent_bytes_are_the_message_witness :
  3 = sock session0 /\
  wire_bytes growing_arena
  = le32 (msgBufferLen growing_arena) ++ skipn 4 (committed growing_arena) /\
  Z.of_nat (length (wire_bytes growing_arena)) = msgBufferLen growing_arena.
Proof.
  apply (sent_bytes_are_the_message (B := release_build) session0
           growing_arena false (@None (nlResponseHandler unit)) tt
           {| sendq := [succeeding 16]; recvq := [] |}).
  - by_evaluation.
  - right; left; reflexivity.
Defined.

(** ** Reception *)

Lemma calls_app ev1 ev2 : calls (ev1 ++ ev2) = calls ev1 ++ calls ev2.
Proof. apply flat_map_app. Qed.

Lemma thread_app {A : Type} (handler : option (nlResponseHandler A)) cs1 cs2
  arg :
  thread handler (cs1 ++ cs2) arg = thread handler cs2 (thread handler cs1 arg).
Proof. destruct handler; cbn [thread]; [apply fold_left_app | reflexivity]. Qed.

Section ScanFacts.
Context {A : Type}.
Variable d : mem.
Variable seq : Z.
Variable handler : option (nlResponseHandler A).

Lemma scan_threads : forall fuel nlm res found (arg : A),
  match fst (scan fuel d seq handler nlm res found arg) with
  | ScanReturn _ a | ScanEnd _ a =>
      a = thread handler
            (calls (snd (scan fuel d seq handler nlm res found arg))) arg
  | ScanFuel => True
  end.
Proof.
  induction fuel as [| fuel IH]; intros nlm res found arg; cbn [scan];
    [exact I |].
  assert (T0 : arg = thread handler (calls []) arg)
    by (destruct handler; reflexivity).
  destruct (NLMSG_OK d nlm res); [| exact T0].
  destruct (NLMSG_NEXT d nlm res) as [nlm' res'].
  destruct (nlmsg_type d nlm =? NLMSG_DONE); [exact T0 |].
  destruct (negb (nlmsg_seq d nlm =? seq)); [apply IH |].
  destruct ((nlmsg_type d nlm =? NLMSG_ERROR)
            && negb (nlmsgerr_error d nlm =? 0));
    [destruct handler; reflexivity |].
  destruct handler as [h |] eqn:Eh; [| apply IH].
  destruct (h arg (handler_call d nlm)) as [userError arg'] eqn:Ec.
  destruct (negb (userError =? 0)).
  - cbn [fst snd calls flat_map app thread fold_left]; rewrite Ec;
      reflexivity.
  - specialize (IH nlm' res' true arg').
    unfold prepend_events; cbn [fst snd].
    destruct (fst (scan fuel d seq (Some h) nlm' res' true arg'));
      try exact I;
      rewrite calls_app, thread_app;
      cbn [calls flat_map app thread fold_left]; rewrite Ec; exact IH.
Qed.



(** Every call of the handler is for a record of the batch that carries
    the awaited sequence number, is not the end-of-batch sentinel and
    does not report an error. *)
Lemma scan_calls : forall fuel nlm res found (arg : A) c,
  In (Handler c) (snd (scan fuel d seq handler nlm res found arg)) ->
  exists p left,
    c = handler_call d p /\ matching d seq p left /\
    reports_error d p = false /\ nlm <= p /\ p + left = nlm + res.
Proof.
  induction fuel as [| fuel IH]; intros nlm res found arg c; cbn [scan];
    [intros [] |].
  destruct (NLMSG_OK d nlm res) eqn:Hok; [| intros []].
  assert (Hnext : nlm <= fst (NLMSG_NEXT d nlm res) /\
                  fst (NLMSG_NEXT d nlm res) + snd (NLMSG_NEXT d nlm res)
                  = nlm + res).
  { unfold NLMSG_NEXT, NLMSG_ALIGN; cbn [fst snd].
    assert (0 <= Z.land (u32 (nlmsg_len d nlm + 3)) align_mask)
      by (apply Z.land_nonneg; right; unfold align_mask; lia).
    lia. }
  destruct (NLMSG_NEXT d nlm res) as [nlm' res']; cbn [fst snd] in Hnext.
  assert (IH' : forall found arg,
            In (Handler c) (snd (scan fuel d seq handler nlm' res' found arg))
            -> exists p left,
                 c = handler_call d p /\ matching d seq p left /\
                 reports_error d p = false /\ nlm <= p /\
                 p + left = nlm + res).
  { intros f a Hin.
    destruct (IH _ _ _ _ _ Hin) as (p & l & H1 & H2 & H3 & H4 & H5).
    exists p, l.
    split; [exact H1 |]; split; [exact H2 |]; split; [exact H3 |].
    split; lia. }
  destruct (Z.eqb_spec (nlmsg_type d nlm) NLMSG_DONE) as [| Hdone];
    [intros [] |].
  destruct (Z.eqb_spec (nlmsg_seq d nlm) seq) as [Hseq |]; cbn [negb];
    [| apply IH'].
  destruct ((nlmsg_type d nlm =? NLMSG_ERROR)
            && negb (nlmsgerr_error d nlm =? 0)) eqn:He.
  { cbn [snd]; intros [E | []]; discriminate. }
  assert (Here : forall e, Handler (handler_call d nlm) = e \/ False ->
            e = Handler c ->
            exists p left,
              c = handler_call d p /\ matching d seq p left /\
              reports_error d p = false /\ nlm <= p /\
              p + left = nlm + res).
  { intros e [<- | []] E; injection E as <-.
    exists nlm, res.
    split; [reflexivity |].
    split; [split; [exact Hok |]; split; assumption |].
    split; [exact He |]; split; [lia | reflexivity]. }
  destruct handler as [h |]; [| apply IH'].
  destruct (h arg (handler_call d nlm)) as [userError arg'].
  destruct (negb (userError =? 0)).
  - cbn [snd]; intros Hin; eapply Here; [exact Hin | reflexivity].
  - unfold prepend_events; cbn [snd]; intros Hin.
    apply in_app_or in Hin; destruct Hin as [Hin | Hin].
    + eapply Here; [exact Hin | reflexivity].
    + eapply IH'; exact Hin.
Qed.

End ScanFacts.

Section ReceiveFacts.
Context {A : Type}.
Variable seq : Z.
Variable handler : option (nlResponseHandler A).
Variable sq : list sysret.

Lemma recv_loop_terminates (q : list recv_result) :
  Forall short_datagram q ->
  forall ctx g (arg : A) ev,
    out (recv_loop seq handler ctx g arg sq q ev) <> OutOfFuel.
Proof.
  induction 1 as [| r q Hr Hq IH]; intros ctx g arg ev; cbn [recv_loop].
  - cbn [out]; discriminate.
  - unfold recvmsg.
    destruct (Z.ltb_spec (ret (rr_ret r)) 0).
    { destruct (ret (rr_ret r) =? ENOBUFS); [apply IH |].
      destruct ((ret (rr_ret r) =? EAGAIN)
                || (errno_after 0 (rr_ret r) =? EINTR)); [apply IH |].
      cbn [out]; discriminate. }
    destruct (Z.eqb_spec (ret (rr_ret r)) 0); [cbn [out]; discriminate |].
    destruct (negb (msg_namelen _ =? sizeof_sockaddr_nl));
      [cbn [out]; discriminate |].
    match goal with
    | |- context [scan ?f ?d ?s ?h ?n ?r ?b ?a] =>
        pose proof (scan_within_budget d s h f n r b a) as Hs;
        destruct (scan f d s h n r b a) as [[rv a' | [|] a' |] sev]
    end; cbn [fst] in Hs.
    + cbn [out]; discriminate.
    + cbn [out]; discriminate.
    + apply IH.
    + exfalso; apply Hs; [lia | lia | exact Hr | reflexivity].
Qed.

Lemma recv_loop_threads (q : list recv_result) :
  forall ctx g (arg arg0 : A) ev,
    arg = thread handler (calls ev) arg0 ->
    out (recv_loop seq handler ctx g arg sq q ev) <> OutOfFuel ->
    arg_after (recv_loop seq handler ctx g arg sq q ev)
    = thread handler (calls (events (recv_loop seq handler ctx g arg sq q ev)))
             arg0.
Proof.
  assert (T : forall ev e (arg arg0 : A),
            calls [e] = [] ->
            arg = thread handler (calls ev) arg0 ->
            arg = thread handler (calls (ev ++ [e])) arg0).
  { intros ev e arg arg0 He Ha.
    rewrite calls_app, He, app_nil_r; exact Ha. }
  induction q as [| r q IH]; intros ctx g arg arg0 ev Ha; cbn [recv_loop].
  - cbn [out arg_after events]; intros _; apply T; [reflexivity | exact Ha].
  - unfold recvmsg.
    pose proof (T ev (RecvMsg (sock ctx)) arg arg0 eq_refl Ha) as Ha1.
    cbn [sock set_msg_namelen].
    destruct (ret (rr_ret r) <? 0).
    { destruct (ret (rr_ret r) =? ENOBUFS).
      { apply IH; apply T; [reflexivity | exact Ha1]. }
      destruct ((ret (rr_ret r) =? EAGAIN)
                || (errno_after 0 (rr_ret r) =? EINTR));
        [apply IH; exact Ha1 |].
      cbn [out arg_after events]; intros _.
      apply T; [reflexivity | exact Ha1]. }
    destruct (ret (rr_ret r) =? 0).
    { cbn [out arg_after events]; intros _.
      apply T; [reflexivity | exact Ha1]. }
    destruct (negb (msg_namelen _ =? sizeof_sockaddr_nl)).
    { cbn [out arg_after events]; intros _.
      apply T; [reflexivity | exact Ha1]. }
    match goal with
    | |- context [scan ?f ?d ?s ?h ?n ?r ?b ?a] =>
        pose proof (scan_threads d s h f n r b a) as Hs;
        destruct (scan f d s h n r b a) as [[rv a' | [|] a' |] sev]
    end; cbn [fst snd] in Hs.
    + cbn [out arg_after events]; intros _.
      rewrite calls_app, thread_app, <- Ha1; exact Hs.
    + cbn [out arg_after events]; intros _.
      rewrite app_assoc; apply T; [reflexivity |].
      rewrite calls_app, thread_app, <- Ha1; exact Hs.
    + apply IH. rewrite calls_app, thread_app, <- Ha1; exact Hs.
    + cbn [out]; intros F; exfalso; apply F; reflexivity.
Qed.


End ReceiveFacts.

Section WaitedSend.
Context {B : Build}.

(** What a send that waits does once the transmission has succeeded. *)
Lemma nlSendMessage_waits {A : Type} ctx g
  (handler : option (nlResponseHandler A)) arg k :
  attrDepth ctx <= 0 ->
  fst (fst (send_loop (sock ctx) (wire_bytes g) (sendq k))) = Sent ->
  nlSendMessage ctx g true handler arg k =
  let g2 := nlResetSpace (finalized g) 4096 in
  recv_loop (nlmsg_seq (msgBuffer (finalized g)) 0) handler
    (set_iov_len
       (set_iov_len ctx (nlmsg_len (msgBuffer (finalized g)) 0))
       (msgBufferCap g2))
    g2 arg (snd (fst (send_loop (sock ctx) (wire_bytes g) (sendq k))))
    (recvq k) (snd (send_loop (sock ctx) (wire_bytes g) (sendq k))).
Proof.
  intros Hd Hs.
  rewrite nlSendMessage_unfold by assumption; cbv zeta.
  rewrite Hs; reflexivity.
Qed.

Lemma send_loop_calls fd bytes (q : list sysret) :
  calls (snd (send_loop fd bytes q)) = [].
Proof.
  induction q as [| r q IH]; cbn [send_loop]; [reflexivity |].
  destruct (ret r =? -1); [| reflexivity].
  destruct ((errno_after 0 r =? EAGAIN) || (errno_after 0 r =? EINTR));
    [| reflexivity].
  destruct (send_loop fd bytes q) as [[x q'] ev]; cbn [snd] in *.
  rewrite calls_app, IH; reflexivity.
Qed.


(** X9.  The scan of a batch terminates.  When every datagram is
    shorter than 2^32 - 3 bytes, [NLMSG_NEXT] advances by at least 16
    bytes per record, and the loop over a batch of [res] bytes needs
    fewer than [res] iterations: the call never exhausts that budget. *)
Theorem nlSendMessage_scan_terminates {A : Type} ctx g waitResponse
  (handler : option (nlResponseHandler A)) arg k :
  Forall short_datagram (recvq k) ->
  out (nlSendMessage ctx g waitResponse handler arg k) <> OutOfFuel.
Proof.
  intros Hq.
  destruct (Z_lt_le_dec 0 (attrDepth ctx)) as [Hd | Hd].
  { rewrite nlSendMessage_depth_guard by assumption; cbn [out]; discriminate. }
  rewrite nlSendMessage_unfold by assumption; cbv zeta.
  destruct (fst (fst (send_loop (sock ctx) (wire_bytes g) (sendq k))));
    try (cbn [out]; discriminate).
  destruct (negb waitResponse); [cbn [out]; discriminate |].
  apply recv_loop_terminates; exact Hq.
Qed.

(** X10.  The handler's state is threaded through its calls: what the
    caller finds behind [arg] afterwards is what the handler made of it
    over the calls recorded, in their order, and it is untouched when
    there was no call. *)
Theorem handler_state_is_threaded {A : Type} ctx g waitResponse
  (handler : option (nlResponseHandler A)) arg k :
  Forall short_datagram (recvq k) ->
  let r := nlSendMessage ctx g waitResponse handler arg k in
  arg_after r = thread handler (calls (events r)) arg.
Proof.
  intros Hq; cbv zeta.
  assert (T0 : arg = thread handler [] arg) by (destruct handler; reflexivity).
  destruct (Z_lt_le_dec 0 (attrDepth ctx)) as [Hd | Hd].
  { rewrite nlSendMessage_depth_guard by assumption; exact T0. }
  rewrite nlSendMessage_unfold by assumption; cbv zeta.
  pose proof (send_loop_calls (sock ctx) (wire_bytes g) (sendq k)) as Hc.
  destruct (fst (fst (send_loop (sock ctx) (wire_bytes g) (sendq k))));
    try (cbn [arg_after events]; rewrite Hc; exact T0).
  destruct (negb waitResponse);
    [cbn [arg_after events]; rewrite Hc; exact T0 |].
  apply recv_loop_threads.
  - rewrite Hc; exact T0.
  - apply recv_loop_terminates; exact Hq.
Qed.


(** X12.  When the first read after a successful transmission finds
    the socket closed ([recvmsg] returns 0), or a datagram whose source
    address has not the size of a netlink address, the call returns -1
    at once: the handler is not called and nothing further is read. *)
Theorem unusable_response_is_an_error {A : Type} ctx g
  (handler : option (nlResponseHandler A)) arg ok rest r q :
  attrDepth ctx <= 0 ->
  ret ok <> -1 ->
  ret (rr_ret r) = 0 \/
  (0 < ret (rr_ret r) /\ rr_namelen r <> sizeof_sockaddr_nl) ->
  let x := nlSendMessage ctx g true handler arg
             {| sendq := ok :: rest; recvq := r :: q |} in
  out x = Returned (-1) /\
  arg_after x = arg /\
  calls (events x) = [] /\
  kernel_after x = {| sendq := rest; recvq := q |}.
Proof.
  intros Hd Hok Hr; cbv zeta.
  assert (Hs : send_loop (sock ctx) (wire_bytes g) (ok :: rest)
               = (Sent, rest, attempt (sock ctx) (wire_bytes g))).
  { cbn [send_loop]; destruct (Z.eqb_spec (ret ok) (-1));
      [contradiction | reflexivity]. }
  rewrite nlSendMessage_waits by (cbn [sendq]; rewrite ?Hs; auto).
  cbv zeta; cbn [sendq recvq]; rewrite Hs; cbn [fst snd].
  cbn [recv_loop]; unfold recvmsg; cbn [msg_namelen set_msg_namelen].
  destruct Hr as [H0 | [Hpos Hn]].
  - rewrite H0; cbn [Z.ltb Z.eqb Z.compare].
    cbn [out arg_after events kernel_after]; repeat split.
  - destruct (Z.ltb_spec (ret (rr_ret r)) 0); [lia |].
    destruct (Z.eqb_spec (ret (rr_ret r)) 0); [lia |].
    destruct (Z.eqb_spec (rr_namelen r) sizeof_sockaddr_nl);
      [contradiction |].
    cbn [negb out arg_after events kernel_after]; repeat split.
Qed.

End WaitedSend.

(** X13.  An error of the handler ends the call.  When the first
    record with the awaited sequence number, behind [n] stale ones, is
    passed to the handler and the handler returns a value other than
    0, that value is returned at once: the handler is called exactly
    once, the rest of the batch and the datagrams still queued are not
    looked at. *)
Theorem handler_error_is_returned {A : Type} seqno h ctx g (arg : A)
  sq r q ev n o res' rv :
  let res := ret (rr_ret r) in
  let d := msgBuffer (snd (recvmsg ctx g r)) in
  0 < res < 2 ^ 32 - 3 ->
  rr_namelen r = sizeof_sockaddr_nl ->
  skips d seqno n 0 res o res' ->
  matching d seqno o res' ->
  reports_error d o = false ->
  fst (h arg (handler_call d o)) = rv ->
  rv <> 0 ->
  let x := recv_loop seqno (Some h) ctx g arg sq (r :: q) ev in
  out x = Returned rv /\
  arg_after x = snd (h arg (handler_call d o)) /\
  events x = ev ++ [RecvMsg (sock ctx); Handler (handler_call d o)] /\
  recvq (kernel_after x) = q.
Proof.
  intros res d Hres Hname Hsk Hm He Hrv Hnz x.
  pose proof (NLMSG_OK_bounds d o res' (proj1 Hm)) as Ho.
  assert (Hres1 : res < 2 ^ 32 - 3) by lia.
  assert (Hres2 : 16 <= res') by lia.
  destruct (skips_budget d seqno n res o res' Hsk Hres1 Hres2)
    as (fuel & Hfuel & _).
  assert (Ex : x = _) by (subst x; apply recv_loop_batch; lia || assumption).
  cbv zeta in Ex; fold res in Ex; fold d in Ex.
  rewrite Hfuel, (scan_skips d seqno n 0 res o res' Hsk) in Ex.
  rewrite scan_matching_step in Ex by assumption.
  rewrite He, Hrv in Ex.
  destruct (Z.eqb_spec rv 0) as [| _]; [contradiction |].
  cbn [negb] in Ex.
  rewrite Ex; cbn [out arg_after events kernel_after recvq].
  repeat split.
  rewrite <- app_assoc; reflexivity.
Qed.

(** X14.  The handler only ever sees records of the batch: a record it
    is called with starts at or behind the start of the scan, has a
    complete header and ends within the bytes received; it carries the
    awaited sequence number, is not the end-of-batch sentinel and, when
    it is an error record, reports status 0. *)
Theorem handler_sees_only_awaited_records {A : Type} d seqno
  (handler : option (nlResponseHandler A)) fuel nlm res found arg c :
  In (Handler c) (snd (scan fuel d seqno handler nlm res found arg)) ->
  exists p,
    c = handler_call d p /\
    nlm <= p /\
    16 <= nlmsg_len d p /\
    p + nlmsg_len d p <= nlm + res /\
    nlmsg_seq d p = seqno /\
    nlmsg_type d p <> NLMSG_DONE /\
    (nlmsg_type d p = NLMSG_ERROR -> nlmsgerr_error d p = 0).
Proof.
  intros Hin.
  destruct (scan_calls d seqno handler fuel nlm res found arg c Hin)
    as (p & left & Hc & (Hok & Hdone & Hseq) & He & Hle & Hsum).
  pose proof (NLMSG_OK_bounds d p left Hok) as Hb.
  exists p.
  split; [exact Hc |]; split; [exact Hle |]; split; [lia |].
  split; [lia |]; split; [exact Hseq |]; split; [exact Hdone |].
  intros Ht; unfold reports_error in He; rewrite Ht, Z.eqb_refl in He.
  destruct (Z.eqb_spec (nlmsgerr_error d p) 0); [assumption | discriminate].
Qed.

Lemma nlSendMessage_scan_terminates_witness :
  out (nlSendMessage (B := release_build) (fst second_message)
         (snd second_message) true (Some recording_handler) [] answered)
  <> OutOfFuel.
Proof.
  apply (nlSendMessage_scan_terminates (B := release_build)).
  constructor; [by_evaluation | constructor].
Defined.

Lemma handler_state_is_threaded_witness :
  let r := nlSendMessage (B := release_build) (fst second_message)
             (snd second_message) true (Some recording_handler) []
             answered in
  arg_after r = thread (Some recording_handler) (calls (events r)) [].
Proof.
  apply (handler_state_is_threaded (B := release_build)).
  constructor; [by_evaluation | constructor].
Defined.


Lemma unusable_response_is_an_error_witness :
  let x := nlSendMessage (B := release_build) session0 growing_arena true
             (Some recording_handler) []
             {| sendq := succeeding 16 :: [];
                recvq := closed_socket :: [acknowledgement] |} in
  out x = Returned (-1) /\
  arg_after x = [] /\
  calls (events x) = [] /\
  kernel_after x = {| sendq := []; recvq := [acknowledgement] |}.
Proof.
  apply (unusable_response_is_an_error (B := release_build) session0
           growing_arena (Some recording_handler) [] (succeeding 16) []
           closed_socket [acknowledgement]).
  - by_evaluation.
  - by_evaluation.
  - left; reflexivity.
Defined.

Lemma handler_error_is_returned_witness :
  let x := recv_loop 1 (Some refusing_handler) waiting_ctx fresh_globals []
             [] (stale_then_awaited :: [acknowledgement]) [] in
  out x = Returned 5 /\
  arg_after x
  = snd (refusing_handler [] (handler_call received_batch 20)) /\
  events x
  = [] ++ [RecvMsg (sock waiting_ctx);
           Handler (handler_call received_batch 20)] /\
  recvq (kernel_after x) = [acknowledgement].
Proof.
  apply (handler_error_is_returned 1 refusing_handler waiting_ctx
           fresh_globals [] [] stale_then_awaited [acknowledgement] []
           1%nat 20 20 5).
  - by_evaluation.
  - by_evaluation.
  - apply skips_one; [by_evaluation | apply skips_none_eq; by_evaluation].
  - by_evaluation.
  - by_evaluation.
  - by_evaluation.
  - by_evaluation.
Defined.

Lemma handler_sees_only_awaited_records_witness :
  exists p,
    {| h_data := [5; 6; 7; 8]; h_len := 4; h_type := 16; h_flags := 0 |}
    = handler_call received_batch p /\
    0 <= p /\
    16 <= nlmsg_len received_batch p /\
    p + nlmsg_len received_batch p <= 0 + 40 /\
    nlmsg_seq received_batch p = 1 /\
    nlmsg_type received_batch p <> NLMSG_DONE /\
    (nlmsg_type received_batch p = NLMSG_ERROR ->
     nlmsgerr_error received_batch p = 0).
Proof.
  apply (handler_sees_only_awaited_records received_batch 1
           (Some recording_handler) 40 0 40 false []).
  left; reflexivity.
Defined.

(** ** A request from start to wire, and the setup *)

Lemma send_loop_transmissions fd bytes (q : list sysret) :
  exists n,
    filter is_SendMsg (snd (send_loop fd bytes q))
    = repeat (SendMsg fd bytes) (S n).
Proof.
  induction q as [| r q [n IH]]; cbn [send_loop].
  - exists 0%nat; reflexivity.
  - destruct (ret r =? -1); [| exists 0%nat; reflexivity].
    destruct ((errno_after 0 r =? EAGAIN) || (errno_after 0 r =? EINTR));
      [| exists 0%nat; reflexivity].
    destruct (send_loop fd bytes q) as [[x q'] ev]; cbn [snd] in *.
    exists (S n); rewrite filter_app, IH; reflexivity.
Qed.

Section RequestFacts.
Context {B : Build}.

Lemma nlSendMessage_transmissions {A : Type} ctx g waitResponse
  (handler : option (nlResponseHandler A)) arg k :
  attrDepth ctx <= 0 ->
  exists n,
    filter is_SendMsg (events (nlSendMessage ctx g waitResponse handler arg k))
    = repeat (SendMsg (sock ctx) (wire_bytes g)) (S n).
Proof.
  intros Hd.
  rewrite nlSendMessage_unfold by assumption; cbv zeta.
  destruct (send_loop_transmissions (sock ctx) (wire_bytes g) (sendq k))
    as [n Hn].
  exists n.
  destruct (fst (fst (send_loop (sock ctx) (wire_bytes g) (sendq k))));
    try exact Hn.
  destruct (negb waitResponse); [exact Hn |].
  rewrite recv_loop_sends_nothing; exact Hn.
Qed.

Lemma nlInitMessage_header ctx g msgType msgFlags :
  skipn 4 (committed (snd (nlInitMessage ctx g msgType msgFlags)))
  = le16 msgType ++ le16 (Z.lor NLM_F_REQUEST msgFlags)
    ++ le32 (nextSeq ctx) ++ le32 (nl_pid ctx).
Proof.
  unfold nlInitMessage, committed.
  cbn [snd nlCommitSpace msgBuffer msgBufferLen set_msgBuffer nextSeq nl_pid
       set_attrDepth set_msg_namelen set_nextSeq].
  unfold nlResetSpace; rewrite nlReserveSpace_len; cbn [msgBufferLen].
  change (Z.to_nat (size_t (0 + (NLMSG_DATA 0 - 0)))) with (4 + 12)%nat.
  rewrite skipn_read_bytes.
  unfold read_bytes, le32, le16.
  change off_nlmsg_type with 4; change off_nlmsg_flags with 6;
    change off_nlmsg_seq with 8; change off_nlmsg_pid with 12.
  cbn [seq map app].
  repeat match goal with
         | |- context [0 + Z.of_nat 4 + Z.of_nat ?k] =>
             let v := eval vm_compute in (0 + Z.of_nat 4 + Z.of_nat k) in
             change (0 + Z.of_nat 4 + Z.of_nat k) with v
         end.
  repeat (f_equal; try (store_cases; rewrite ?u8_idem; reflexivity)).
Qed.

(** X15.  From [nlInitMessage] to the wire.  A message started with
    [nlInitMessage], filled with payloads and sent goes out, at least
    once and each time identically, as: its total length on four bytes,
    the type and the flags with [NLM_F_REQUEST] set on two bytes each,
    the sequence number the session had and the address the kernel
    assigned on four bytes each, all little-endian, then the payloads in
    order. *)
Theorem request_on_the_wire {A : Type} ctx g msgType msgFlags ps waitResponse
  (handler : option (nlResponseHandler A)) arg k :
  0 <= msgBufferCap g < 2 ^ 62 ->
  total_len ps < 2 ^ 32 - 16 ->
  let s := nlInitMessage ctx g msgType msgFlags in
  let r := nlSendMessage (fst s) (appends (snd s) ps) waitResponse handler
             arg k in
  exists n,
    filter is_SendMsg (events r)
    = repeat (SendMsg (sock ctx)
                (le32 (16 + total_len ps)
                 ++ le16 msgType ++ le16 (Z.lor NLM_F_REQUEST msgFlags)
                 ++ le32 (nextSeq ctx) ++ le32 (nl_pid ctx)
                 ++ map u8 (concat ps)))
             (S n).
Proof.
  intros Hcap Htot s r.
  pose proof (total_len_nonneg ps) as Hnn.
  destruct (nlInitMessage_arena ctx g msgType msgFlags Hcap) as [Hlen Hle].
  fold s in Hlen, Hle.
  assert (Hd : attrDepth (fst s) <= 0) by (subst s; cbn; lia).
  assert (Hsock : sock (fst s) = sock ctx) by reflexivity.
  assert (H1 : 0 <= msgBufferLen (snd s) <= msgBufferCap (snd s)) by lia.
  assert (H2 : msgBufferLen (snd s) + total_len ps < 2 ^ 62) by lia.
  destruct (appends_len ps (snd s) H1 H2) as [Hal _].
  pose proof (appends_committed (snd s) ps H1 H2) as Hc.
  assert (Hw : 4 <= msgBufferLen (appends (snd s) ps) < 2 ^ 32) by lia.
  destruct (wire_bytes_spec _ Hw) as [_ W].
  destruct (nlSendMessage_transmissions (fst s) (appends (snd s) ps)
              waitResponse handler arg k Hd) as [n Hn].
  exists n; subst r; rewrite Hn, Hsock, W, Hal, Hlen, Hc.
  rewrite skipn_app.
  assert (L : length (committed (snd s)) = 16%nat)
    by (unfold committed; rewrite read_bytes_length, Hlen; reflexivity).
  rewrite L; change (4 - 16)%nat with 0%nat; rewrite skipn_O.
  subst s; rewrite nlInitMessage_header.
  rewrite <- !app_assoc; reflexivity.
Qed.

End RequestFacts.

(** X16.  A failed setup leaves no socket open.  When [socket] itself
    fails nothing is closed and its error number is returned.  When
    [bind] or [getsockname] fails, the descriptor is closed, once and as
    the last action, and the value returned is the error number in
    force after [close]: the one of the failing step unless [close]
    sets its own.  The descriptor stays recorded in the context. *)
Theorem setup_failure_closes_the_socket os ctx :
  ~ setup_succeeds os ->
  let r := nlNewContextInPlace os ctx in
  let fd := ret (os_socket os) in
  sock (snd (fst r)) = fd /\
  (fd = -1 ->
     filter is_Close (snd r) = [] /\ fst (fst r) = setup_errno os) /\
  (fd <> -1 ->
     filter is_Close (snd r) = [Close fd] /\
     last (snd r) Socket = Close fd /\
     fst (fst r) = errno_after (setup_errno os) (os_close os)).
Proof.
  intros Hfail; cbv zeta.
  unfold nlNewContextInPlace, nlNewContextInPlace_abort, setup_errno.
  cbn [sock set_sock set_nl_pid set_nextSeq].
  destruct (Z.eqb_spec (ret (os_socket os)) (-1)) as [Hs | Hs]; cbn [negb].
  { cbn [fst snd sock set_sock].
    split; [reflexivity |]; split; [intros _ | intros F; contradiction].
    split; reflexivity. }
  destruct (Z.eqb_spec (ret (os_bind os)) 0) as [Hb | Hb]; cbn [negb].
  - destruct (Z.eqb_spec (ret (os_getsockname os)) 0) as [Hg | Hg];
      cbn [negb].
    + exfalso; apply Hfail; repeat split; assumption.
    + cbn [fst snd sock set_sock set_nl_pid].
      split; [reflexivity |]; split; [intros F; contradiction | intros _].
      split; [reflexivity |]; split; reflexivity.
  - cbn [fst snd sock set_sock set_nl_pid].
    split; [reflexivity |]; split; [intros F; contradiction | intros _].
    split; [reflexivity |]; split; reflexivity.
Qed.

Lemma request_on_the_wire_witness :
  let s := nlInitMessage (B := release_build) session0 fresh_globals 24 5 in
  let r := nlSendMessage (B := release_build) (fst s)
             (appends (B := release_build) (snd s) two_payloads) false
             (@None (nlResponseHandler unit)) tt taken_at_third_attempt in
  exists n,
    filter is_SendMsg (events r)
    = repeat (SendMsg (sock session0)
                (le32 (16 + total_len two_payloads)
                 ++ le16 24 ++ le16 (Z.lor NLM_F_REQUEST 5)
                 ++ le32 (nextSeq session0) ++ le32 (nl_pid session0)
                 ++ map u8 (concat two_payloads)))
             (S n).
Proof.
  apply (request_on_the_wire (B := release_build) session0 fresh_globals 24 5
           two_payloads false (@None (nlResponseHandler unit)) tt
           taken_at_third_attempt); by_evaluation.
Defined.

Lemma setup_failure_closes_the_socket_witness :
  let r := nlNewContextInPlace bind_refused session0 in
  let fd := ret (os_socket bind_refused) in
  sock (snd (fst r)) = fd /\
  (fd = -1 ->
     filter is_Close (snd r) = [] /\ fst (fst r) = setup_errno bind_refused) /\
  (fd <> -1 ->
     filter is_Close (snd r) = [Close fd] /\
     last (snd r) Socket = Close fd /\
     fst (fst r)
     = errno_after (setup_errno bind_refused) (os_close bind_refused)).
Proof.
  apply (setup_failure_closes_the_socket bind_refused session0).
  intros (_ & H & _); vm_compute in H; discriminate H.
Defined.

Lemma recv_loop_iov_len {A : Type} seq handler sq (q : list recv_result) :
  forall ctx g (arg : A) ev,
    iov_len (ctx_after (recv_loop seq handler ctx g arg sq q ev))
    = iov_len ctx.
Proof.
  induction q as [| r q IH]; intros ctx g arg ev; cbn [recv_loop];
    [reflexivity |].
  unfold recvmsg.
  destruct (ret (rr_ret r) <? 0).
  { destruct (ret (rr_ret r) =? ENOBUFS); [rewrite IH; reflexivity |].
    destruct ((ret (rr_ret r) =? EAGAIN)
              || (errno_after 0 (rr_ret r) =? EINTR));
      [rewrite IH; reflexivity | reflexivity]. }
  destruct (ret (rr_ret r) =? 0); [reflexivity |].
  destruct (negb (msg_namelen _ =? sizeof_sockaddr_nl)); [reflexivity |].
  match goal with
  | |- context [scan ?f ?d ?s ?h ?n ?r ?b ?a] =>
      destruct (scan f d s h n r b a) as [[rv a' | [|] a' |] sev]
  end; try reflexivity.
  rewrite IH; reflexivity.
Qed.

Section Discard.
Context {B : Build}.

(** X17.  A send that waits discards the message once it is
    transmitted: whatever is received, the committed region is empty
    afterwards, the arena holds at least 4096 bytes (8192 when it had
    fewer than 4096, its old capacity otherwise), and reads were offered
    the whole arena. *)
Theorem waited_send_discards_the_message {A : Type} ctx g
  (handler : option (nlResponseHandler A)) arg ok rest rq :
  attrDepth ctx <= 0 ->
  ret ok <> -1 ->
  0 <= msgBufferCap g < 2 ^ 62 ->
  let x := nlSendMessage ctx g true handler arg
             {| sendq := ok :: rest; recvq := rq |} in
  msgBufferLen (glob_after x) = 0 /\
  committed (glob_after x) = [] /\
  msgBufferCap (glob_after x)
  = (if msgBufferCap g <? 4096 then 8192 else msgBufferCap g) /\
  iov_len (ctx_after x) = msgBufferCap (glob_after x).
Proof.
  intros Hd Hok Hc; cbv zeta.
  assert (Hs : send_loop (sock ctx) (wire_bytes g) (ok :: rest)
               = (Sent, rest, attempt (sock ctx) (wire_bytes g))).
  { cbn [send_loop]; destruct (Z.eqb_spec (ret ok) (-1));
      [contradiction | reflexivity]. }
  rewrite nlSendMessage_waits by (cbn [sendq]; rewrite ?Hs; auto).
  cbv zeta; cbn [sendq recvq]; rewrite Hs; cbn [fst snd].
  match goal with
  | |- context [recv_loop ?s ?h ?c ?g0 ?a ?q1 ?q2 ?e] =>
      destruct (recv_loop_frame s h q1 q2 c g0 a e) as (_ & _ & L & C);
      pose proof (recv_loop_iov_len s h q1 q2 c g0 a e) as I
  end.
  cbn [iov_len set_iov_len] in I.
  assert (R : msgBufferLen (nlResetSpace (finalized g) 4096) = 0 /\
              msgBufferCap (nlResetSpace (finalized g) 4096)
              = (if msgBufferCap g <? 4096 then 8192
                 else msgBufferCap g)).
  { unfold nlResetSpace; rewrite nlReserveSpace_len; cbn [msgBufferLen].
    split; [reflexivity |].
    match goal with
    | |- context [nlReserveSpace ?g0 _] =>
        set (base := g0);
        pose proof (nlReserveSpace_cap base 4096) as R
    end.
    assert (Hb : msgBufferLen base = 0) by reflexivity.
    assert (Hcb : msgBufferCap base = msgBufferCap g) by reflexivity.
    cbv zeta in R; rewrite Hb, Hcb in R.
    assert (P1 : 0 <= 0) by lia.
    assert (P2 : 0 <= 4096) by lia.
    assert (P3 : 0 + 4096 < 2 ^ 62) by lia.
    destruct (R P1 P2 P3) as [[R1 E] | [R1 E]].
    - rewrite E, Hcb.
      destruct (Z.ltb_spec (msgBufferCap g) 4096); [lia | reflexivity].
    - rewrite E.
      destruct (Z.ltb_spec (msgBufferCap g) 4096); [reflexivity | lia]. }
  destruct R as [R0 R1].
  split; [rewrite L; exact R0 |].
  split; [unfold committed; rewrite L, R0; reflexivity |].
  split; [rewrite C; exact R1 |].
  rewrite I, C; reflexivity.
Qed.

End Discard.

Lemma waited_send_discards_the_message_witness :
  let x := nlSendMessage (B := release_build) (fst second_message)
             (snd second_message) true (@None (nlResponseHandler unit)) tt
             {| sendq := succeeding 16 :: [];
                recvq := [received (nlmsgerr_bytes 1 1000 0 [])] |} in
  msgBufferLen (glob_after x) = 0 /\
  committed (glob_after x) = [] /\
  msgBufferCap (glob_after x)
  = (if msgBufferCap (snd second_message) <? 4096 then 8192
     else msgBufferCap (snd second_message)) /\
  iov_len (ctx_after x) = msgBufferCap (glob_after x).
Proof.
  apply (waited_send_discards_the_message (B := release_build)
           (fst second_message) (snd second_message)
           (@None (nlResponseHandler unit)) tt (succeeding 16) []
           [received (nlmsgerr_bytes 1 1000 0 [])]); by_evaluation.
Defined.

(** ** The command line *)

(** Facts about characters, checked on each of the 256 of them. *)
Ltac each_character c :=
  destruct c as [[] [] [] [] [] [] [] []]; vm_compute;
  try (intros; discriminate); try (intros; reflexivity);
  repeat split; intros; try discriminate; try reflexivity.

Lemma tolower_idem c : tolower (tolower c) = tolower c.
Proof. each_character c. Qed.

Lemma tolower_nul c : code (tolower c) = 0 -> code c = 0.
Proof. each_character c. Qed.

Lemma letter_is_no_number c :
  (97 <=? code (tolower c)) && (code (tolower c) <=? 122) = true ->
  isspace c = false /\ isdigit c = false /\
  c <> "-"%char /\ c <> "+"%char.
Proof. each_character c. Qed.

Lemma code_inj c1 c2 : code c1 = code c2 -> c1 = c2.
Proof.
  unfold code; intros H.
  rewrite <- (ascii_nat_embedding c1), <- (ascii_nat_embedding c2).
  f_equal; lia.
Qed.

Lemma strcasecmp_lower s1 : forall s2,
  lower s1 = lower s2 -> strcasecmp s1 s2 = 0.
Proof.
  induction s1 as [| c1 s1 IH]; intros [| c2 s2]; cbn [lower strcasecmp];
    try discriminate; [reflexivity |].
  intros E; injection E as Ec Es.
  rewrite Ec, Z.eqb_refl; apply IH; exact Es.
Qed.

Lemma strcasecmp_zero s1 : forall s2,
  nul_free s1 = true -> nul_free s2 = true ->
  strcasecmp s1 s2 = 0 -> lower s1 = lower s2.
Proof.
  induction s1 as [| c1 s1 IH]; intros [| c2 s2];
    cbn [lower strcasecmp nul_free]; intros N1 N2 E.
  - reflexivity.
  - apply andb_prop in N2; destruct N2 as [N2 _].
    assert (code c2 = 0) by (apply tolower_nul; lia).
    destruct (Z.eqb_spec (code c2) 0); [discriminate | contradiction].
  - apply andb_prop in N1; destruct N1 as [N1 _].
    assert (code c1 = 0) by (apply tolower_nul; lia).
    destruct (Z.eqb_spec (code c1) 0); [discriminate | contradiction].
  - apply andb_prop in N1; destruct N1 as [_ N1].
    apply andb_prop in N2; destruct N2 as [_ N2].
    destruct (Z.eqb_spec (code (tolower c1)) (code (tolower c2))) as [Ec | Ec].
    + rewrite (code_inj _ _ Ec), (IH s2 N1 N2 E); reflexivity.
    + lia.
Qed.

Lemma digits_of_uint_acc d : forall acc,
  digits (DecimalString.NilEmpty.string_of_uint d) (Z.pos acc)
  = (Z.pos (Pos.of_uint_acc d acc), EmptyString).
Proof.
  induction d as [| d IH | d IH | d IH | d IH | d IH | d IH | d IH | d IH
                  | d IH | d IH]; intros acc;
    cbn [DecimalString.NilEmpty.string_of_uint digits Pos.of_uint_acc];
    [reflexivity | ..];
    match goal with
    | |- context [isdigit ?c] =>
        change (isdigit c) with true;
        let v := eval vm_compute in (code c) in change (code c) with v
    end;
    cbv iota; rewrite <- IH; f_equal; lia.
Qed.

Lemma digits_of_uint d :
  digits (DecimalString.NilEmpty.string_of_uint d) 0
  = (Z.of_N (Pos.of_uint d), EmptyString).
Proof.
  induction d as [| d IH | d IH | d IH | d IH | d IH | d IH | d IH | d IH
                  | d IH | d IH];
    cbn [DecimalString.NilEmpty.string_of_uint digits Pos.of_uint];
    [reflexivity | ..];
    match goal with
    | |- context [isdigit ?c] =>
        change (isdigit c) with true;
        let v := eval vm_compute in (code c) in change (code c) with v
    end;
    cbv iota;
    first [ exact IH
          | cbn [Z.of_N]; rewrite <- digits_of_uint_acc; f_equal ].
Qed.

Lemma strtol_digits s :
  match s with
  | String c _ => isdigit c = true
  | EmptyString => False
  end ->
  strtol s = (clamp (fst (digits s 0)), snd (digits s 0)).
Proof.
  destruct s as [| c s]; [intros [] |]; intros Hd.
  unfold strtol; cbn [skip_spaces].
  assert (Hc : isspace c = false /\ c <> "-"%char /\ c <> "+"%char).
  { revert Hd; clear; each_character c. }
  destruct Hc as (Hs & Hm & Hp).
  rewrite Hs.
  destruct (ascii_dec c "-") as [| _]; [contradiction |].
  destruct (ascii_dec c "+") as [| _]; [contradiction |].
  assert (E : match String c s with
              | String "-" s' => (true, s')
              | String "+" s' => (false, s')
              | _ => (false, String c s)
              end = (false, String c s)).
  { revert Hd; clear; each_character c. }
  rewrite E, Hd.
  destruct (digits (String c s) 0); reflexivity.
Qed.

Lemma strtol_numeral n :
  Z.of_N n <= LONG_MAX -> strtol (numeral n) = (Z.of_N n, EmptyString).
Proof.
  intros Hn.
  assert (Hd : digits (numeral n) 0 = (Z.of_N n, EmptyString)).
  { unfold numeral, DecimalString.NilZero.string_of_uint.
    pose proof (DecimalN.Unsigned.of_to n) as E; unfold N.of_uint in E.
    destruct (N.to_uint n) eqn:Eu;
      [cbn in E; subst n; reflexivity | ..];
      rewrite digits_of_uint, E; reflexivity. }
  rewrite strtol_digits.
  - rewrite Hd; cbn [fst snd]; f_equal.
    unfold clamp, LONG_MIN, LONG_MAX in *; lia.
  - unfold numeral, DecimalString.NilZero.string_of_uint.
    destruct (N.to_uint n); reflexivity.
Qed.

Lemma userIndex_numeral n :
  Z.of_N n <= LONG_MAX -> userIndex (numeral n) = Z.of_N n.
Proof.
  intros Hn; unfold userIndex; rewrite strtol_numeral by assumption.
  reflexivity.
Qed.

Lemma numeral_not_empty n : numeral n <> EmptyString.
Proof.
  unfold numeral, DecimalString.NilZero.string_of_uint.
  destruct (N.to_uint n); discriminate.
Qed.

Lemma userIndex_of_name s :
  starts_with_letter s = true -> userIndex s = -1.
Proof.
  destruct s as [| c s]; [discriminate |]; cbn [starts_with_letter].
  intros H; destruct (letter_is_no_number c H) as (Hs & Hd & Hm & Hp).
  unfold userIndex, strtol; cbn [skip_spaces]; rewrite Hs.
  assert (E : match String c s with
              | String "-" s' => (true, s')
              | String "+" s' => (false, s')
              | _ => (false, String c s)
              end = (false, String c s)).
  { revert Hm Hp; clear; destruct c as [[] [] [] [] [] [] [] []];
      intros Hm Hp; try reflexivity; exfalso; auto. }
  rewrite E, Hd; reflexivity.
Qed.

Section Scan.
Variable arg : string.
Variable u : Z.

Lemma selected_dec index option :
  (index =? u) || (strcasecmp arg option =? 0) = true
  <-> selected arg u index option.
Proof.
  unfold selected; rewrite orb_true_iff, !Z.eqb_eq; reflexivity.
Qed.

Lemma matchArg_scan_some options : forall k i,
  matchArg_scan arg u options k = Some i <->
  k <= i < k + Z.of_nat (length options) /\
  selected arg u i (nth (Z.to_nat (i - k)) options EmptyString) /\
  forall j, k <= j < i ->
    ~ selected arg u j (nth (Z.to_nat (j - k)) options EmptyString).
Proof.
  induction options as [| o options IH]; intros k i; cbn [matchArg_scan].
  - split; [discriminate |]. cbn [length]; lia.
  - destruct ((k =? u) || (strcasecmp arg o =? 0)) eqn:E.
    + apply selected_dec in E. split.
      * intros H; injection H as <-.
        rewrite Z.sub_diag; cbn [length Z.to_nat nth].
        split; [lia |]; split; [exact E |]; intros j Hj; lia.
      * intros (Hi & Hs & Hfirst).
        destruct (Z.eq_dec i k) as [-> | Hne]; [reflexivity |].
        exfalso; apply (Hfirst k); [lia |].
        rewrite Z.sub_diag; exact E.
    + assert (Hn : ~ selected arg u k o)
        by (intros F; apply selected_dec in F; rewrite F in E; discriminate).
      rewrite IH; cbn [length]; split.
      * intros (Hi & Hs & Hfirst).
        split; [lia |]; split.
        -- replace (Z.to_nat (i - k)) with (S (Z.to_nat (i - (k + 1)))) by lia.
           exact Hs.
        -- intros j Hj.
           destruct (Z.eq_dec j k) as [-> | Hne].
           ++ rewrite Z.sub_diag; exact Hn.
           ++ replace (Z.to_nat (j - k)) with (S (Z.to_nat (j - (k + 1))))
                by lia.
              apply Hfirst; lia.
      * intros (Hi & Hs & Hfirst).
        assert (Hik : i <> k).
        { intros ->; apply Hn; rewrite Z.sub_diag in Hs; exact Hs. }
        split; [lia |]; split.
        -- replace (Z.to_nat (i - k)) with (S (Z.to_nat (i - (k + 1))))
             in Hs by lia.
           exact Hs.
        -- intros j Hj.
           specialize (Hfirst j ltac:(lia)).
           replace (Z.to_nat (j - k)) with (S (Z.to_nat (j - (k + 1))))
             in Hfirst by lia.
           exact Hfirst.
Qed.

Lemma matchArg_scan_none options : forall k,
  matchArg_scan arg u options k = None <->
  forall j, k <= j < k + Z.of_nat (length options) ->
    ~ selected arg u j (nth (Z.to_nat (j - k)) options EmptyString).
Proof.
  induction options as [| o options IH]; intros k; cbn [matchArg_scan].
  - split; [cbn [length]; intros _ j Hj; lia | reflexivity].
  - destruct ((k =? u) || (strcasecmp arg o =? 0)) eqn:E.
    + apply selected_dec in E. split; [discriminate |].
      intros H; exfalso; apply (H k); [cbn [length]; lia |].
      rewrite Z.sub_diag; exact E.
    + assert (Hn : ~ selected arg u k o)
        by (intros F; apply selected_dec in F; rewrite F in E; discriminate).
      rewrite IH; cbn [length]; split.
      * intros H j Hj.
        destruct (Z.eq_dec j k) as [-> | Hne].
        -- rewrite Z.sub_diag; exact Hn.
        -- replace (Z.to_nat (j - k)) with (S (Z.to_nat (j - (k + 1))))
             by lia.
           apply H; lia.
      * intros H j Hj.
        specialize (H j ltac:(lia)).
        replace (Z.to_nat (j - k)) with (S (Z.to_nat (j - (k + 1))))
          in H by lia.
        exact H.
Qed.

Lemma matchArg_scan_finds options : forall k i,
  k <= i < k + Z.of_nat (length options) ->
  selected arg u i (nth (Z.to_nat (i - k)) options EmptyString) ->
  exists j, matchArg_scan arg u options k = Some j /\ k <= j <= i.
Proof.
  intros k i Hi Hs.
  destruct (matchArg_scan arg u options k) as [j |] eqn:E.
  - exists j; split; [reflexivity |].
    apply matchArg_scan_some in E; destruct E as (Hj & _ & Hfirst).
    destruct (Z_le_gt_dec j i); [lia |].
    exfalso; apply (Hfirst i); [lia | exact Hs].
  - exfalso. rewrite matchArg_scan_none in E. exact (E i Hi Hs).
Qed.

End Scan.

Lemma matchArg_unfold arg options :
  arg <> EmptyString ->
  matchArg arg options = matchArg_scan arg (userIndex arg) options 0.
Proof. destruct arg; [intros F; contradiction | reflexivity]. Qed.

Lemma matchArg_range arg options i :
  matchArg arg options = Some i -> 0 <= i < Z.of_nat (length options).
Proof.
  destruct arg as [| c s]; [discriminate |]; unfold matchArg.
  intros E; apply matchArg_scan_some in E; lia.
Qed.

(** A name, given in any case, selects the first option it names. *)
Lemma matchArg_name arg options (i : nat) :
  (i < length options)%nat ->
  starts_with_letter arg = true ->
  nul_free arg = true ->
  forallb nul_free options = true ->
  lower arg = lower (nth i options EmptyString) ->
  (forall j, (j < i)%nat -> lower (nth j options EmptyString) <> lower arg) ->
  matchArg arg options = Some (Z.of_nat i).
Proof.
  intros Hi Hl Hn Hopts Hname Hfirst.
  assert (Hne : arg <> EmptyString) by (intros ->; discriminate).
  rewrite matchArg_unfold by assumption.
  rewrite (userIndex_of_name arg Hl).
  apply matchArg_scan_some.
  rewrite !Z.sub_0_r, Nat2Z.id.
  split; [lia |]; split.
  - right; apply strcasecmp_lower; exact Hname.
  - intros j Hj [Hu | Hs]; [lia |].
    rewrite Z.sub_0_r in Hs.
    apply (Hfirst (Z.to_nat j)); [lia |].
    symmetry; apply strcasecmp_zero; try assumption.
    rewrite forallb_forall in Hopts; apply Hopts.
    apply nth_In; lia.
Qed.

(** X18.  [matchArg] returns the first option the argument selects, by
    its position or by its name, and is a usage error exactly when the
    argument is empty or selects no option. *)
Theorem matchArg_first_match arg options :
  (forall i,
     matchArg arg options = Some i <->
     arg <> EmptyString /\
     0 <= i < Z.of_nat (length options) /\
     selects arg i (nth (Z.to_nat i) options EmptyString) /\
     forall j, 0 <= j < i ->
       ~ selects arg j (nth (Z.to_nat j) options EmptyString)) /\
  (matchArg arg options = None <->
     arg = EmptyString \/
     forall j, 0 <= j < Z.of_nat (length options) ->
       ~ selects arg j (nth (Z.to_nat j) options EmptyString)).
Proof.
  destruct arg as [| c s] eqn:Ea.
  - split.
    + intros i; split; [discriminate | intros [F _]; contradiction].
    + split; [intros _; left; reflexivity | reflexivity].
  - rewrite <- Ea.
    assert (Hne : arg <> EmptyString) by (rewrite Ea; discriminate).
    rewrite matchArg_unfold by assumption.
    split.
    + intros i; rewrite matchArg_scan_some.
      unfold selects; split.
      * intros (H1 & H2 & H3); rewrite Z.sub_0_r in H2.
        split; [exact Hne |]; split; [lia |]; split; [exact H2 |].
        intros j Hj; specialize (H3 j Hj); rewrite Z.sub_0_r in H3; exact H3.
      * intros (_ & H1 & H2 & H3); rewrite Z.sub_0_r.
        split; [lia |]; split; [exact H2 |].
        intros j Hj; rewrite Z.sub_0_r; apply H3; exact Hj.
    + rewrite matchArg_scan_none; unfold selects; split.
      * intros H; right; intros j Hj.
        specialize (H j ltac:(lia)); rewrite Z.sub_0_r in H; exact H.
      * intros [F | H]; [contradiction |].
        intros j Hj; rewrite Z.sub_0_r; apply H; lia.
Qed.

(** X19.  An option can be given by its position: the decimal numeral
    of [i], with [i] less than the number of options, is accepted, and
    selects option [i] unless an earlier option bears that numeral as
    its name. *)
Theorem matchArg_by_index (i : N) options :
  Z.of_N i < Z.of_nat (length options) ->
  Z.of_nat (length options) <= LONG_MAX ->
  exists j,
    matchArg (numeral i) options = Some j /\
    0 <= j <= Z.of_N i /\
    (j < Z.of_N i ->
     strcasecmp (numeral i) (nth (Z.to_nat j) options EmptyString) = 0).
Proof.
  intros Hi Hlen.
  assert (Hu : userIndex (numeral i) = Z.of_N i)
    by (apply userIndex_numeral; lia).
  rewrite matchArg_unfold by apply numeral_not_empty.
  destruct (matchArg_scan_finds (numeral i) (userIndex (numeral i)) options
              0 (Z.of_N i)) as (j & Ej & Hj).
  - lia.
  - left; symmetry; exact Hu.
  - exists j; split; [exact Ej |]; split; [exact Hj |].
    intros Hlt.
    apply matchArg_scan_some in Ej; destruct Ej as (_ & [F | Hs] & _).
    + lia.
    + rewrite Z.sub_0_r in Hs; exact Hs.
Qed.

(** X20.  Option names are matched without regard to case.  When no
    two options have the same name up to case, an argument that starts
    with a letter and spells the name of option [i] up to case selects
    option [i], and so does every other spelling of it. *)
Theorem matchArg_by_name arg options (i : nat) :
  (i < length options)%nat ->
  starts_with_letter arg = true ->
  nul_free arg = true ->
  forallb nul_free options = true ->
  lower arg = lower (nth i options EmptyString) ->
  NoDup (map lower options) ->
  matchArg arg options = Some (Z.of_nat i) /\
  forall other, lower other = lower arg ->
    matchArg other options = Some (Z.of_nat i).
Proof.
  intros Hi Hl Hn Hopts Hname Hnd.
  assert (Hfirst : forall j, (j < i)%nat ->
            lower (nth j options EmptyString) <> lower arg).
  { intros j Hj E; rewrite Hname in E.
    rewrite NoDup_nth with (d := lower EmptyString) in Hnd.
    assert (j = i); [| lia].
    apply Hnd; rewrite ?length_map; try lia.
    rewrite !map_nth; exact E. }
  split; [apply matchArg_name; assumption |].
  intros other Ho.
  assert (Hl' : starts_with_letter other = true).
  { destruct other as [| c o], arg as [| c' s']; try discriminate.
    cbn [lower] in Ho; injection Ho as Ec _.
    cbn [starts_with_letter] in *.
    rewrite <- (tolower_idem c), Ec, tolower_idem; exact Hl. }
  assert (Hn' : nul_free other = true).
  { clear - Ho Hn. revert arg Ho Hn.
    induction other as [| c o IH]; intros [| c' s']; try discriminate;
      [reflexivity |].
    cbn [lower nul_free]; intros E N; injection E as Ec Es.
    apply andb_prop in N; destruct N as [N1 N2].
    rewrite (IH s' Es N2), andb_true_r.
    destruct (Z.eqb_spec (code c) 0) as [Hc |]; [| reflexivity].
    assert (c = "000"%char) by (apply code_inj; rewrite Hc; reflexivity).
    subst c. exfalso.
    assert (F : code (tolower c') = 0) by (rewrite <- Ec; reflexivity).
    apply tolower_nul in F.
    destruct (Z.eqb_spec (code c') 0); [discriminate | contradiction]. }
  apply matchArg_name; try assumption.
  - rewrite Ho; exact Hname.
  - intros j Hj; rewrite Ho; apply Hfirst; exact Hj.
Qed.

Lemma lower_is_name s name :
  lower s = name -> starts_with_letter name = true -> nul_free name = true ->
  lower name = name ->
  starts_with_letter s = true /\ nul_free s = true.
Proof.
  intros <- Hl Hn _; split.
  - destruct s as [| c s]; [discriminate |].
    cbn [lower starts_with_letter] in *.
    rewrite tolower_idem in Hl; exact Hl.
  - clear Hl; induction s as [| c s IH]; [reflexivity |].
    cbn [lower nul_free] in *.
    apply andb_prop in Hn; destruct Hn as [N1 N2].
    rewrite (IH N2), andb_true_r.
    destruct (Z.eqb_spec (code c) 0) as [Hc |]; [| reflexivity].
    assert (c = "000"%char) by (apply code_inj; rewrite Hc; reflexivity).
    subst c; discriminate.
Qed.

Ltac table_entry i :=
  match goal with
  | E : lower ?arg = ?name |- _ =>
      destruct (lower_is_name arg name E eq_refl eq_refl eq_refl) as [Hl Hn];
      rewrite (matchArg_name arg _ i);
      [ rewrite ?E; reflexivity
      | cbn; lia | exact Hl | exact Hn | reflexivity
      | rewrite E; reflexivity
      | intros j Hj; rewrite E;
        do 4 (destruct j as [| j]; [try lia; discriminate |]); lia ]
  end.

(** X21.  The tables of [parseArg].  In any mix of upper and lower
    case, [-v] takes [debug], [info], [warning] and [error] as the
    levels 0 to 3, and [-u] takes [shadow] and [KiB] as the divisor 125,
    [modelnet] and [Kb] as the divisor 1000; nothing else of the
    arguments changes. *)
Theorem option_names_ignore_case a arg :
  (lower arg = "debug"%string ->
   parseArg a (code "v") (Some arg) = Parsed 0 (set_verbosity a 0)) /\
  (lower arg = "info"%string ->
   parseArg a (code "v") (Some arg) = Parsed 0 (set_verbosity a 1)) /\
  (lower arg = "warning"%string ->
   parseArg a (code "v") (Some arg) = Parsed 0 (set_verbosity a 2)) /\
  (lower arg = "error"%string ->
   parseArg a (code "v") (Some arg) = Parsed 0 (set_verbosity a 3)) /\
  (lower arg = "shadow"%string \/ lower arg = "kib"%string ->
   parseArg a (code "u") (Some arg)
   = Parsed 0 (set_bandwidthDivisor a ShadowDivisor)) /\
  (lower arg = "modelnet"%string \/ lower arg = "kb"%string ->
   parseArg a (code "u") (Some arg)
   = Parsed 0 (set_bandwidthDivisor a ModelNetDivisor)).
Proof.
  unfold parseArg.
  change (code "v" =? code "f") with false.
  change (code "v" =? code "l") with false.
  change (code "v" =? code "w") with false.
  change (code "v" =? code "c") with false.
  change (code "v" =? code "v") with true.
  change (code "u" =? code "f") with false.
  change (code "u" =? code "l") with false.
  change (code "u" =? code "w") with false.
  change (code "u" =? code "c") with false.
  change (code "u" =? code "v") with false.
  change (code "u" =? code "u") with true.
  cbv iota.
  split; [intros E; table_entry 0%nat |].
  split; [intros E; table_entry 1%nat |].
  split; [intros E; table_entry 2%nat |].
  split; [intros E; table_entry 3%nat |].
  split; intros [E | E].
  - table_entry 0%nat.
  - table_entry 2%nat.
  - table_entry 1%nat.
  - table_entry 3%nat.
Qed.

(** X22.  [parseArg] keeps the arguments valid.  With an argument
    wherever [-v] and [-u] need one, a call has defined behaviour, in
    particular [divisors] is indexed within its bounds; it ends in the
    usage message only for [-v] and [-u]; otherwise the bandwidth
    divisor is still 125 or 1000 and changes for [-u] only, the
    verbosity set by [-v] is one of the four levels, the value returned
    is 0 for the six keys the parser knows and [ARGP_ERR_UNKNOWN] for
    every other key, and an unknown key leaves the arguments
    unchanged. *)
Theorem parseArg_keeps_args_valid a key arg :
  valid_args a ->
  (arg = None -> key <> code "v" /\ key <> code "u") ->
  match parseArg a key arg with
  | Parsed rv a' =>
      valid_args a' /\
      (key = code "v" -> 0 <= verbosity a' < 4) /\
      (key <> code "u" -> bandwidthDivisor a' = bandwidthDivisor a) /\
      rv = (if known_key key then 0 else ARGP_ERR_UNKNOWN) /\
      (known_key key = false -> a' = a)
  | Usage => key = code "v" \/ key = code "u"
  | Undefined => False
  end.
Proof.
  intros Hv Harg; unfold parseArg.
  repeat match goal with
         | |- context [key =? ?c] =>
             destruct (Z.eqb_spec key c) as [-> | ?]
         end;
    try (cbn [valid_args bandwidthDivisor set_topoFile set_logFile
              set_weightKey set_clientType];
         split; [exact Hv |]; split; [discriminate |];
         split; [reflexivity |]; split; [reflexivity | discriminate]).
  - destruct arg as [s |]; [| destruct (Harg eq_refl) as [F _]; contradiction].
    destruct (matchArg s verbosity_options) as [index |] eqn:E;
      [| left; reflexivity].
    pose proof (matchArg_range _ _ _ E) as Hi.
    cbn [valid_args bandwidthDivisor verbosity set_verbosity].
    split; [exact Hv |]; split; [intros _; exact Hi |].
    split; [reflexivity |]; split; [reflexivity | discriminate].
  - destruct arg as [s |]; [| destruct (Harg eq_refl) as [_ F]; contradiction].
    destruct (matchArg s units_options) as [index |] eqn:E;
      [| right; reflexivity].
    pose proof (matchArg_range _ _ _ E) as Hi.
    change (Z.of_nat (length units_options)) with 4 in Hi.
    change (Z.of_nat (length divisors)) with 4.
    destruct (Z.leb_spec 0 index); [| lia].
    destruct (Z.ltb_spec index 4); [| lia].
    cbn [andb valid_args bandwidthDivisor set_bandwidthDivisor].
    split.
    + assert (Hc : index = 0 \/ index = 1 \/ index = 2 \/ index = 3) by lia.
      destruct Hc as [-> | [-> | [-> | ->]]];
        [left | right | left | right]; reflexivity.
    + split; [discriminate |]; split; [intros F; contradiction |].
      split; [reflexivity | discriminate].
  - assert (Hk : known_key key = false).
    { unfold known_key; cbn [map existsb].
      repeat match goal with
             | H : key <> ?c |- context [key =? ?c] =>
                 rewrite (proj2 (Z.eqb_neq key c) H)
             end.
      reflexivity. }
    rewrite Hk.
    split; [exact Hv |]; split; [intros F; contradiction |].
    split; [reflexivity |]; split; reflexivity.
Qed.

Lemma matchArg_by_index_witness :
  exists j,
    matchArg (numeral 2) verbosity_options = Some j /\
    0 <= j <= Z.of_N 2 /\
    (j < Z.of_N 2 ->
     strcasecmp (numeral 2) (nth (Z.to_nat j) verbosity_options EmptyString)
     = 0).
Proof.
  apply (matchArg_by_index 2 verbosity_options); by_evaluation.
Defined.

Lemma matchArg_by_name_witness :
  matchArg "ModelNet" units_options = Some (Z.of_nat 1) /\
  forall other, lower other = lower "ModelNet" ->
    matchArg other units_options = Some (Z.of_nat 1).
Proof.
  apply (matchArg_by_name "ModelNet" units_options 1).
  - by_evaluation.
  - reflexivity.
  - reflexivity.
  - reflexivity.
  - reflexivity.
  - repeat (constructor;
            [intros H; cbn in H;
             repeat (destruct H as [H | H]; [discriminate H |]); exact H |]).
    constructor.
Defined.

Lemma parseArg_keeps_args_valid_witness :
  match parseArg (main_defaults 3) (code "u") (Some "kb"%string) with
  | Parsed rv a' =>
      valid_args a' /\
      (code "u" = code "v" -> 0 <= verbosity a' < 4) /\
      (code "u" <> code "u" ->
       bandwidthDivisor a' = bandwidthDivisor (main_defaults 3)) /\
      rv = (if known_key (code "u") then 0 else ARGP_ERR_UNKNOWN) /\
      (known_key (code "u") = false -> a' = main_defaults 3)
  | Usage => code "u" = code "v" \/ code "u" = code "u"
  | Undefined => False
  end.
Proof.
  apply (parseArg_keeps_args_valid (main_defaults 3) (code "u")
           (Some "kb"%string)).
  - left; reflexivity.
  - intros H; discriminate H.
Defined.

